(** * Expense receipt processor: records, orchestration, local storage

    A shallow embedding of the TypeScript front end ([lib/types.ts],
    [components/ReceiptReview.tsx], [app/page.tsx] in its two variants) and
    the properties its specification states about it.

    - [Js], [Types], [Review]: primitive values, the sectioned record and
      the editing of one field;
    - [Page], [PageV1]: the handlers of [page.tsx], run in a monad of state,
      events and exceptions against the answers of the server;
    - [Json], [Header]: the header information and its copy in local storage;
    - [Ui]: the screens as a transition system, with calls in flight;
    - [Trace], [Generate], [HeaderForm], [HeaderV1], [Field], [UiInv]: the
      events of a run, the request for the archive, the header form, the
      number inputs and what the screens keep;
    - [Scenarios]: concrete sessions; then the properties, module by module.

    JavaScript objects whose keys are computed at run time (the per-section
    field sets, the flat parsed record) are finite maps from property names
    to primitive values; interfaces whose properties are only ever named
    statically are records; arrays are lists addressed by index. *)

From Stdlib Require Import ZArith List String Ascii PrimFloat.
From stdpp Require Import base option list strings gmap fin_maps pretty.

Local Open Scope string_scope.

(** ** JavaScript primitive values *)

Module Js.

(** The values a parsed field can hold: [string | number | boolean | null].
    Numbers are IEEE-754 doubles, as in the language. *)
Inductive jsval : Type :=
| VNull
| VStr (s : string)
| VNum (x : float)
| VBool (b : bool).

(** [a === b] on primitives: values of different types are never equal,
    numbers compare as doubles. *)
Definition strict_eq (a b : jsval) : bool :=
  match a, b with
  | VNull, VNull => true
  | VStr s, VStr t => bool_decide (s = t)
  | VNum x, VNum y => PrimFloat.eqb x y
  | VBool p, VBool q => Bool.eqb p q
  | _, _ => false
  end.

(** [a !== b] *)
Definition strict_ne (a b : jsval) : bool := negb (strict_eq a b).

(** An object with primitive properties, keyed by property name. *)
Abbreviation jsobj := (gmap string jsval).

(** The static type of a property in an interface declaration. *)
Inductive jstype : Type :=
| TStringOrNull   (* string | null *)
| TString         (* string *)
| TNumberOrNull   (* number | null *)
| TNumber         (* number *)
| TBoolean.       (* boolean *)

Definition schema := list (string * jstype).

(** A value a property of type [t] is given when there is no data for it:
    null or some string for a string, null or zero for a number, false for
    a boolean. *)
Definition is_default (t : jstype) (v : jsval) : bool :=
  match t, v with
  | (TStringOrNull | TString), (VNull | VStr _) => true
  | (TNumberOrNull | TNumber), VNull => true
  | (TNumberOrNull | TNumber), VNum x => PrimFloat.eqb x 0
  | TBoolean, VBool b => negb b
  | _, _ => false
  end.

(** Every property of the schema is present in [obj], with a default. *)
Definition defaulted (sch : schema) (obj : jsobj) : bool :=
  forallb (fun kt =>
             match obj !! fst kt with
             | Some v => is_default (snd kt) v
             | None => false
             end) sch.

End Js.
Import Js.

(** ** lib/types.ts *)

Module Types.

Inductive ActiveSection : Type :=
| travel_general
| travel_mileage
| hospitality
| other.

#[global] Instance ActiveSection_eq_dec : EqDecision ActiveSection.
Proof. solve_decision. Defined.

(** The interfaces [TravelGeneralFields], [TravelMileageFields],
    [HospitalityFields] and [OtherFields], property by property. *)
Definition TravelGeneralFields : schema :=
  [ ("date", TStringOrNull); ("mode", TStringOrNull); ("is_return", TBoolean);
    ("from_location", TStringOrNull); ("to_location", TStringOrNull);
    ("foreign_currency", TStringOrNull); ("sterling_total", TNumberOrNull);
    ("is_non_uk_eu", TBoolean) ].

Definition TravelMileageFields : schema :=
  [ ("date", TStringOrNull); ("miles", TNumberOrNull); ("is_return", TBoolean);
    ("from_location", TStringOrNull); ("to_location", TStringOrNull);
    ("cost_per_mile", TNumberOrNull) ].

Definition HospitalityFields : schema :=
  [ ("date", TStringOrNull); ("principal_guest", TStringOrNull);
    ("organisation", TStringOrNull); ("total_numbers", TNumberOrNull);
    ("foreign_currency", TStringOrNull); ("sterling_total", TNumberOrNull);
    ("non_college_staff", TBoolean) ].

Definition OtherFields : schema :=
  [ ("date", TStringOrNull); ("expense_type", TStringOrNull);
    ("description", TStringOrNull); ("foreign_currency", TStringOrNull);
    ("sterling_total", TNumberOrNull); ("is_non_uk_eu", TBoolean) ].

Definition section_schema (s : ActiveSection) : schema :=
  match s with
  | travel_general => TravelGeneralFields
  | travel_mileage => TravelMileageFields
  | hospitality => HospitalityFields
  | other => OtherFields
  end.

(** [interface TypeSpecificFields]: one field set per section.  The
    record's projections carry the suffix [_fields] because the section
    tags above already use the bare names. *)
Record TypeSpecificFields : Type := mkFields {
  travel_general_fields : jsobj;
  travel_mileage_fields : jsobj;
  hospitality_fields : jsobj;
  other_fields : jsobj
}.

(** [fields[section]] *)
Definition get_section (fs : TypeSpecificFields) (s : ActiveSection) : jsobj :=
  match s with
  | travel_general => travel_general_fields fs
  | travel_mileage => travel_mileage_fields fs
  | hospitality => hospitality_fields fs
  | other => other_fields fs
  end.

(** [{ ...fields, [section]: o }] *)
Definition set_section (fs : TypeSpecificFields) (s : ActiveSection) (o : jsobj)
  : TypeSpecificFields :=
  match s with
  | travel_general =>
      mkFields o (travel_mileage_fields fs) (hospitality_fields fs) (other_fields fs)
  | travel_mileage =>
      mkFields (travel_general_fields fs) o (hospitality_fields fs) (other_fields fs)
  | hospitality =>
      mkFields (travel_general_fields fs) (travel_mileage_fields fs) o (other_fields fs)
  | other =>
      mkFields (travel_general_fields fs) (travel_mileage_fields fs) (hospitality_fields fs) o
  end.

Record ParsedReceipt : Type := mkParsed {
  active_section : ActiveSection;
  confidence : string;
  raw_description : string;
  fields : TypeSpecificFields
}.

Definition createEmptyFields : TypeSpecificFields :=
  {| travel_general_fields :=
       <["date" := VNull]> (<["mode" := VNull]> (<["is_return" := VBool false]>
       (<["from_location" := VNull]> (<["to_location" := VNull]>
       (<["foreign_currency" := VNull]> (<["sterling_total" := VNull]>
       (<["is_non_uk_eu" := VBool false]> ∅)))))));
     travel_mileage_fields :=
       <["date" := VNull]> (<["miles" := VNull]> (<["is_return" := VBool false]>
       (<["from_location" := VNull]> (<["to_location" := VNull]>
       (<["cost_per_mile" := VNull]> ∅)))));
     hospitality_fields :=
       <["date" := VNull]> (<["principal_guest" := VNull]>
       (<["organisation" := VNull]> (<["total_numbers" := VNull]>
       (<["foreign_currency" := VNull]> (<["sterling_total" := VNull]>
       (<["non_college_staff" := VBool false]> ∅))))));
     other_fields :=
       <["date" := VNull]> (<["expense_type" := VNull]>
       (<["description" := VNull]> (<["foreign_currency" := VNull]>
       (<["sterling_total" := VNull]> (<["is_non_uk_eu" := VBool false]> ∅))))) |}.

Definition createEmptyParsedReceipt : ParsedReceipt :=
  {| active_section := other;
     confidence := "low";
     raw_description := "";
     fields := createEmptyFields |}.

End Types.

(** ** components/ReceiptReview.tsx (sectioned variant): editing a field *)

Module Review.
Import Types.

(** [updateField(section, field, value)] of the review component, for the
    record [parsed] of the receipt on display.  The result is the record
    handed to [onUpdateParsed]; [None] when the function returns early
    because there is no parsed record. *)
Definition updateField (parsed : option ParsedReceipt)
    (section : ActiveSection) (field : string) (value : jsval)
  : option ParsedReceipt :=
  match parsed with
  | None => None
  | Some parsed =>
      let newParsed :=
        {| active_section := active_section parsed;
           confidence := confidence parsed;
           raw_description := raw_description parsed;
           fields :=
             set_section (fields parsed) section
               (<[field := value]> (get_section (fields parsed) section)) |} in
      if bool_decide (section ≠ active_section parsed)
         && strict_ne value VNull
         && strict_ne value (VStr "")
         && strict_ne value (VBool false)
      then Some {| active_section := section;
                   confidence := confidence newParsed;
                   raw_description := raw_description newParsed;
                   fields := fields newParsed |}
      else Some newParsed
  end.

End Review.

(** ** app/page.tsx: the orchestrator *)

Module Page.

(** A [File] picked by the user (name and MIME type; its bytes play no
    role in the orchestration). *)
Record File : Type := mkFile { file_name : string; file_type : string }.

Inductive AppState : Type := upload | review.

Inductive ParseMode : Type := image | text.

(** What a [fetch] followed by [res.json()] can come to: the promise of
    [fetch] rejects, or a response arrives with a status ([res.ok] holds for
    200..299) whose body either fails to parse ([inl], the rejection's
    message) or parses to [D]. *)
Inductive Response (D : Type) : Type :=
| NetworkFailure (message : string)
| HttpResponse (status : nat) (body : string + D).
Arguments NetworkFailure {D} message.
Arguments HttpResponse {D} status body.

Definition ok (status : nat) : bool := ((200 <=? status) && (status <=? 299))%nat.

(** The outcome of running a piece of code: it returns, or it throws an
    [Error] carrying a message. *)
Inductive Outcome (A : Type) : Type :=
| Returned (a : A)
| Thrown (message : string).
Arguments Returned {A} a.
Arguments Thrown {A} message.

(** The outcome of awaiting a response and its JSON body, with the message
    [bad_status] gives to a status outside 200..299. *)
Definition response_outcome {D} (bad_status : nat -> string) (resp : Response D)
  : Outcome D :=
  match resp with
  | NetworkFailure m => Thrown m
  | HttpResponse status body =>
      if negb (ok status) then Thrown (bad_status status)
      else match body with
           | inl m => Thrown m
           | inr data => Returned data
           end
  end.

(** A call fails when its promise rejects, the status is not in 200..299 or
    the body does not parse. *)
Definition fails {D} (resp : Response D) : bool :=
  match resp with
  | NetworkFailure _ => true
  | HttpResponse status body =>
      negb (ok status) || match body with inl _ => true | inr _ => false end
  end.

Definition truthy {A} (o : option A) : bool :=
  match o with Some _ => true | None => false end.

Section Orchestrator.

(** [page.tsx] never looks inside a parsed record except to build the
    placeholder, so the handlers are written once for any record type [P]. *)
Context {P : Type}.

Record Receipt : Type := mkReceipt {
  id : string;
  filename : string;
  image_base64 : string;
  thumbnail_base64 : string;
  parsed : option P;
  approved : bool;
  processing : bool;
  error : option string;
  file : option File          (* the [file?: File] the upload attaches *)
}.

(** The bodies of the two JSON answers the handlers read. *)
Record ParseData : Type := mkParseData {
  data_image_base64 : string;
  data_thumbnail_base64 : string;
  data_parsed : option P
}.

Record ReparseData : Type := mkReparseData { reparsed : option P }.

(** What the handlers do to the world outside the component state. *)
Inductive Event : Type :=
| EvParseRequest (idx attempt : nat) (f : option File) (mode : ParseMode) (model : string)
| EvReparseRequest (index : nat) (mode : ParseMode) (model : string)
    (user_text : string) (original_data : option P)
| EvSleep (ms : nat)
| EvLog (idx attempt : nat) (message : string).

(** The server and the clock, as the handlers meet them: the answer to the
    [attempt]-th extraction request for receipt [idx], the answer to a
    re-parse request, and the value of [new Date().toISOString()]. *)
Record Env : Type := mkEnv {
  parse_response : nat -> nat -> Response ParseData;
  reparse_response : ParseMode -> string -> string -> option P -> Response ReparseData;
  now_iso : string
}.

(** The [useState] cells of [Home] that the handlers write. *)
Record State : Type := mkState {
  receipts : list Receipt;
  appState : AppState;
  currentIndex : nat;
  selectedModel : string;
  st_processing : bool;                (* the cell [processing] *)
  processingProgress : nat * nat       (* { current, total } *)
}.

(** Handlers run in a monad that threads the state cells, logs the events
    and lets an exception escape. *)
Definition M (A : Type) : Type := State -> list Event * State * Outcome A.

Definition ret {A} (a : A) : M A := fun st => ([], st, Returned a).

Definition bind {A B} (c : M A) (k : A -> M B) : M B :=
  fun st =>
    match c st with
    | (ev, st', Returned a) =>
        match k a st' with
        | (ev', st'', r) => ((ev ++ ev')%list, st'', r)
        end
    | (ev, st', Thrown m) => (ev, st', Thrown m)
    end.

Definition throw {A} (message : string) : M A := fun st => ([], st, Thrown message).

(** [try { c } catch (error) { ... }]: the outcome of [c] as a value. *)
Definition try_ {A} (c : M A) : M (Outcome A) :=
  fun st => match c st with (ev, st', r) => (ev, st', Returned r) end.

Definition emit (e : Event) : M unit := fun st => ([e], st, Returned tt).

Definition getState : M State := fun st => ([], st, Returned st).

(** The state after [setReceipts(f)] with a functional update [f]. *)
Definition with_receipts (f : list Receipt -> list Receipt) (st : State) : State :=
  mkState (f (receipts st)) (appState st) (currentIndex st)
    (selectedModel st) (st_processing st) (processingProgress st).

Definition setReceipts (f : list Receipt -> list Receipt) : M unit :=
  fun st => ([], with_receipts f st, Returned tt).

Definition with_processing (b : bool) (st : State) : State :=
  mkState (receipts st) (appState st) (currentIndex st)
    (selectedModel st) b (processingProgress st).

Definition with_processingProgress (p : nat * nat) (st : State) : State :=
  mkState (receipts st) (appState st) (currentIndex st)
    (selectedModel st) (st_processing st) p.

Definition with_appState (a : AppState) (st : State) : State :=
  mkState (receipts st) a (currentIndex st)
    (selectedModel st) (st_processing st) (processingProgress st).

Definition with_currentIndex (i : nat) (st : State) : State :=
  mkState (receipts st) (appState st) i
    (selectedModel st) (st_processing st) (processingProgress st).

Definition setProcessing (b : bool) : M unit :=
  fun st => ([], with_processing b st, Returned tt).

Definition setProcessingProgress (p : nat * nat) : M unit :=
  fun st => ([], with_processingProgress p st, Returned tt).

Definition setAppState (a : AppState) : M unit :=
  fun st => ([], with_appState a st, Returned tt).

Definition setCurrentIndex (i : nat) : M unit :=
  fun st => ([], with_currentIndex i st, Returned tt).

#[local] Instance M_ret : MRet M := @ret.
#[local] Instance M_bind : MBind M := fun A B k c => bind c k.

(** [prev.map((r, i) => i === idx ? f(r) : r)] *)
Definition map_at (idx : nat) (f : Receipt -> Receipt) (prev : list Receipt)
  : list Receipt :=
  imap (fun i r => if decide (i = idx) then f r else r) prev.

(** *** The spread-updates the handlers apply to one receipt *)

(** [{ ...r, processing: true }] *)
Definition mark_processing (r : Receipt) : Receipt :=
  mkReceipt (id r) (filename r) (image_base64 r) (thumbnail_base64 r)
    (parsed r) (approved r) true (error r) (file r).

(** [{ ...r, image_base64: data.image_base64, thumbnail_base64:
      data.thumbnail_base64, parsed: data.parsed, processing: false,
      error: null }] *)
Definition parse_succeeded (data : ParseData) (r : Receipt) : Receipt :=
  mkReceipt (id r) (filename r) (data_image_base64 data) (data_thumbnail_base64 data)
    (data_parsed data) (approved r) false None (file r).

(** [{ ...r, parsed: data.parsed, processing: false, error: null }] *)
Definition reparse_succeeded (data : ReparseData) (r : Receipt) : Receipt :=
  mkReceipt (id r) (filename r) (image_base64 r) (thumbnail_base64 r)
    (reparsed data) (approved r) false None (file r).

(** [{ ...r, processing: false, error: (error as Error).message }] *)
Definition call_failed (message : string) (r : Receipt) : Receipt :=
  mkReceipt (id r) (filename r) (image_base64 r) (thumbnail_base64 r)
    (parsed r) (approved r) false (Some message) (file r).

(** [{ ...r, approved: true }] *)
Definition mark_approved (r : Receipt) : Receipt :=
  mkReceipt (id r) (filename r) (image_base64 r) (thumbnail_base64 r)
    (parsed r) true (processing r) (error r) (file r).

(** [!receipt.parsed && receipt.file] *)
Definition to_process (r : Receipt) : bool :=
  negb (truthy (parsed r)) && truthy (file r).

(** *** Re-parsing one receipt *)

Section Handlers.
Variable env : Env.

(** [handleReparse(index, userText, mode)].  [receipts[index]] is read from
    the state the handler was created in; reading [.parsed] of a missing
    receipt throws inside the [try]. *)
Definition handleReparse (index : nat) (userText : string) (mode : ParseMode)
  : M unit :=
  st ← getState;
  let receipt := receipts st !! index in
  setReceipts (map_at index mark_processing) ;;
  r ← try_ (
    match receipt with
    | None => throw "Cannot read properties of undefined (reading 'parsed')"
    | Some receipt =>
        emit (EvReparseRequest index mode (selectedModel st) userText (parsed receipt)) ;;
        match reparse_response env mode (selectedModel st) userText (parsed receipt) with
        | NetworkFailure m => throw m
        | HttpResponse status body =>
            if negb (ok status) then throw "Failed to reparse"
            else match body with
                 | inl m => throw m
                 | inr data => setReceipts (map_at index (reparse_succeeded data))
                 end
        end
    end);
  match r with
  | Returned _ => mret tt
  | Thrown message => setReceipts (map_at index (call_failed message))
  end.

(** [handleApprove(index)] *)
Definition handleApprove (index : nat) : M unit :=
  st ← getState;
  setReceipts (map_at index mark_approved) ;;
  if (index <? length (receipts st) - 1)%nat
  then setCurrentIndex (index + 1) else mret tt.

End Handlers.
End Orchestrator.

Arguments Receipt P : clear implicits.
Arguments ParseData P : clear implicits.
Arguments ReparseData P : clear implicits.
Arguments Event P : clear implicits.
Arguments Env P : clear implicits.
Arguments State P : clear implicits.
Arguments M P A : clear implicits.

#[global] Existing Instance M_ret.
#[global] Existing Instance M_bind.

(** *** The flat [ParsedReceipt] of [page.tsx] and the batch extraction *)

(** [interface ParsedReceipt] as [page.tsx] declares it. *)
Definition ParsedReceipt : schema :=
  [ ("expense_type", TString); ("amount", TNumber); ("currency", TString);
    ("date", TString); ("vendor", TString); ("description", TString);
    ("guest_count", TNumberOrNull); ("is_group_expense", TBoolean);
    ("confidence", TString); ("is_non_uk_eu", TBoolean) ].

Definition MAX_RETRIES : nat := 3.

(** [s.split('T')[0]]: the part of [s] before its first ['T']. *)
Fixpoint split_T_0 (s : string) : string :=
  match s with
  | EmptyString => EmptyString
  | String c rest =>
      if Ascii.eqb c "T" then EmptyString else String c (split_T_0 rest)
  end.

(** The placeholder [emptyParsed] that [processOne] builds once every
    attempt has failed. *)
Definition emptyParsed (now : string) : jsobj :=
  <["expense_type" := VStr "OTHER"]> (
  <["amount" := VNum 0]> (
  <["currency" := VStr "USD"]> (
  <["date" := VStr (split_T_0 now)]> (
  <["vendor" := VStr "Unknown"]> (
  <["description" := VStr "Failed to parse after 3 attempts - please fill manually"]> (
  <["guest_count" := VNull]> (
  <["is_group_expense" := VBool false]> (
  <["confidence" := VStr "low"]> ∅)))))))).

(** [lastError?.message] inside a template string. *)
Definition message_of (lastError : option string) : string :=
  match lastError with
  | Some m => m
  | None => "undefined"
  end.

(** [{ ...r, parsed: emptyParsed, processing: false,
      error: `Failed after ${MAX_RETRIES} attempts: ${lastError?.message}` }] *)
Definition parse_exhausted (placeholder : jsobj) (lastError : option string)
    (r : Receipt jsobj) : Receipt jsobj :=
  mkReceipt (id r) (filename r) (image_base64 r) (thumbnail_base64 r)
    (Some placeholder) (approved r) false
    (Some ("Failed after " +:+ pretty MAX_RETRIES +:+ " attempts: "
             +:+ message_of lastError))
    (file r).

(** [`HTTP ${res.status}`] *)
Definition http_message (status : nat) : string := "HTTP " +:+ pretty status.

(** How the retry loop of [processOne] is left. *)
Inductive LoopExit : Type :=
| Succeeded                              (* the [return] after a success *)
| Exhausted (lastError : option string). (* the loop condition failed *)


Section Batch.
Variable env : Env jsobj.

(** The body of the [try] in [processOne], up to [res.json()]. *)
Definition fetch_parse (receipt : Receipt jsobj) (idx attempt : nat)
    (model : string) : M jsobj (ParseData jsobj) :=
  emit (EvParseRequest idx attempt (file receipt) image model);;
  match parse_response env idx attempt with
  | NetworkFailure m => throw m
  | HttpResponse status body =>
      if negb (ok status) then throw (http_message status)
      else match body with
           | inl m => throw m
           | inr data => mret data
           end
  end.

(** [for (let attempt = 1; attempt <= MAX_RETRIES; attempt++)], over the
    attempt numbers still to come. *)
Fixpoint attempt_loop (receipt : Receipt jsobj) (idx : nat) (model : string)
    (attempts : list nat) (lastError : option string) : M jsobj LoopExit :=
  match attempts with
  | [] => mret (Exhausted lastError)
  | attempt :: rest =>
      r ← try_ (data ← fetch_parse receipt idx attempt model;
                setReceipts (map_at idx (parse_succeeded data)));
      match r with
      | Returned _ => mret Succeeded
      | Thrown message =>
          emit (EvLog idx attempt message);;
          (if (attempt <? MAX_RETRIES)%nat then emit (EvSleep 1000) else mret tt);;
          attempt_loop receipt idx model rest (Some message)
      end
  end.

Definition processOne (receipt : Receipt jsobj) (idx : nat) (model : string)
  : M jsobj unit :=
  exit ← attempt_loop receipt idx model (seq 1 MAX_RETRIES) None;
  match exit with
  | Succeeded => mret tt
  | Exhausted lastError =>
      setReceipts (map_at idx (parse_exhausted (emptyParsed (now_iso env)) lastError))
  end.

(** The promises of [toProcess.map(async ...)], settled one after the other
    in submission order; [completed] is the counter they share.  Each
    promise writes to its own receipt only, so another order of settling
    leaves the same receipts.  The event list holds the events of each call
    in the call's own order, call after call; in the browser the first
    requests of all the calls go out before any answer is handled, and the
    later events of different calls interleave as the answers arrive
    ([Ui.step] has the calls in flight, one answer at a time).  What is
    said of the events of a batch is therefore said call by call. *)
Fixpoint settle_all (toProcess : list (Receipt jsobj * nat)) (model : string)
    (total completed : nat) : M jsobj nat :=
  match toProcess with
  | [] => mret completed
  | (receipt, idx) :: rest =>
      processOne receipt idx model;;
      setProcessingProgress (S completed, total);;
      settle_all rest model total (S completed)
  end.

(** [receipts.map((r, idx) => ({ receipt: r, idx }))
      .filter(({ receipt }) => !receipt.parsed && receipt.file)] *)
Definition toProcess_of (rs : list (Receipt jsobj)) : list (Receipt jsobj * nat) :=
  List.filter (fun p => to_process (fst p)) (imap (fun idx r => (r, idx)) rs).

Definition processAllReceipts : M jsobj unit :=
  st ← getState;
  setProcessing true;;
  let toProcess := toProcess_of (receipts st) in
  setProcessingProgress (0, length toProcess);;
  setReceipts (imap (fun idx r =>
    if existsb (fun p => Nat.eqb (snd p) idx) toProcess
    then mark_processing r else r));;
  settle_all toProcess (selectedModel st) (length toProcess) 0;;
  setProcessing false;;
  setAppState review.

(** *** What a batch comes to, as functions of the answers *)

(** The outcome of the [attempt]-th extraction call for receipt [idx]. *)
Definition attempt_outcome (idx attempt : nat) : Outcome (ParseData jsobj) :=
  response_outcome http_message (parse_response env idx attempt).

(** What the retry loop comes to: the data of the first attempt that
    succeeds, or the last error once the attempts are used up. *)
Fixpoint loop_result (idx : nat) (attempts : list nat) (lastError : option string)
  : ParseData jsobj + option string :=
  match attempts with
  | [] => inr lastError
  | attempt :: rest =>
      match attempt_outcome idx attempt with
      | Returned data => inl data
      | Thrown m => loop_result idx rest (Some m)
      end
  end.

(** The requests, log lines and pauses of the retry loop. *)
Fixpoint loop_events (receipt : Receipt jsobj) (idx : nat) (model : string)
    (attempts : list nat) : list (Event jsobj) :=
  match attempts with
  | [] => []
  | attempt :: rest =>
      EvParseRequest idx attempt (file receipt) image model ::
      match attempt_outcome idx attempt with
      | Returned _ => []
      | Thrown m =>
          EvLog idx attempt m ::
          ((if (attempt <? MAX_RETRIES)%nat then [EvSleep 1000] else [])
             ++ loop_events receipt idx model rest)%list
      end
  end.

(** The single update [processOne] makes to its receipt. *)
Definition final_update (idx : nat) : Receipt jsobj -> Receipt jsobj :=
  match loop_result idx (seq 1 MAX_RETRIES) None with
  | inl data => parse_succeeded data
  | inr lastError => parse_exhausted (emptyParsed (now_iso env)) lastError
  end.

(** The events of a batch: those of each call, in submission order. *)
Definition batch_events (model : string) (toProcess : list (Receipt jsobj * nat))
  : list (Event jsobj) :=
  flat_map (fun p => loop_events (fst p) (snd p) model (seq 1 MAX_RETRIES)) toProcess.

(** The receipts once every call of the batch has settled. *)
Definition settled (toProcess : list (Receipt jsobj * nat)) (rs : list (Receipt jsobj))
  : list (Receipt jsobj) :=
  foldl (fun rs p => map_at (snd p) (final_update (snd p)) rs) rs toProcess.

End Batch.

End Page.

(** ** app/page.tsx, first variant: one receipt after the other *)

Module PageV1.
Import Page.

(** [interface ParsedReceipt] of the first variant. *)
Definition ParsedReceipt : schema :=
  [ ("expense_type", TString); ("amount", TNumber); ("currency", TString);
    ("date", TString); ("vendor", TString); ("description", TString);
    ("guest_count", TNumberOrNull); ("is_group_expense", TBoolean);
    ("confidence", TString) ].

Section Sequential.
Context {P : Type}.
Variable env : Env P.

(** The body of the [for] loop of [processAllReceipts], over the receipts
    and indices still to visit; [receipts[i]] is read from the list the
    handler was created with. *)
Fixpoint process_each (snapshot : list (Receipt P * nat)) (model : string)
  : M P unit :=
  match snapshot with
  | [] => mret tt
  | (receipt, i) :: rest =>
      (if truthy (parsed receipt) || negb (truthy (file receipt))
       then mret tt                       (* [continue] *)
       else
         setReceipts (map_at i mark_processing);;
         r ← try_ (
           emit (EvParseRequest i 1 (file receipt) image model);;
           match parse_response env i 1 with
           | NetworkFailure m => throw m
           | HttpResponse status body =>
               if negb (ok status) then throw "Failed to process receipt"
               else match body with
                    | inl m => throw m
                    | inr data => setReceipts (map_at i (parse_succeeded data))
                    end
           end);
         match r with
         | Returned _ => mret tt
         | Thrown message => setReceipts (map_at i (call_failed message))
         end);;
      process_each rest model
  end.

Definition processAllReceipts : M P unit :=
  st ← getState;
  setProcessing true;;
  process_each (imap (fun i r => (r, i)) (receipts st)) (selectedModel st);;
  setProcessing false;;
  setAppState review.

(** The update the first variant makes to a receipt it submits. *)
Definition sequential_update (i : nat) (r : Receipt P) : Receipt P :=
  match response_outcome (fun _ => "Failed to process receipt")
          (parse_response env i 1) with
  | Returned data => parse_succeeded data (mark_processing r)
  | Thrown m => call_failed m (mark_processing r)
  end.

Definition sequential_events (model : string) (snapshot : list (Receipt P * nat))
  : list (Event P) :=
  flat_map (fun p => if to_process (fst p)
                     then [EvParseRequest (snd p) 1 (file (fst p)) image model]
                     else []) snapshot.

Definition sequential_receipts (snapshot : list (Receipt P * nat)) (rs : list (Receipt P))
  : list (Receipt P) :=
  foldl (fun rs p => if to_process (fst p)
                     then map_at (snd p) (sequential_update (snd p)) rs
                     else rs) rs snapshot.

End Sequential.

End PageV1.

(** ** Reading a sectioned record out of the page state *)

Module Sectioned.
Import Page Types.

(** The value of a field of a section in the receipt at [index]. *)
Definition field_of (st : State ParsedReceipt) (index : nat)
    (s : ActiveSection) (field : string) : option jsval :=
  match receipts st !! index with
  | Some r =>
      match parsed r with
      | Some p => get_section (fields p) s !! field
      | None => None
      end
  | None => None
  end.

End Sectioned.

(** ** The header information and its copy in local storage *)

Module Json.

Local Open Scope N_scope.

(** A JavaScript string is a sequence of UTF-16 code units. *)
Abbreviation jsstring := (list N).

Definition code_unit (u : N) : Prop := u < 65536.

(** The code units of an ASCII literal of the source. *)
Definition lit (s : string) : jsstring :=
  List.map N_of_ascii (list_ascii_of_string s).

(** An object whose properties hold strings, in property order.  The
    order is the order of creation, as JavaScript has it for property names
    that are not array indices; names that are ([0], [1], ...), which
    JavaScript lists first and in ascending order, are outside the model:
    no property of a [HeaderInfo] is one. *)
Abbreviation jsonobj := (list (jsstring * jsstring)).

Definition is_leading_surrogate (u : N) : bool := (0xD800 <=? u) && (u <=? 0xDBFF).
Definition is_trailing_surrogate (u : N) : bool := (0xDC00 <=? u) && (u <=? 0xDFFF).

Definition hex_digit (d : N) : N := if d <? 10 then 48 + d else 87 + d.

(** [UnicodeEscape]: a backslash, [u] and four lowercase hexadecimal digits. *)
Definition unicode_escape (u : N) : jsstring :=
  [ 92; 117; hex_digit (u / 4096 mod 16); hex_digit (u / 256 mod 16);
    hex_digit (u / 16 mod 16); hex_digit (u mod 16) ].

(** One code unit that is not part of a surrogate pair, as
    [QuoteJSONString] writes it. *)
Definition quote_unit (u : N) : jsstring :=
  if u =? 8 then [92; 98]            (* \b *)
  else if u =? 9 then [92; 116]      (* \t *)
  else if u =? 10 then [92; 110]     (* \n *)
  else if u =? 12 then [92; 102]     (* \f *)
  else if u =? 13 then [92; 114]     (* \r *)
  else if u =? 34 then [92; 34]      (* backslash, quote *)
  else if u =? 92 then [92; 92]      (* backslash, backslash *)
  else if (u <? 32) || is_leading_surrogate u || is_trailing_surrogate u
       then unicode_escape u
  else [u].

(** The characters [QuoteJSONString] puts between the quotes: a leading
    surrogate followed by a trailing one is a code point of its own and is
    copied; any other surrogate is escaped. *)
Fixpoint quote_body (s : jsstring) : jsstring :=
  match s with
  | [] => []
  | u :: rest =>
      match rest with
      | v :: rest' =>
          if is_leading_surrogate u && is_trailing_surrogate v
          then u :: v :: quote_body rest'
          else (quote_unit u ++ quote_body rest)%list
      | [] => quote_unit u
      end
  end.

Definition quote (s : jsstring) : jsstring := (34 :: quote_body s ++ [34])%list.

Fixpoint stringify_members (o : jsonobj) : jsstring :=
  match o with
  | [] => []
  | (k, v) :: rest =>
      (quote k ++ 58 :: quote v ++
       match rest with
       | [] => []
       | _ :: _ => 44 :: stringify_members rest
       end)%list
  end.

(** [JSON.stringify(o)] for an object of string properties. *)
Definition JSON_stringify (o : jsonobj) : jsstring :=
  (123 :: stringify_members o ++ [125])%list.

Definition hex_value (c : N) : option N :=
  if (48 <=? c) && (c <=? 57) then Some (c - 48)
  else if (97 <=? c) && (c <=? 102) then Some (c - 87)
  else if (65 <=? c) && (c <=? 70) then Some (c - 55)
  else None.

(** The characters of a JSON string after its opening quote, up to and
    including the closing one: the value and the rest of the text. *)
Fixpoint parse_body (text : jsstring) : option (jsstring * jsstring) :=
  match text with
  | [] => None
  | c :: rest =>
      if c =? 34 then Some ([], rest)
      else if c =? 92 then
        match rest with
        | [] => None
        | e :: rest1 =>
            let simple (u : N) :=
              match parse_body rest1 with
              | Some (s, rest') => Some (u :: s, rest')
              | None => None
              end in
            if e =? 34 then simple 34
            else if e =? 92 then simple 92
            else if e =? 47 then simple 47
            else if e =? 98 then simple 8
            else if e =? 102 then simple 12
            else if e =? 110 then simple 10
            else if e =? 114 then simple 13
            else if e =? 116 then simple 9
            else if e =? 117 then
              match rest1 with
              | h3 :: h2 :: h1 :: h0 :: rest2 =>
                  match hex_value h3, hex_value h2, hex_value h1, hex_value h0 with
                  | Some d3, Some d2, Some d1, Some d0 =>
                      match parse_body rest2 with
                      | Some (s, rest') =>
                          Some (((d3 * 16 + d2) * 16 + d1) * 16 + d0 :: s, rest')
                      | None => None
                      end
                  | _, _, _, _ => None
                  end
              | _ => None
              end
            else None
        end
      else if c <? 32 then None
      else
        match parse_body rest with
        | Some (s, rest') => Some (c :: s, rest')
        | None => None
        end
  end.

Definition parse_string (text : jsstring) : option (jsstring * jsstring) :=
  match text with
  | c :: rest => if c =? 34 then parse_body rest else None
  | [] => None
  end.

(** [o[k] = v]: an existing property keeps its place, a new one goes last. *)
Fixpoint set_property (o : jsonobj) (k v : jsstring) : jsonobj :=
  match o with
  | [] => [(k, v)]
  | (k', v') :: rest =>
      if bool_decide (k' = k) then (k, v) :: rest
      else (k', v') :: set_property rest k v
  end.

(** The members of an object after its opening brace; [fuel] bounds the
    number of members read. *)
Fixpoint parse_members (fuel : nat) (text : jsstring) (acc : jsonobj)
  : option jsonobj :=
  match fuel with
  | O => None
  | S fuel =>
      match parse_string text with
      | Some (k, c :: rest) =>
          if c =? 58 then
            match parse_string rest with
            | Some (v, c' :: rest') =>
                if c' =? 44 then parse_members fuel rest' (set_property acc k v)
                else if c' =? 125 then
                  match rest' with
                  | [] => Some (set_property acc k v)
                  | _ :: _ => None
                  end
                else None
            | _ => None
            end
          else None
      | _ => None
      end
  end.

(** [JSON.parse(text)] on the texts that are objects of string properties
    written without white space; [None] stands for a [SyntaxError] and for
    the texts outside this fragment.  The properties of the result are in
    the order of the text, which is JavaScript's order as long as no
    property name is an array index. *)
Definition JSON_parse (text : jsstring) : option jsonobj :=
  match text with
  | c :: rest =>
      if c =? 123 then
        match rest with
        | [c'] => if c' =? 125 then Some [] else None
        | _ => parse_members (length rest) rest []
        end
      else None
  | [] => None
  end.

(** A value of [parse_body] with one more code unit in front. *)
Definition push (u : N) (r : option (jsstring * jsstring))
  : option (jsstring * jsstring) :=
  match r with
  | Some (s, rest) => Some (u :: s, rest)
  | None => None
  end.

(** The strings of an object, keys and values, are sequences of 16-bit
    code units. *)
Definition object_strings (o : jsonobj) : Prop :=
  Forall (fun kv => Forall code_unit (fst kv) /\ Forall code_unit (snd kv)) o.

End Json.

(** [interface HeaderInfo] of [page.tsx], the initial state of the
    [headerInfo] cell and the effect that saves it. *)
Module Header.
Import Json.

Record HeaderInfo : Type := mkHeaderInfo {
  name : jsstring;
  cid : jsstring;
  dob : jsstring;
  address : jsstring;
  postcode : jsstring;
  bank_name : jsstring;
  bank_branch : jsstring;
  sort_code : jsstring;
  account_number : jsstring;
  foreign_currency : jsstring;
  exchange_rate : jsstring
}.

(** The object a [HeaderInfo] is at run time. *)
Definition to_object (h : HeaderInfo) : jsonobj :=
  [ (lit "name", name h); (lit "cid", cid h); (lit "dob", dob h);
    (lit "address", address h); (lit "postcode", postcode h);
    (lit "bank_name", bank_name h); (lit "bank_branch", bank_branch h);
    (lit "sort_code", sort_code h); (lit "account_number", account_number h);
    (lit "foreign_currency", foreign_currency h);
    (lit "exchange_rate", exchange_rate h) ].

Definition well_formed (h : HeaderInfo) : Prop :=
  Forall (fun kv => Forall code_unit (snd kv)) (to_object h).

(** [window.localStorage]: the items by key. *)
Abbreviation Storage := (gmap string jsstring).

Definition defaultHeaderInfo : HeaderInfo :=
  {| name := []; cid := []; dob := []; address := []; postcode := [];
     bank_name := []; bank_branch := []; sort_code := []; account_number := [];
     foreign_currency := lit "USD"; exchange_rate := lit "0.79" |}.

(** The initialiser of [useState<HeaderInfo>]: [window_defined] tells the
    browser from the server-side render.  [None]: [JSON.parse] threw. *)
Definition initialHeaderInfo (window_defined : bool) (localStorage : Storage)
  : option jsonobj :=
  if window_defined then
    match localStorage !! "expenseHeaderInfo" with
    | Some (c :: saved) => JSON_parse (c :: saved)   (* [if (saved)] *)
    | Some [] | None => Some (to_object defaultHeaderInfo)
    end
  else Some (to_object defaultHeaderInfo).

(** The effect [localStorage.setItem('expenseHeaderInfo',
    JSON.stringify(headerInfo))]. *)
Definition saveHeaderInfo (headerInfo : jsonobj) (localStorage : Storage) : Storage :=
  <["expenseHeaderInfo" := JSON_stringify headerInfo]> localStorage.

End Header.

(** ** The screens as a transition system

    The handlers above run to completion in one piece.  On the screen a call
    is issued by one event and settled by a later one, and the user can act
    in between; this module gives [page.tsx] with the flat
    [components/ReceiptReview.tsx] that reading.  The progress counter,
    which no handler reads, and what the requests carry are left out. *)

Module Ui.
Import Page.

(** A request awaiting its answer: [processOne] in its [attempt]-th round
    for receipt [idx] (the pause before the round included), or
    [handleReparse] for receipt [index]. *)
Inductive Call : Type :=
| ParseCall (idx attempt : nat) (lastError : option string)
| ReparseCall (index : nat).

(** The index of the receipt the call will write to when it settles. *)
Definition target (c : Call) : nat :=
  match c with
  | ParseCall idx _ _ => idx
  | ReparseCall index => index
  end.

Definition is_parse_call (c : Call) : bool :=
  match c with ParseCall _ _ _ => true | ReparseCall _ => false end.

Record Ui : Type := mkUi {
  page : State jsobj;
  userInput : string;         (* state of [ReceiptReview] *)
  parseMode : ParseMode;      (* state of [ReceiptReview] *)
  in_flight : list Call
}.

Definition with_page (f : State jsobj -> State jsobj) (ui : Ui) : Ui :=
  mkUi (f (page ui)) (userInput ui) (parseMode ui) (in_flight ui).

(** The text of the input is held as its UTF-8 bytes.
    [String.prototype.trim] strips the WhiteSpace and LineTerminator code
    points of ECMAScript: U+0009 to U+000D and U+0020, of one byte each;
    U+00A0, of two bytes; U+1680, U+2000 to U+200A, U+2028, U+2029, U+202F,
    U+205F, U+3000 and U+FEFF, of three bytes each. *)
Definition is_white_space (c : ascii) : bool :=
  match N_of_ascii c with
  | 9 | 10 | 11 | 12 | 13 | 32 => true
  | _ => false
  end%N.

Definition is_white_space2 (c0 c1 : ascii) : bool :=
  match N_of_ascii c0, N_of_ascii c1 with
  | 194, 160 => true                                   (* U+00A0 *)
  | _, _ => false
  end%N.

Definition is_white_space3 (c0 c1 c2 : ascii) : bool :=
  let b2 := N_of_ascii c2 in
  match N_of_ascii c0, N_of_ascii c1 with
  | 225, 154 => b2 =? 128                              (* U+1680 *)
  | 226, 128 =>
      (128 <=? b2) && (b2 <=? 138)                     (* U+2000 to U+200A *)
      || (b2 =? 168) || (b2 =? 169)                    (* U+2028, U+2029 *)
      || (b2 =? 175)                                   (* U+202F *)
  | 226, 129 => b2 =? 159                              (* U+205F *)
  | 227, 128 => b2 =? 128                              (* U+3000 *)
  | 239, 187 => b2 =? 191                              (* U+FEFF *)
  | _, _ => false
  end%N.

(** [!s.trim()]: nothing but white space and line terminators. *)
Fixpoint trim_is_empty (s : string) : bool :=
  match s with
  | EmptyString => true
  | String c0 rest0 =>
      if is_white_space c0 then trim_is_empty rest0
      else
        match rest0 with
        | String c1 rest1 =>
            if is_white_space2 c0 c1 then trim_is_empty rest1
            else
              match rest1 with
              | String c2 rest2 => is_white_space3 c0 c1 c2 && trim_is_empty rest2
              | EmptyString => false
              end
        | EmptyString => false
        end
  end.

(** A string given by its bytes. *)
Definition bytes (l : list N) : string :=
  string_of_list_ascii (List.map ascii_of_N l).

(** The code points [trim] strips, each in UTF-8. *)
Definition white_space : list string :=
  [ bytes [9]; bytes [10]; bytes [11]; bytes [12]; bytes [13]; bytes [32];
    bytes [194; 160];
    bytes [225; 154; 128];
    bytes [226; 128; 128]; bytes [226; 128; 129]; bytes [226; 128; 130];
    bytes [226; 128; 131]; bytes [226; 128; 132]; bytes [226; 128; 133];
    bytes [226; 128; 134]; bytes [226; 128; 135]; bytes [226; 128; 136];
    bytes [226; 128; 137]; bytes [226; 128; 138];
    bytes [226; 128; 168]; bytes [226; 128; 169]; bytes [226; 128; 175];
    bytes [226; 129; 159];
    bytes [227; 128; 128];
    bytes [239; 187; 191] ]%N.

(** The receipt [ReceiptReview] shows: [receipts[currentIndex]], when the
    review screen is up. *)
Definition displayed (ui : Ui) : option (Receipt jsobj) :=
  match appState (page ui) with
  | review => receipts (page ui) !! currentIndex (page ui)
  | upload => None
  end.

(** [disabled={!userInput.trim() || receipt.processing}] on the re-parse
    button. *)
Definition reparse_disabled {P} (userInput : string) (receipt : Receipt P) : bool :=
  trim_is_empty userInput || processing receipt.

(** [disabled={!receipt.parsed || receipt.processing}] on the approve button. *)
Definition approve_disabled {P} (receipt : Receipt P) : bool :=
  negb (truthy (parsed receipt)) || processing receipt.

(** The sectioned [ReceiptReview] renders its chat input and Apply button
    under [parsed && !receipt.processing]; a click on Apply (when not
    disabled) and the Enter key in the input both call the component's
    [handleReparse], which asks for [userInput.trim()]. *)
Definition chat_rendered {P} (receipt : Receipt P) : bool :=
  truthy (parsed receipt) && negb (processing receipt).

Definition apply_click_reparses {P} (userInput : string) (receipt : Receipt P) : bool :=
  chat_rendered receipt && negb (reparse_disabled userInput receipt)
    && negb (trim_is_empty userInput).

Definition enter_key_reparses {P} (userInput : string) (receipt : Receipt P) : bool :=
  chat_rendered receipt && negb (trim_is_empty userInput).

(** The receipts [handleFilesAdded] appends; the identifiers, random in the
    source, come with the event. *)
Definition new_receipt (f : string * File) : Receipt jsobj :=
  mkReceipt (fst f) (file_name (snd f)) "" "" None false false None (Some (snd f)).

(** [handleFilesAdded(files)]: [setReceipts((prev) => [...prev,
    ...newReceipts])]. *)
Definition handleFilesAdded (files : list (string * File))
    (prev : list (Receipt jsobj)) : list (Receipt jsobj) :=
  (prev ++ List.map new_receipt files)%list.

Inductive Action : Type :=
| FilesAdded (files : list (string * File))
| ClearAll
| ProcessAll
| BackToUpload
| TypeInput (input : string)
| SelectMode (mode : ParseMode)
| ClickReparse
| Approve
| SelectReceipt (i : nat)
| SettleParse (k : nat) (resp : Response (ParseData jsobj)) (now : string)
| SettleReparse (k : nat) (resp : Response (ReparseData jsobj)).

(** The end of [processAllReceipts], once [Promise.all] has resolved: no
    extraction call is in flight any more. *)
Definition finish_batch (ui : Ui) : Ui :=
  if existsb is_parse_call (in_flight ui) then ui
  else with_page (fun st => with_appState review (with_processing false st)) ui.

(** One event: [None] when the screen does not offer it. *)
Definition step (ui : Ui) (a : Action) : option Ui :=
  let st := page ui in
  match a with
  | FilesAdded files =>
      match appState st with
      | upload =>
          Some (with_page (with_receipts (handleFilesAdded files)) ui)
      | review => None
      end
  | ClearAll =>
      match appState st, receipts st with
      | upload, _ :: _ => Some (with_page (with_receipts (fun _ => [])) ui)
      | _, _ => None
      end
  | ProcessAll =>
      match appState st, receipts st, st_processing st with
      | upload, _ :: _, false =>
          let toProcess := toProcess_of (receipts st) in
          let st1 :=
            with_receipts
              (imap (fun idx r =>
                 if existsb (fun p => Nat.eqb (snd p) idx) toProcess
                 then mark_processing r else r))
              (with_processing true st) in
          Some (finish_batch
                  (mkUi st1 (userInput ui) (parseMode ui)
                     (in_flight ui
                        ++ List.map (fun p => ParseCall (snd p) 1 None) toProcess)%list))
      | _, _, _ => None
      end
  | BackToUpload =>
      match appState st with
      | review => Some (mkUi (with_appState upload st) "" image (in_flight ui))
      | upload => None
      end
  | TypeInput input =>
      match displayed ui with
      | Some _ => Some (mkUi st input (parseMode ui) (in_flight ui))
      | None => None
      end
  | SelectMode mode =>
      match displayed ui with
      | Some _ => Some (mkUi st (userInput ui) mode (in_flight ui))
      | None => None
      end
  | ClickReparse =>
      match displayed ui with
      | Some receipt =>
          if reparse_disabled (userInput ui) receipt then None
          else if trim_is_empty (userInput ui) then None
          else
            Some (mkUi (with_receipts (map_at (currentIndex st) mark_processing) st)
                    (userInput ui) (parseMode ui)
                    (in_flight ui ++ [ReparseCall (currentIndex st)])%list)
      | None => None
      end
  | Approve =>
      match displayed ui with
      | Some receipt =>
          if approve_disabled receipt then None
          else
            let st1 := with_receipts (map_at (currentIndex st) mark_approved) st in
            Some (with_page
                    (fun _ =>
                       if (currentIndex st <? length (receipts st) - 1)%nat
                       then with_currentIndex (currentIndex st + 1) st1 else st1) ui)
      | None => None
      end
  | SelectReceipt i =>
      match displayed ui with
      | Some _ =>
          if (i <? length (receipts st))%nat
          then Some (with_page (with_currentIndex i) ui) else None
      | None => None
      end
  | SettleParse k resp now =>
      match in_flight ui !! k with
      | Some (ParseCall idx attempt lastError) =>
          match response_outcome http_message resp with
          | Returned data =>
              Some (finish_batch
                      (mkUi (with_receipts (map_at idx (parse_succeeded data)) st)
                         (userInput ui) (parseMode ui) (delete k (in_flight ui))))
          | Thrown m =>
              if (attempt <? MAX_RETRIES)%nat
              then Some (mkUi st (userInput ui) (parseMode ui)
                           (<[k := ParseCall idx (S attempt) (Some m)]> (in_flight ui)))
              else
                Some (finish_batch
                        (mkUi (with_receipts
                                 (map_at idx (parse_exhausted (emptyParsed now) (Some m))) st)
                           (userInput ui) (parseMode ui) (delete k (in_flight ui))))
          end
      | _ => None
      end
  | SettleReparse k resp =>
      match in_flight ui !! k with
      | Some (ReparseCall index) =>
          let update :=
            match response_outcome (fun _ => "Failed to reparse") resp with
            | Returned data => reparse_succeeded data
            | Thrown m => call_failed m
            end in
          Some (mkUi (with_receipts (map_at index update) st)
                  (userInput ui) (parseMode ui) (delete k (in_flight ui)))
      | _ => None
      end
  end.

Fixpoint run (ui : Ui) (trace : list Action) : option Ui :=
  match trace with
  | [] => Some ui
  | a :: rest =>
      match step ui a with
      | Some ui' => run ui' rest
      | None => None
      end
  end.

(** The screen as [Home] first renders it. *)
Definition initial (model : string) : Ui :=
  mkUi (mkState [] upload 0 model false (0, 0)) "" image [].

(** No two calls in flight write to the same receipt. *)
Definition single_flight (ui : Ui) : Prop := NoDup (target <$> in_flight ui).

(** "Process All" is only ever pressed while no re-parse call is in flight. *)
Fixpoint batches_start_idle (ui : Ui) (trace : list Action) : bool :=
  match trace with
  | [] => true
  | a :: rest =>
      match a with
      | ProcessAll => forallb is_parse_call (in_flight ui)
      | _ => true
      end
      && match step ui a with
         | Some ui' => batches_start_idle ui' rest
         | None => true
         end
  end.

(** What holds of every screen reached while batches start idle: the calls
    in flight have distinct targets; extraction calls are in flight only
    during a batch, on the upload screen, and then no other call is; and on
    the review screen the receipt of every call in flight is flagged. *)
Definition Inv (ui : Ui) : Prop :=
  NoDup (target <$> in_flight ui) /\
  (existsb is_parse_call (in_flight ui) = true ->
     st_processing (page ui) = true /\ appState (page ui) = upload /\
     forallb is_parse_call (in_flight ui) = true) /\
  (appState (page ui) = review ->
     forall c, c ∈ in_flight ui ->
       exists r, receipts (page ui) !! target c = Some r /\ processing r = true).

End Ui.

(** ** Reading the events of a run *)

Module Trace.
Import Page.

(** The attempt numbers of the extraction requests sent for receipt [idx]. *)
Definition requested_attempts {P} (idx : nat) (evs : list (Event P)) : list nat :=
  flat_map (fun e =>
              match e with
              | EvParseRequest i attempt _ _ _ =>
                  if Nat.eqb i idx then [attempt] else []
              | _ => []
              end) evs.

(** The pauses taken, in milliseconds. *)
Definition pauses {P} (evs : list (Event P)) : list nat :=
  flat_map (fun e => match e with EvSleep ms => [ms] | _ => [] end) evs.

(** The cells other than [receipts] and the progress counter are the same
    in both states. *)
Definition same_screen {P} (st st' : State P) : Prop :=
  appState st' = appState st /\ currentIndex st' = currentIndex st /\
  selectedModel st' = selectedModel st /\ st_processing st' = st_processing st.

End Trace.

(** ** app/page.tsx: the request for the archive *)

Module Generate.
Import Page Json.

Section Payload.
Context {P : Type}.

(** One element of [receipts] in the body of the request. *)
Record Entry : Type := mkEntry {
  entry_filename : string;
  entry_image_base64 : string;
  entry_parsed : option P;
  entry_approved : bool
}.

(** [{ filename: r.filename, image_base64: r.image_base64, parsed: r.parsed,
      approved: r.approved }] *)
Definition entry_of (r : Receipt P) : Entry :=
  mkEntry (filename r) (image_base64 r) (parsed r) (approved r).

(** [receipts.filter((r) => r.approved && r.parsed).map(...)] in
    [handleGenerate]. *)
Definition request_receipts (rs : list (Receipt P)) : list Entry :=
  List.map entry_of (List.filter (fun r => approved r && truthy (parsed r)) rs).

(** [const approvedCount = receipts.filter((r) => r.approved).length] *)
Definition approvedCount (rs : list (Receipt P)) : nat :=
  length (List.filter approved rs).

(** [disabled={generating || approvedCount === 0}] on the generate button. *)
Definition generate_disabled (generating : bool) (rs : list (Receipt P)) : bool :=
  generating || Nat.eqb (approvedCount rs) 0.

End Payload.

(** [s.split(sep)] for a separator of one code unit: the pieces between
    the separators, one more than there are separators. *)
Fixpoint split (sep : N) (s : jsstring) : list jsstring :=
  match s with
  | [] => [[]]
  | u :: rest =>
      if N.eqb u sep then [] :: split sep rest
      else match split sep rest with
           | piece :: pieces => (u :: piece) :: pieces
           | [] => [[u]]
           end
  end.

(** [headerInfo.name.split(' ').pop() || 'Expense'] *)
Definition stem (name : jsstring) : jsstring :=
  match last (split 32 name) with
  | Some (u :: word) => u :: word
  | Some [] | None => lit "Expense"
  end.

(** [a.download = `${...}_expenses.zip`] *)
Definition download (name : jsstring) : jsstring :=
  (stem name ++ lit "_expenses.zip")%list.

End Generate.

(** ** The header form and the first variant's header *)

Module HeaderForm.
Import Json.

(** [o[k]]: [None] for [undefined]. *)
Fixpoint get_property (o : jsonobj) (k : jsstring) : option jsstring :=
  match o with
  | [] => None
  | (k', v) :: rest => if bool_decide (k' = k) then Some v else get_property rest k
  end.

(** [update(field, value)] of [HeaderForm]: the object handed to
    [onChange], [{ ...headerInfo, [field]: value }]. *)
Definition update (headerInfo : jsonobj) (field value : jsstring) : jsonobj :=
  set_property headerInfo field value.

End HeaderForm.

Module HeaderV1.
Import Json.

(** [interface HeaderInfo] of the first variant of [page.tsx]. *)
Record HeaderInfo : Type := mkHeaderInfo {
  name : jsstring;
  cid : jsstring;
  dob : jsstring;
  address : jsstring;
  postcode : jsstring;
  bank_name : jsstring;
  bank_branch : jsstring;
  sort_code : jsstring;
  account_number : jsstring
}.

Definition to_object (h : HeaderInfo) : jsonobj :=
  [ (lit "name", name h); (lit "cid", cid h); (lit "dob", dob h);
    (lit "address", address h); (lit "postcode", postcode h);
    (lit "bank_name", bank_name h); (lit "bank_branch", bank_branch h);
    (lit "sort_code", sort_code h); (lit "account_number", account_number h) ].

Definition well_formed (h : HeaderInfo) : Prop :=
  Forall (fun kv => Forall code_unit (snd kv)) (to_object h).

End HeaderV1.

(** ** components/ReceiptReview.tsx (sectioned variant): the inputs *)

Module Field.

(** What [Field] hands to [onChange]: for a number input
    [parseFloat(e.target.value) || 0], given the value of [parseFloat]; for
    a text input or a select [e.target.value]; for a checkbox
    [e.target.checked]. *)
Definition number_value (parseFloat_value : float) : jsval :=
  VNum (if PrimFloat.is_nan parseFloat_value || PrimFloat.eqb parseFloat_value 0
        then 0%float else parseFloat_value).

Definition text_value (value : string) : jsval := VStr value.

Definition checkbox_value (checked : bool) : jsval := VBool checked.

End Field.

(** ** What every screen keeps *)

Module UiInv.
Import Page Ui.

Definition attempt_of (c : Call) : nat :=
  match c with
  | ParseCall _ attempt _ => attempt
  | ReparseCall _ => 1
  end.

(** The extraction calls among the calls in flight. *)
Definition parse_calls (l : list Call) : list Call := List.filter is_parse_call l.

(** The batch flag is set exactly while an extraction call is in flight;
    the upload screen is up as long as one is; the extraction calls in
    flight are for different receipts; and each is in a round from 1 to
    [MAX_RETRIES]. *)
Definition BatchInv (ui : Ui) : Prop :=
  st_processing (page ui) = existsb is_parse_call (in_flight ui) /\
  (existsb is_parse_call (in_flight ui) = true -> appState (page ui) = upload) /\
  NoDup (target <$> parse_calls (in_flight ui)) /\
  Forall (fun c => 1 <= attempt_of c <= MAX_RETRIES) (in_flight ui).

(** The receipt at [i] is the same upload in both lists, and approved in the
    second if it was in the first. *)
Definition same_upload (rs rs' : list (Receipt jsobj)) (i : nat) : Prop :=
  forall r, rs !! i = Some r ->
    exists r', rs' !! i = Some r' /\
      id r' = id r /\ filename r' = filename r /\ file r' = file r /\
      (approved r = true -> approved r' = true).

(** [onIndexChange(Math.max(0, currentIndex - 1))] and
    [onIndexChange(Math.min(receipts.length - 1, currentIndex + 1))] of the
    Previous and Next buttons.  The buttons are rendered only below a
    displayed receipt, so [length] is at least 1 where they are used. *)
Definition previous_index (currentIndex : nat) : nat := Nat.max 0 (currentIndex - 1).

Definition next_index (length currentIndex : nat) : nat :=
  Nat.min (length - 1) (currentIndex + 1).

(** No event of the trace is a click on Clear All. *)
Definition keeps_uploads (trace : list Action) : bool :=
  forallb (fun a => match a with ClearAll => false | _ => true end) trace.

End UiInv.

(** ** Concrete sessions

    The inputs at which the statements below are exercised. *)

Module Scenarios.
Import Types Page.

Definition receipt_png : File := mkFile "receipt.png" "image/png".
Definition taxi_jpg : File := mkFile "taxi.jpg" "image/jpeg".

(** *** A server that is down *)

Definition server_down : Env jsobj :=
  mkEnv (fun _ _ => NetworkFailure "Failed to fetch")
        (fun _ _ _ _ => NetworkFailure "Failed to fetch")
        "2025-01-10T09:30:00.000Z".

Definition fresh_upload : State jsobj :=
  mkState
    [ mkReceipt "1736501400000-k3f9x2m1q" "receipt.png" "" "" None false false None
        (Some receipt_png) ]
    upload 0 "qwen/qwen3-vl-235b-a22b-instruct" false (0, 0).

Definition lunch_flat : jsobj :=
  <["expense_type" := VStr "HOSPITALITY"]> (<["vendor" := VStr "Monzu"]> ∅).

Definition reviewed_upload : State jsobj :=
  mkState
    [ mkReceipt "1736501400000-k3f9x2m1q" "receipt.png" "aW1n" "dGh1" (Some lunch_flat)
        true false None (Some receipt_png) ]
    review 0 "qwen/qwen3-vl-235b-a22b-instruct" false (1, 1).

(** *** A re-parse that answers with a record of its own *)

Definition with_guest (p : Types.ParsedReceipt) (guest description : jsval) : Types.ParsedReceipt :=
  {| active_section := active_section p;
     confidence := confidence p;
     raw_description := raw_description p;
     fields :=
       set_section
         (set_section (fields p) hospitality
            (<["principal_guest" := guest]> (get_section (fields p) hospitality)))
         other
         (<["description" := description]> (get_section (fields p) other)) |}.

(** The record before the correction: the user had typed a guest into the
    hospitality section; the active section is [other]. *)
Definition prior_record : Types.ParsedReceipt :=
  with_guest createEmptyParsedReceipt (VStr "Dr. Smith") (VStr "Lunch").

(** The record the server sends back for "the description is Dinner": the
    [other] section corrected, the hospitality section empty. *)
Definition reply_record : Types.ParsedReceipt :=
  with_guest createEmptyParsedReceipt VNull (VStr "Dinner").

Definition refining_server : Env Types.ParsedReceipt :=
  mkEnv (fun _ _ => NetworkFailure "unused")
        (fun _ _ _ _ => HttpResponse 200 (inr (mkReparseData (Some reply_record))))
        "2025-01-10T09:30:00.000Z".

Definition sectioned_review : State Types.ParsedReceipt :=
  mkState
    [ mkReceipt "1736501400000-k3f9x2m1q" "receipt.png" "aW1n" "dGh1" (Some prior_record)
        false false None (Some receipt_png) ]
    review 0 "qwen/qwen3-vl-235b-a22b-instruct" false (1, 1).

(** *** A header with characters that JSON escapes *)

Definition jane : Header.HeaderInfo :=
  Header.mkHeaderInfo
    (Json.lit "Jane Doe")
    (Json.lit "01234567")
    (Json.lit "1990-04-01")
    [49; 48; 32; 34; 66; 34; 32; 82; 111; 97; 100; 10; 76; 111; 110; 100; 111; 110]%N
    (Json.lit "SW7 2AZ")
    [67; 114; 233; 100; 105; 116; 32; 92; 32; 0xD83C; 0xDFE6; 32; 0xD800]%N
    (Json.lit "Kensington")
    (Json.lit "12-34-56")
    (Json.lit "12345678")
    (Json.lit "USD")
    (Json.lit "0.79").

(** *** Two calls for one receipt *)

Definition parse_ok : Response (ParseData jsobj) :=
  HttpResponse 200 (inr (mkParseData "aW1n" "dGh1" (Some lunch_flat))).

(** A file dropped while the first batch runs stays unparsed; on the review
    screen the user describes it and presses Re-parse, goes back and
    presses Process All. *)
Definition overlapping_session : list Ui.Action :=
  [ Ui.FilesAdded [("1736501400000-k3f9x2m1q", receipt_png)];
    Ui.ProcessAll;
    Ui.FilesAdded [("1736501460000-p0d8w7c5z", taxi_jpg)];
    Ui.SettleParse 0 parse_ok "2025-01-10T09:31:00.000Z";
    Ui.SelectReceipt 1;
    Ui.TypeInput "Taxi to the airport, 42 GBP";
    Ui.ClickReparse;
    Ui.BackToUpload;
    Ui.ProcessAll ].

(** The same session with the answer to the re-parse awaited before going
    back. *)
Definition patient_session : list Ui.Action :=
  [ Ui.FilesAdded [("1736501400000-k3f9x2m1q", receipt_png)];
    Ui.ProcessAll;
    Ui.FilesAdded [("1736501460000-p0d8w7c5z", taxi_jpg)];
    Ui.SettleParse 0 parse_ok "2025-01-10T09:31:00.000Z";
    Ui.SelectReceipt 1;
    Ui.TypeInput "Taxi to the airport, 42 GBP";
    Ui.ClickReparse;
    Ui.SettleReparse 0 (NetworkFailure "Failed to fetch");
    Ui.BackToUpload;
    Ui.ProcessAll ].

(** *** A server that answers the second request *)

Definition flaky_server : Env jsobj :=
  mkEnv (fun _ attempt =>
           if Nat.eqb attempt 1 then HttpResponse 503 (inl "Service Unavailable")
           else parse_ok)
        (fun _ _ _ _ => NetworkFailure "Failed to fetch")
        "2025-01-10T09:30:00.000Z".

Definition steady_server : Env jsobj :=
  mkEnv (fun _ _ => parse_ok)
        (fun _ _ _ _ => NetworkFailure "Failed to fetch")
        "2025-01-10T09:30:00.000Z".

(** The review screen on an approved receipt, a correction typed in; the
    user presses Re-parse and the server answers without a record. *)
Definition approved_review : Ui.Ui :=
  Ui.mkUi reviewed_upload "split three ways" image [].

Definition empty_reparse : list Ui.Action :=
  [ Ui.ClickReparse; Ui.SettleReparse 0 (HttpResponse 200 (inr (mkReparseData None))) ].

(** Two uploads waiting for the batch. *)
Definition two_uploads : State jsobj :=
  mkState
    [ mkReceipt "1736501400000-k3f9x2m1q" "receipt.png" "" "" None false false None
        (Some receipt_png);
      mkReceipt "1736501460000-p0d8w7c5z" "taxi.jpg" "" "" None false false None
        (Some taxi_jpg) ]
    upload 0 "qwen/qwen3-vl-235b-a22b-instruct" false (0, 0).

(** A header saved by the first variant of the page. *)
Definition jane_v1 : HeaderV1.HeaderInfo :=
  HeaderV1.mkHeaderInfo
    (Json.lit "Jane Doe") (Json.lit "01234567") (Json.lit "1990-04-01")
    (Json.lit "10 Exhibition Road") (Json.lit "SW7 2AZ") (Json.lit "Barclays")
    (Json.lit "Kensington") (Json.lit "20-00-00") (Json.lit "12345678").

Definition uploaded_receipt : Receipt jsobj :=
  mkReceipt "1736501400000-k3f9x2m1q" "receipt.png" "" "" None false false None
    (Some receipt_png).

End Scenarios.

(** ** Properties of the orchestrator *)

Module PageProps.
Import Page.

Section Generic.
Context {P : Type}.
Implicit Types (st : State P) (r : Receipt P) (rs : list (Receipt P)).

Lemma map_at_lookup idx (f : Receipt P -> Receipt P) rs i :
  map_at idx f rs !! i = if decide (i = idx) then f <$> rs !! i else rs !! i.
Proof.
  unfold map_at. rewrite list_lookup_imap.
  destruct (decide (i = idx)); destruct (rs !! i); reflexivity.
Qed.

Lemma map_at_lookup_eq idx (f : Receipt P -> Receipt P) rs :
  map_at idx f rs !! idx = f <$> rs !! idx.
Proof. rewrite map_at_lookup. destruct (decide (idx = idx)); congruence. Qed.

Lemma map_at_lookup_ne idx (f : Receipt P -> Receipt P) rs i :
  i <> idx -> map_at idx f rs !! i = rs !! i.
Proof. intros H. rewrite map_at_lookup. destruct (decide (i = idx)); congruence. Qed.

Lemma map_at_length idx (f : Receipt P -> Receipt P) rs :
  length (map_at idx f rs) = length rs.
Proof. unfold map_at. apply length_imap. Qed.

(** Updates of different receipts commute: the order in which the calls of
    a batch settle does not show in the list. *)
Lemma map_at_comm i j (f g : Receipt P -> Receipt P) rs :
  i <> j -> map_at i f (map_at j g rs) = map_at j g (map_at i f rs).
Proof.
  intros Hij. apply list_eq. intros k.
  rewrite !map_at_lookup.
  destruct (decide (k = i)), (decide (k = j)); try congruence.
Qed.

Lemma fails_thrown {D} bad (resp : Response D) :
  fails resp = true -> exists m, response_outcome bad resp = Thrown m.
Proof.
  destruct resp as [m|status [m|d]]; cbn; intros H; eauto.
  - destruct (negb (ok status)); eauto.
  - destruct (negb (ok status)); eauto. discriminate.
Qed.

(** What a run of [handleReparse] on an existing receipt comes to: one
    request, the receipt marked as processing, then the update that the
    outcome of the call selects. *)
Lemma handleReparse_run (env : Env P) st index userText mode r :
  receipts st !! index = Some r ->
  handleReparse env index userText mode st =
    ([EvReparseRequest index mode (selectedModel st) userText (parsed r)],
     with_receipts
       (map_at index
          match response_outcome (fun _ => "Failed to reparse")
                  (reparse_response env mode (selectedModel st) userText (parsed r)) with
          | Returned data => reparse_succeeded data
          | Thrown m => call_failed m
          end)
       (with_receipts (map_at index mark_processing) st),
     Returned tt).
Proof.
  intros Hr. unfold handleReparse, mbind, M_bind, bind, getState, try_.
  rewrite Hr. cbn.
  destruct (reparse_response env mode (selectedModel st) userText (parsed r))
    as [m|status [m|data]]; cbn; try reflexivity;
    destruct (negb (ok status)); reflexivity.
Qed.

Lemma twice_map_at_lookup index (f g : Receipt P -> Receipt P) rs r :
  rs !! index = Some r ->
  map_at index f (map_at index g rs) !! index = Some (f (g r)).
Proof. intros H. rewrite !map_at_lookup_eq, H. reflexivity. Qed.

Lemma twice_map_at_other index (f g : Receipt P -> Receipt P) rs j :
  j <> index -> map_at index f (map_at index g rs) !! j = rs !! j.
Proof. intros H. rewrite !map_at_lookup_ne by assumption. reflexivity. Qed.

(** C6: when the re-parse call for receipt [index] fails, the run of
    [handleReparse] returns with that receipt's parsed record (and every
    other property but [processing] and [error]) as before, the error's
    message attached, [processing] false, and every other receipt as it
    was. *)
Theorem handleReparse_failure_is_local
    (env : Env P) st index userText mode r :
  receipts st !! index = Some r ->
  fails (reparse_response env mode (selectedModel st) userText (parsed r)) = true ->
  exists evs st' message,
    handleReparse env index userText mode st = (evs, st', Returned tt) /\
    receipts st' !! index =
      Some (mkReceipt (id r) (filename r) (image_base64 r) (thumbnail_base64 r)
              (parsed r) (approved r) false (Some message) (file r)) /\
    response_outcome (fun _ => "Failed to reparse")
      (reparse_response env mode (selectedModel st) userText (parsed r))
      = Thrown message /\
    length (receipts st') = length (receipts st) /\
    forall j, j <> index -> receipts st' !! j = receipts st !! j.
Proof.
  intros Hr Hfail.
  destruct (fails_thrown (fun _ => "Failed to reparse") _ Hfail) as [m Hm].
  rewrite (handleReparse_run env st index userText mode r Hr), Hm.
  eexists _, _, m. split; [reflexivity|]. cbn [receipts with_receipts].
  split; [|split; [reflexivity|split]].
  - rewrite (twice_map_at_lookup _ _ _ _ _ Hr). reflexivity.
  - rewrite !map_at_length. reflexivity.
  - intros j Hj. apply twice_map_at_other; assumption.
Qed.

(** The success branch: the receipt's parsed record becomes whatever the
    server sent. *)
Lemma handleReparse_success
    (env : Env P) st index userText mode r data :
  receipts st !! index = Some r ->
  response_outcome (fun _ => "Failed to reparse")
    (reparse_response env mode (selectedModel st) userText (parsed r))
    = Returned data ->
  exists evs st',
    handleReparse env index userText mode st = (evs, st', Returned tt) /\
    receipts st' !! index =
      Some (mkReceipt (id r) (filename r) (image_base64 r) (thumbnail_base64 r)
              (reparsed data) (approved r) false None (file r)) /\
    forall j, j <> index -> receipts st' !! j = receipts st !! j.
Proof.
  intros Hr Hd.
  rewrite (handleReparse_run env st index userText mode r Hr), Hd.
  eexists _, _. split; [reflexivity|]. cbn [receipts with_receipts]. split.
  - rewrite (twice_map_at_lookup _ _ _ _ _ Hr). reflexivity.
  - intros j Hj. apply twice_map_at_other; assumption.
Qed.

End Generic.

(** *** The sequential extraction of the first variant *)

Section Sequential.
Context {P : Type}.
Variable env : Env P.
Implicit Types (st : State P) (r : Receipt P) (rs : list (Receipt P)).

Local Abbreviation sequential_update := (PageV1.sequential_update env).
Local Abbreviation sequential_receipts := (PageV1.sequential_receipts env).
Local Abbreviation sequential_events := (@PageV1.sequential_events P).

Lemma to_process_spec r :
  to_process r = true <-> parsed r = None /\ is_Some (file r).
Proof.
  unfold to_process. destruct (parsed r), (file r); cbn; split;
    try discriminate; try (intros [H1 H2]; first [discriminate | destruct H2; discriminate]);
    eauto.
Qed.

Lemma map_at_compose idx (f g : Receipt P -> Receipt P) rs :
  map_at idx f (map_at idx g rs) = map_at idx (fun r => f (g r)) rs.
Proof.
  apply list_eq. intros i. rewrite !map_at_lookup.
  destruct (decide (i = idx)); [|reflexivity].
  destruct (rs !! i); reflexivity.
Qed.

Lemma process_each_run snapshot model st :
  exists st',
    PageV1.process_each env snapshot model st =
      (sequential_events model snapshot, st', Returned tt) /\
    receipts st' = sequential_receipts snapshot (receipts st).
Proof.
  revert st. induction snapshot as [|[receipt i] rest IH]; intros st.
  - exists st. split; reflexivity.
  - cbn [PageV1.process_each sequential_events sequential_receipts flat_map foldl fst snd].
    assert (Hcond : truthy (parsed receipt) || negb (truthy (file receipt))
                    = negb (to_process receipt))
      by (unfold to_process; destruct (truthy (parsed receipt)), (truthy (file receipt));
          reflexivity).
    unfold mbind, M_bind, bind, try_. rewrite Hcond.
    destruct (to_process receipt) eqn:Htp; cbn [negb].
    2:{ cbn. destruct (IH st) as (st' & -> & Hrs). exists st'. split; [reflexivity|exact Hrs]. }
    unfold sequential_update, response_outcome.
    destruct (parse_response env i 1) as [m|status [m|data]]; cbn;
      try destruct (negb (ok status)); cbn;
      match goal with
      | |- context [PageV1.process_each env rest model ?s] =>
          destruct (IH s) as (st' & -> & Hrs)
      end; exists st'; (split; [reflexivity|]);
      rewrite Hrs; cbn [receipts with_receipts]; rewrite map_at_compose; reflexivity.
Qed.

Lemma sequential_receipts_frame snapshot rs j :
  (forall r, (r, j) ∈ snapshot -> to_process r = false) ->
  sequential_receipts snapshot rs !! j = rs !! j.
Proof.
  revert rs. induction snapshot as [|[receipt i] rest IH]; intros rs Hno; [reflexivity|].
  cbn [sequential_receipts foldl fst snd].
  assert (Hrest : forall r, (r, j) ∈ rest -> to_process r = false)
    by (intros r Hr; apply Hno; right; assumption).
  destruct (to_process receipt) eqn:Hp.
  - change (sequential_receipts rest (map_at i (sequential_update i) rs) !! j = rs !! j).
    rewrite (IH _ Hrest). apply map_at_lookup_ne. intros ->.
    rewrite (Hno receipt) in Hp; [discriminate|left].
  - apply (IH _ Hrest).
Qed.

Lemma sequential_events_request model snapshot idx :
  (exists attempt f mode model',
      EvParseRequest idx attempt f mode model' ∈ sequential_events model snapshot) <->
  exists r, (r, idx) ∈ snapshot /\ to_process r = true.
Proof.
  unfold sequential_events. split.
  - intros (attempt & f & mode & model' & Hin).
    apply list_elem_of_In, in_flat_map in Hin as ([r i] & Hp & Hin). cbn [fst snd] in Hin.
    destruct (to_process r) eqn:Hr; [|inversion Hin].
    destruct Hin as [Heq|[]]. inversion Heq; subst.
    exists r. split; [apply list_elem_of_In; assumption|assumption].
  - intros (r & Hin & Hr). exists 1, (file r), image, model.
    apply list_elem_of_In, in_flat_map. exists (r, idx).
    split; [apply list_elem_of_In; assumption|]. cbn [fst snd]. rewrite Hr. left. reflexivity.
Qed.

Lemma processAllReceipts_v1_run st :
  exists st',
    PageV1.processAllReceipts env st =
      (sequential_events (selectedModel st) (imap (fun i r => (r, i)) (receipts st)),
       st', Returned tt) /\
    receipts st' =
      sequential_receipts (imap (fun i r => (r, i)) (receipts st)) (receipts st) /\
    appState st' = review /\ st_processing st' = false.
Proof.
  unfold PageV1.processAllReceipts, mbind, M_bind, bind, getState.
  cbn [setProcessing].
  match goal with
  | |- context [PageV1.process_each env ?L ?m ?s] =>
      destruct (process_each_run L m s) as (st1 & Hrun & Hrs); rewrite Hrun
  end.
  cbn [setAppState setProcessing app]. rewrite app_nil_r.
  eexists. split; [reflexivity|].
  cbn [receipts appState st_processing with_appState with_processing].
  split; [exact Hrs|split; reflexivity].
Qed.

End Sequential.

(** *** The batch extraction of [page.tsx] *)

Section Batch.
Variable env : Env jsobj.
Implicit Types (st : State jsobj) (r : Receipt jsobj) (rs : list (Receipt jsobj)).

Local Abbreviation attempt_outcome := (Page.attempt_outcome env).
Local Abbreviation loop_result := (Page.loop_result env).
Local Abbreviation loop_events := (Page.loop_events env).
Local Abbreviation final_update := (Page.final_update env).
Local Abbreviation batch_events := (Page.batch_events env).
Local Abbreviation settled := (Page.settled env).

Lemma fetch_parse_run receipt idx attempt model st :
  fetch_parse env receipt idx attempt model st =
    ([EvParseRequest idx attempt (file receipt) image model], st,
     attempt_outcome idx attempt).
Proof.
  unfold fetch_parse, attempt_outcome, response_outcome, http_message,
    mbind, M_bind, bind, emit.
  destruct (parse_response env idx attempt) as [m|status [m|data]]; cbn;
    try reflexivity; destruct (negb (ok status)); reflexivity.
Qed.

Lemma attempt_loop_run receipt idx model attempts lastError st :
  attempt_loop env receipt idx model attempts lastError st =
    (loop_events receipt idx model attempts,
     match loop_result idx attempts lastError with
     | inl data => with_receipts (map_at idx (parse_succeeded data)) st
     | inr _ => st
     end,
     Returned match loop_result idx attempts lastError with
              | inl _ => Succeeded
              | inr e => Exhausted e
              end).
Proof.
  revert lastError. induction attempts as [|attempt rest IH]; intros lastError.
  - reflexivity.
  - cbn [attempt_loop loop_events loop_result].
    unfold mbind, M_bind, bind, try_ in *.
    rewrite fetch_parse_run.
    destruct (attempt_outcome idx attempt) as [data|m]; [reflexivity|].
    destruct (attempt <? MAX_RETRIES)%nat; cbn; rewrite IH; reflexivity.
Qed.

Lemma processOne_run receipt idx model st :
  processOne env receipt idx model st =
    (loop_events receipt idx model (seq 1 MAX_RETRIES),
     with_receipts (map_at idx (final_update idx)) st,
     Returned tt).
Proof.
  unfold processOne, final_update, mbind, M_bind, bind.
  rewrite attempt_loop_run.
  destruct (loop_result idx (seq 1 MAX_RETRIES) None); cbn;
    rewrite app_nil_r; reflexivity.
Qed.

Lemma settle_all_run toProcess model total completed st :
  exists st',
    settle_all env toProcess model total completed st =
      (batch_events model toProcess, st', Returned (completed + length toProcess)) /\
    receipts st' = settled toProcess (receipts st).
Proof.
  revert completed st.
  induction toProcess as [|[receipt idx] rest IH]; intros completed st.
  - exists st. cbn. rewrite Nat.add_0_r. split; reflexivity.
  - cbn [settle_all]. unfold mbind, M_bind, bind.
    rewrite processOne_run. cbn [setProcessingProgress].
    match goal with
    | |- context [settle_all env rest model total (S completed) ?s] =>
        destruct (IH (S completed) s) as (st' & Hrun & Hrs); rewrite Hrun
    end.
    exists st'. split.
    + cbn [batch_events flat_map fst snd length].
      rewrite Nat.add_succ_r. reflexivity.
    + rewrite Hrs. reflexivity.
Qed.

Lemma settled_lookup toProcess rs i :
  NoDup (snd <$> toProcess) ->
  settled toProcess rs !! i =
    if decide (i ∈ snd <$> toProcess) then final_update i <$> rs !! i else rs !! i.
Proof.
  revert rs. induction toProcess as [|[receipt idx] rest IH]; intros rs Hnd.
  - cbn. destruct (decide (i ∈ [])) as [Hin|]; [inversion Hin|reflexivity].
  - cbn [fmap list_fmap snd] in *. apply NoDup_cons in Hnd as [Hnotin Hnd].
    change (settled ((receipt, idx) :: rest) rs)
      with (settled rest (map_at idx (final_update idx) rs)).
    rewrite (IH _ Hnd), map_at_lookup.
    destruct (decide (i = idx)) as [->|Hne].
    + destruct (decide (idx ∈ snd <$> rest)); [contradiction|].
      destruct (decide (idx ∈ idx :: (snd <$> rest))) as [|Hn]; [reflexivity|].
      exfalso. apply Hn. left.
    + destruct (decide (i ∈ snd <$> rest)) as [Hin|Hin];
        destruct (decide (i ∈ idx :: (snd <$> rest))) as [Hin'|Hin'];
        try reflexivity.
      * exfalso. apply Hin'. right. assumption.
      * exfalso. apply elem_of_cons in Hin' as [?|?]; contradiction.
Qed.

(** The calls of a batch settle in no fixed order; the receipts they leave
    are the same in every order. *)
Lemma settled_order_irrelevant toProcess toProcess' rs :
  toProcess ≡ₚ toProcess' -> NoDup (snd <$> toProcess) ->
  settled toProcess' rs = settled toProcess rs.
Proof.
  intros Hperm Hnd. apply list_eq. intros i.
  assert (Hnd' : NoDup (snd <$> toProcess')) by (rewrite <- Hperm; exact Hnd).
  rewrite !settled_lookup by assumption.
  destruct (decide (i ∈ snd <$> toProcess')) as [Hin'|Hin'];
    destruct (decide (i ∈ snd <$> toProcess)) as [Hin|Hin]; try reflexivity.
  - rewrite <- Hperm in Hin'. contradiction.
  - rewrite Hperm in Hin. contradiction.
Qed.

Lemma filter_sublist {A} (f : A -> bool) (l : list A) : sublist (List.filter f l) l.
Proof.
  induction l as [|x l IH]; cbn; [constructor|].
  destruct (f x); [apply sublist_skip|apply sublist_cons]; assumption.
Qed.

Lemma toProcess_of_elem rs r idx :
  (r, idx) ∈ toProcess_of rs <-> rs !! idx = Some r /\ to_process r = true.
Proof.
  unfold toProcess_of. rewrite list_elem_of_In, filter_In, <- list_elem_of_In.
  rewrite elem_of_lookup_imap. cbn [fst]. split.
  - intros [(i & y & Heq & Hl) Hp]. inversion Heq; subst. split; assumption.
  - intros [Hl Hp]. split; [|assumption]. exists idx, r. split; [reflexivity|assumption].
Qed.

Lemma toProcess_of_indices rs idx :
  idx ∈ snd <$> toProcess_of rs <->
  exists r, rs !! idx = Some r /\ to_process r = true.
Proof.
  rewrite list_elem_of_fmap. split.
  - intros ([r i] & -> & Hin). exists r. apply toProcess_of_elem. assumption.
  - intros (r & Hr). exists (r, idx). split; [reflexivity|].
    apply toProcess_of_elem. assumption.
Qed.

Lemma toProcess_of_NoDup rs : NoDup (snd <$> toProcess_of rs).
Proof.
  eapply sublist_NoDup; [|apply fmap_sublist, filter_sublist].
  rewrite fmap_imap.
  rewrite (imap_ext _ (fun j _ => j)) by reflexivity.
  rewrite imap_seq_0, list_fmap_id. apply NoDup_seq.
Qed.

Lemma existsb_index (toProcess : list (Receipt jsobj * nat)) idx :
  existsb (fun p => Nat.eqb (snd p) idx) toProcess = true <->
  idx ∈ snd <$> toProcess.
Proof.
  rewrite existsb_exists, list_elem_of_fmap. split.
  - intros (p & Hin & Heq). apply Nat.eqb_eq in Heq. exists p.
    split; [congruence|]. apply list_elem_of_In. assumption.
  - intros (p & -> & Hin). exists p. split; [apply list_elem_of_In; assumption|].
    apply Nat.eqb_refl.
Qed.

(** A run of [processAllReceipts]: it returns, having sent the requests of
    the batch and applied to each receipt of [toProcess], once marked as
    processing, the update of its call; the other receipts are as before. *)
Lemma processAllReceipts_run st :
  exists st',
    processAllReceipts env st =
      (batch_events (selectedModel st) (toProcess_of (receipts st)), st', Returned tt) /\
    receipts st' =
      imap (fun idx r =>
              if to_process r then final_update idx (mark_processing r) else r)
        (receipts st) /\
    appState st' = review /\
    st_processing st' = false.
Proof.
  unfold processAllReceipts, mbind, M_bind, bind, getState.
  cbn [setProcessing setProcessingProgress setReceipts].
  match goal with
  | |- context [settle_all env ?L ?m ?t 0 ?s] =>
      destruct (settle_all_run L m t 0 s) as (st1 & Hrun & Hrs); rewrite Hrun
  end.
  cbn [setAppState setProcessing app]. rewrite app_nil_r.
  eexists. split; [reflexivity|].
  cbn [receipts appState st_processing with_appState with_processing].
  split; [|split; reflexivity].
  rewrite Hrs.
  cbn [receipts with_receipts with_processing with_processingProgress].
  apply list_eq. intros i.
  rewrite (settled_lookup _ _ _ (toProcess_of_NoDup (receipts st))).
  rewrite !list_lookup_imap.
  destruct (receipts st !! i) as [r|] eqn:Hr; cbn [fmap option_fmap option_map].
  - destruct (to_process r) eqn:Hp.
    + assert (Hin : i ∈ snd <$> toProcess_of (receipts st))
        by (apply toProcess_of_indices; eauto).
      destruct (decide (i ∈ snd <$> toProcess_of (receipts st))); [|contradiction].
      apply existsb_index in Hin. rewrite Hin. reflexivity.
    + assert (Hnin : ~ i ∈ snd <$> toProcess_of (receipts st)).
      { intros (r' & Hr' & Hp')%toProcess_of_indices. congruence. }
      destruct (decide (i ∈ snd <$> toProcess_of (receipts st))); [contradiction|].
      destruct (existsb (fun p => Nat.eqb (snd p) i) (toProcess_of (receipts st)))
        eqn:He; [|reflexivity].
      apply existsb_index in He. contradiction.
  - destruct (decide (i ∈ snd <$> toProcess_of (receipts st))); reflexivity.
Qed.

Lemma loop_events_request receipt idx model attempts idx' attempt f mode model' :
  EvParseRequest idx' attempt f mode model' ∈ loop_events receipt idx model attempts ->
  idx' = idx.
Proof.
  induction attempts as [|a rest IH]; cbn [loop_events]; intros Hin.
  - inversion Hin.
  - apply elem_of_cons in Hin as [Heq|Hin]; [congruence|].
    destruct (attempt_outcome idx a); [inversion Hin|].
    apply elem_of_cons in Hin as [Heq|Hin]; [discriminate|].
    apply elem_of_app in Hin as [Hin|Hin]; [|auto].
    destruct (a <? MAX_RETRIES)%nat; [|inversion Hin].
    apply elem_of_cons in Hin as [Heq|Hin]; [discriminate|inversion Hin].
Qed.

Lemma batch_events_request model toProcess idx :
  (exists attempt f mode model',
      EvParseRequest idx attempt f mode model' ∈ batch_events model toProcess) <->
  idx ∈ snd <$> toProcess.
Proof.
  unfold batch_events. split.
  - intros (attempt & f & mode & model' & Hin).
    apply list_elem_of_In, in_flat_map in Hin as ([r i] & Hp & Hin).
    apply list_elem_of_In, loop_events_request in Hin. cbn in Hin. subst i.
    apply list_elem_of_fmap. exists (r, idx). split; [reflexivity|].
    apply list_elem_of_In. assumption.
  - intros ([r i] & -> & Hin)%list_elem_of_fmap.
    exists 1, (file r), image, model.
    apply list_elem_of_In, in_flat_map. exists (r, i). split.
    + apply list_elem_of_In. assumption.
    + left. reflexivity.
Qed.

Lemma loop_result_exhausted idx :
  (forall attempt, 1 <= attempt <= MAX_RETRIES ->
     fails (parse_response env idx attempt) = true) ->
  exists m1 m2 m3,
    attempt_outcome idx 1 = Thrown m1 /\
    attempt_outcome idx 2 = Thrown m2 /\
    attempt_outcome idx 3 = Thrown m3 /\
    loop_result idx (seq 1 MAX_RETRIES) None = inr (Some m3).
Proof.
  intros Hfail. unfold attempt_outcome.
  destruct (fails_thrown http_message _ (Hfail 1 ltac:(unfold MAX_RETRIES; lia))) as [m1 H1].
  destruct (fails_thrown http_message _ (Hfail 2 ltac:(unfold MAX_RETRIES; lia))) as [m2 H2].
  destruct (fails_thrown http_message _ (Hfail 3 ltac:(unfold MAX_RETRIES; lia))) as [m3 H3].
  exists m1, m2, m3. repeat split; try assumption.
  cbn [MAX_RETRIES seq loop_result]. unfold attempt_outcome.
  rewrite H1, H2, H3. reflexivity.
Qed.

End Batch.

(** C1: a receipt whose extraction call fails on each of the
    [MAX_RETRIES] = 3 attempts is given the placeholder record, whose
    confidence is "low", and a non-empty error message, with [processing]
    false again; its call made exactly three requests with a pause of
    1000 ms after the first and after the second; and the run of
    [processAllReceipts] returns instead of throwing. *)
Theorem processAllReceipts_retries_exhausted
    (env : Env jsobj) (st : State jsobj) (idx : nat) (r : Receipt jsobj) :
  receipts st !! idx = Some r ->
  parsed r = None ->
  is_Some (file r) ->
  (forall attempt, 1 <= attempt <= MAX_RETRIES ->
     fails (parse_response env idx attempt) = true) ->
  exists evs st' message m1 m2 m3,
    processAllReceipts env st = (evs, st', Returned tt) /\
    receipts st' !! idx =
      Some (mkReceipt (id r) (filename r) (image_base64 r) (thumbnail_base64 r)
              (Some (emptyParsed (now_iso env))) (approved r) false (Some message)
              (file r)) /\
    emptyParsed (now_iso env) !! "confidence" = Some (VStr "low") /\
    message = "Failed after 3 attempts: " +:+ m3 /\
    message <> "" /\
    forall model st0,
      fst (fst (processOne env r idx model st0)) =
        [ EvParseRequest idx 1 (file r) image model; EvLog idx 1 m1; EvSleep 1000;
          EvParseRequest idx 2 (file r) image model; EvLog idx 2 m2; EvSleep 1000;
          EvParseRequest idx 3 (file r) image model; EvLog idx 3 m3 ].
Proof.
  intros Hr Hparsed Hfile Hfail.
  destruct (loop_result_exhausted env idx Hfail) as (m1 & m2 & m3 & H1 & H2 & H3 & Hloop).
  destruct (processAllReceipts_run env st) as (st' & Hrun & Hrs & _ & _).
  exists (batch_events env (selectedModel st) (toProcess_of (receipts st))), st',
    ("Failed after 3 attempts: " +:+ m3), m1, m2, m3.
  split; [exact Hrun|]. split; [|split; [reflexivity|split; [reflexivity|split]]].
  - rewrite Hrs, list_lookup_imap, Hr. cbn [fmap option_fmap option_map].
    assert (Hp : to_process r = true) by (apply to_process_spec; auto).
    rewrite Hp. unfold final_update. rewrite Hloop. reflexivity.
  - discriminate.
  - intros model st0. rewrite processOne_run. cbn [fst MAX_RETRIES seq loop_events].
    rewrite H1, H2, H3. reflexivity.
Qed.

(** C10: a run of [processAllReceipts] sends extraction requests for exactly
    the receipts that have no parsed record and have a file attached, and a
    receipt that already has a parsed record is in the list afterwards as it
    was before; so in the batch variant and in the sequential one. *)
Theorem processAllReceipts_submits_unparsed_only
    (env : Env jsobj) (st : State jsobj) :
  exists evs st' evs1 st1,
    processAllReceipts env st = (evs, st', Returned tt) /\
    PageV1.processAllReceipts env st = (evs1, st1, Returned tt) /\
    (forall idx,
        (exists attempt f mode model, EvParseRequest idx attempt f mode model ∈ evs) <->
        (exists r, receipts st !! idx = Some r /\ parsed r = None /\ is_Some (file r))) /\
    (forall idx,
        (exists attempt f mode model, EvParseRequest idx attempt f mode model ∈ evs1) <->
        (exists r, receipts st !! idx = Some r /\ parsed r = None /\ is_Some (file r))) /\
    (forall idx r,
        receipts st !! idx = Some r -> is_Some (parsed r) ->
        receipts st' !! idx = Some r /\ receipts st1 !! idx = Some r) /\
    length (receipts st') = length (receipts st) /\
    length (receipts st1) = length (receipts st).
Proof.
  destruct (processAllReceipts_run env st) as (st' & Hrun & Hrs & _ & _).
  destruct (processAllReceipts_v1_run env st) as (st1 & Hrun1 & Hrs1 & _ & _).
  eexists _, st', _, st1. split; [exact Hrun|]. split; [exact Hrun1|].
  assert (Hnot : forall r : Receipt jsobj, is_Some (parsed r) -> to_process r = false).
  { intros r [p Hp]. unfold to_process. rewrite Hp. reflexivity. }
  split; [|split; [|split; [|split]]].
  - intros idx. rewrite batch_events_request, toProcess_of_indices.
    split; intros (r & Hr & Hp); exists r; (split; [exact Hr|]);
      apply to_process_spec; assumption.
  - intros idx. rewrite sequential_events_request. split.
    + intros (r & Hin & Hp). exists r.
      apply elem_of_lookup_imap in Hin as (i & y & Heq & Hl). inversion Heq; subst.
      split; [assumption|]. apply to_process_spec. assumption.
    + intros (r & Hr & Hp). exists r. split; [|apply to_process_spec; assumption].
      apply elem_of_lookup_imap. exists idx, r. split; [reflexivity|assumption].
  - intros idx r Hr Hp. split.
    + rewrite Hrs, list_lookup_imap, Hr. cbn [fmap option_fmap option_map].
      rewrite (Hnot r Hp). reflexivity.
    + rewrite Hrs1, sequential_receipts_frame; [exact Hr|].
      intros r' Hin. apply elem_of_lookup_imap in Hin as (i & y & Heq & Hl).
      inversion Heq; subst. assert (y = r) by congruence. subst. apply Hnot, Hp.
  - rewrite Hrs. apply length_imap.
  - rewrite Hrs1. unfold PageV1.sequential_receipts.
    generalize (imap (fun i r0 => (r0, i)) (receipts st)) as L.
    generalize (receipts st) as rs. intros rs L. revert rs.
    induction L as [|[r0 i] L IH]; intros rs; [reflexivity|].
    cbn [foldl fst snd]. rewrite IH. destruct (to_process r0); [|reflexivity].
    apply map_at_length.
Qed.

(** C1 on a session whose server cannot be reached: the one receipt ends
    with the placeholder, the message and three requests. *)
Lemma processAllReceipts_retries_exhausted_witness :
  exists st' r',
    snd (processAllReceipts Scenarios.server_down Scenarios.fresh_upload) = Returned tt /\
    snd (fst (processAllReceipts Scenarios.server_down Scenarios.fresh_upload)) = st' /\
    receipts st' !! 0 = Some r' /\
    parsed r' = Some (emptyParsed "2025-01-10T09:30:00.000Z") /\
    error r' = Some "Failed after 3 attempts: Failed to fetch" /\
    processing r' = false.
Proof.
  destruct (processAllReceipts_retries_exhausted Scenarios.server_down
              Scenarios.fresh_upload 0
              (mkReceipt "1736501400000-k3f9x2m1q" "receipt.png" "" "" None false false
                 None (Some Scenarios.receipt_png)))
    as (evs & st' & message & m1 & m2 & m3 & Hrun & Hr & _ & Hmsg & _ & Hev).
  - reflexivity.
  - reflexivity.
  - eexists. reflexivity.
  - intros attempt _. reflexivity.
  - eexists st', _. rewrite Hrun. cbn [fst snd].
    split; [reflexivity|]. split; [reflexivity|]. split; [exact Hr|].
    cbn [parsed error processing]. split; [reflexivity|]. split; [|reflexivity].
    specialize (Hev "m" Scenarios.fresh_upload). vm_compute in Hev.
    inversion Hev; subst. reflexivity.
Defined.

(** C6 on a reviewed receipt when the server cannot be reached. *)
Lemma handleReparse_failure_is_local_witness :
  exists evs st' message,
    handleReparse Scenarios.server_down 0 "split six ways" image
      Scenarios.reviewed_upload = (evs, st', Returned tt) /\
    receipts st' !! 0 =
      Some (mkReceipt "1736501400000-k3f9x2m1q" "receipt.png" "aW1n" "dGh1"
              (Some Scenarios.lunch_flat) true false (Some message)
              (Some Scenarios.receipt_png)).
Proof.
  destruct (handleReparse_failure_is_local Scenarios.server_down
              Scenarios.reviewed_upload 0 "split six ways" image
              (mkReceipt "1736501400000-k3f9x2m1q" "receipt.png" "aW1n" "dGh1"
                 (Some Scenarios.lunch_flat) true false None (Some Scenarios.receipt_png)))
    as (evs & st' & message & Hrun & Hr & _).
  - reflexivity.
  - reflexivity.
  - exists evs, st', message. split; [exact Hrun|exact Hr].
Defined.

(** The claim C5 fails where the server's record leaves out what another
    section held: the guest typed into the hospitality section is gone
    after a successful correction of the description in [other]. *)
Lemma reparse_discards_other_sections :
  Types.active_section Scenarios.prior_record = Types.other /\
  Types.active_section Scenarios.reply_record = Types.other /\
  snd (handleReparse Scenarios.refining_server 0 "the description is Dinner" image
         Scenarios.sectioned_review) = Returned tt /\
  Sectioned.field_of Scenarios.sectioned_review 0 Types.hospitality "principal_guest"
    = Some (VStr "Dr. Smith") /\
  Sectioned.field_of
    (snd (fst (handleReparse Scenarios.refining_server 0 "the description is Dinner"
                 image Scenarios.sectioned_review)))
    0 Types.hospitality "principal_guest"
    = Some VNull.
Proof. repeat split; vm_compute; reflexivity. Qed.

(** C5, amended: a successful re-parse puts the server's record in the place
    of the receipt's parsed record.  Every field value afterwards, in the
    corrected section and in the others, is the one in the server's
    record, so a field keeps its prior value exactly when the server's
    record repeats it. *)
Theorem handleReparse_takes_server_record
    (env : Env Types.ParsedReceipt) (st : State Types.ParsedReceipt)
    (index : nat) (userText : string) (mode : ParseMode)
    (r : Receipt Types.ParsedReceipt) (prior reply : Types.ParsedReceipt) :
  receipts st !! index = Some r ->
  parsed r = Some prior ->
  response_outcome (fun _ => "Failed to reparse")
    (reparse_response env mode (selectedModel st) userText (parsed r))
    = Returned (mkReparseData (Some reply)) ->
  exists evs st',
    handleReparse env index userText mode st = (evs, st', Returned tt) /\
    receipts st' !! index =
      Some (mkReceipt (id r) (filename r) (image_base64 r) (thumbnail_base64 r)
              (Some reply) (approved r) false None (file r)) /\
    (forall s field,
        Sectioned.field_of st' index s field
          = Types.get_section (Types.fields reply) s !! field) /\
    (forall s field,
        Sectioned.field_of st' index s field = Sectioned.field_of st index s field <->
        Types.get_section (Types.fields reply) s !! field
          = Types.get_section (Types.fields prior) s !! field).
Proof.
  intros Hr Hprior Hresp.
  destruct (handleReparse_success env st index userText mode r _ Hr Hresp)
    as (evs & st' & Hrun & Hr' & _).
  exists evs, st'. split; [exact Hrun|]. split; [exact Hr'|].
  assert (Hafter : forall s field,
             Sectioned.field_of st' index s field
               = Types.get_section (Types.fields reply) s !! field)
    by (intros s field; unfold Sectioned.field_of; rewrite Hr'; reflexivity).
  split; [exact Hafter|].
  intros s field. rewrite Hafter. unfold Sectioned.field_of. rewrite Hr, Hprior.
  reflexivity.
Qed.

(** The amended C5 on the session of the counterexample. *)
Lemma handleReparse_takes_server_record_witness :
  exists evs st',
    handleReparse Scenarios.refining_server 0 "the description is Dinner" image
      Scenarios.sectioned_review = (evs, st', Returned tt) /\
    Sectioned.field_of st' 0 Types.other "description" = Some (VStr "Dinner") /\
    Sectioned.field_of st' 0 Types.hospitality "principal_guest" = Some VNull.
Proof.
  destruct (handleReparse_takes_server_record Scenarios.refining_server
              Scenarios.sectioned_review 0 "the description is Dinner" image
              (mkReceipt "1736501400000-k3f9x2m1q" "receipt.png" "aW1n" "dGh1"
                 (Some Scenarios.prior_record) false false None
                 (Some Scenarios.receipt_png))
              Scenarios.prior_record Scenarios.reply_record)
    as (evs & st' & Hrun & _ & Hafter & _).
  - reflexivity.
  - reflexivity.
  - reflexivity.
  - exists evs, st'. split; [exact Hrun|]. rewrite !Hafter. split; reflexivity.
Defined.

(** The claim C7 fails on the placeholder: the schema's [is_non_uk_eu] is
    not among its properties, and its date is that of the day it is
    built. *)
Lemma placeholder_not_fully_defaulted :
  defaulted Page.ParsedReceipt (emptyParsed "2025-01-10T09:30:00.000Z") = false /\
  emptyParsed "2025-01-10T09:30:00.000Z" !! "is_non_uk_eu" = None /\
  emptyParsed "2025-01-10T09:30:00.000Z" !! "date" = Some (VStr "2025-01-10") /\
  emptyParsed "2025-01-13T08:15:40.000Z" !! "date" = Some (VStr "2025-01-13").
Proof. repeat split; vm_compute; reflexivity. Qed.

(** C7, amended: the empty sectioned record has every field of its schema,
    the strings null (the raw description the empty string), the numbers
    null, the booleans false, the confidence "low".  The placeholder has
    the nine properties from [expense_type] to [confidence], the amount 0,
    the guest count null, the group flag false, the confidence "low",
    fixed strings for the type, currency, vendor and description, and for
    its date the day it is built. *)
Theorem defaulted_records :
  Types.confidence Types.createEmptyParsedReceipt = "low" /\
  Types.raw_description Types.createEmptyParsedReceipt = "" /\
  (forall s,
      defaulted (Types.section_schema s)
        (Types.get_section (Types.fields Types.createEmptyParsedReceipt) s) = true) /\
  (forall s k t,
      (k, t) ∈ Types.section_schema s ->
      Types.get_section (Types.fields Types.createEmptyParsedReceipt) s !! k
        = Some (match t with TBoolean => VBool false | _ => VNull end)) /\
  (forall now,
      defaulted PageV1.ParsedReceipt (emptyParsed now) = true /\
      emptyParsed now !! "confidence" = Some (VStr "low") /\
      emptyParsed now !! "amount" = Some (VNum 0) /\
      emptyParsed now !! "guest_count" = Some VNull /\
      emptyParsed now !! "is_group_expense" = Some (VBool false) /\
      emptyParsed now !! "date" = Some (VStr (split_T_0 now)) /\
      delete "date" (emptyParsed now) = delete "date" (emptyParsed "")).
Proof.
  split; [reflexivity|]. split; [reflexivity|]. split; [|split].
  - intros []; vm_compute; reflexivity.
  - intros s k t Hin.
    destruct s; cbn [Types.section_schema] in Hin;
      repeat (apply elem_of_cons in Hin as [Hin|Hin];
              [inversion Hin; subst; vm_compute; reflexivity|]);
      inversion Hin.
  - intros now. repeat split; reflexivity.
Qed.

End PageProps.

(** ** Properties of field editing *)

Module ReviewProps.
Import Types Review.

Lemma strict_ne_null (v : jsval) : strict_ne v VNull = true <-> v <> VNull.
Proof. destruct v; cbn; split; intros; congruence. Qed.

Lemma strict_ne_empty_string (v : jsval) :
  strict_ne v (VStr "") = true <-> v <> VStr "".
Proof.
  destruct v as [|s|x|b]; unfold strict_ne, strict_eq;
    try (cbn; split; intros; congruence).
  case_bool_decide; cbn; split; intros; congruence.
Qed.

Lemma strict_ne_false (v : jsval) :
  strict_ne v (VBool false) = true <-> v <> VBool false.
Proof. destruct v as [|s|x|[|]]; cbn; split; intros; congruence. Qed.

Lemma get_set_section_eq fs s o : get_section (set_section fs s o) s = o.
Proof. destruct s; reflexivity. Qed.

Lemma get_set_section_ne fs s s' o :
  s' <> s -> get_section (set_section fs s o) s' = get_section fs s'.
Proof. destruct s, s'; intros H; try reflexivity; congruence. Qed.

(** C3: editing a field of a section other than the active one with a value
    that is not null, not the empty string and not false makes that section
    the active one; an empty value, or an edit inside the active section,
    leaves the active section as it was. *)
Theorem updateField_active_section
    (parsed : ParsedReceipt) (section : ActiveSection) (field : string) (value : jsval) :
  exists newParsed,
    updateField (Some parsed) section field value = Some newParsed /\
    (section <> active_section parsed ->
     value <> VNull -> value <> VStr "" -> value <> VBool false ->
     active_section newParsed = section) /\
    (value = VNull \/ value = VStr "" \/ value = VBool false
       \/ section = active_section parsed ->
     active_section newParsed = active_section parsed).
Proof.
  unfold updateField.
  destruct (bool_decide (section <> active_section parsed)) eqn:Hs;
    destruct (strict_ne value VNull) eqn:Hn;
    destruct (strict_ne value (VStr "")) eqn:He;
    destruct (strict_ne value (VBool false)) eqn:Hf; cbn [andb];
    eexists; (split; [reflexivity|]); cbn [active_section].
  all: try apply bool_decide_eq_true in Hs.
  all: try apply bool_decide_eq_false in Hs.
  all: try apply strict_ne_null in Hn.
  all: try apply strict_ne_empty_string in He.
  all: try apply strict_ne_false in Hf.
  all: split; [intros Hs' Hn' He' Hf' | intros [H|[H|[H|H]]]]; try congruence.
  all: try (exfalso; apply Hs; assumption).
  all: try (exfalso;
            first [ apply strict_ne_null in Hn'; congruence
                  | apply strict_ne_empty_string in He'; congruence
                  | apply strict_ne_false in Hf'; congruence ]).
Qed.

(** C4: an edit touches one field of one section: the field sets of the
    three other sections are the same objects as before, every other field
    of the edited section has its value of before, and the shared confidence
    and description are kept; nothing is reset to empty. *)
Theorem updateField_frame
    (parsed : ParsedReceipt) (section : ActiveSection) (field : string) (value : jsval) :
  exists newParsed,
    updateField (Some parsed) section field value = Some newParsed /\
    (forall s, s <> section ->
       get_section (fields newParsed) s = get_section (fields parsed) s) /\
    (forall f, f <> field ->
       get_section (fields newParsed) section !! f
         = get_section (fields parsed) section !! f) /\
    get_section (fields newParsed) section !! field = Some value /\
    confidence newParsed = confidence parsed /\
    raw_description newParsed = raw_description parsed.
Proof.
  unfold updateField.
  destruct (bool_decide (section <> active_section parsed) && strict_ne value VNull
            && strict_ne value (VStr "") && strict_ne value (VBool false));
    eexists; (split; [reflexivity|]); cbn [fields confidence raw_description];
    (split; [intros s Hs; apply get_set_section_ne; assumption|]);
    (split; [intros f Hf; rewrite get_set_section_eq; apply lookup_insert_ne; congruence|]);
    (split; [rewrite get_set_section_eq; apply lookup_insert_eq|]);
    split; reflexivity.
Qed.

(** The two halves of C3 on the empty record: a mileage figure typed into
    the mileage section makes it active, clearing a field there does not. *)
Lemma updateField_active_section_witness :
  (exists p, updateField (Some createEmptyParsedReceipt) travel_mileage "miles"
               (VNum 12) = Some p /\ active_section p = travel_mileage) /\
  (exists p, updateField (Some createEmptyParsedReceipt) travel_mileage "from_location"
               (VStr "") = Some p /\ active_section p = other).
Proof.
  split.
  - destruct (updateField_active_section createEmptyParsedReceipt travel_mileage
                "miles" (VNum 12)) as (p & Hp & Hswitch & _).
    exists p. split; [exact Hp|]. apply Hswitch; discriminate.
  - destruct (updateField_active_section createEmptyParsedReceipt travel_mileage
                "from_location" (VStr "")) as (p & Hp & _ & Hkeep).
    exists p. split; [exact Hp|]. apply Hkeep. right. left. reflexivity.
Defined.

End ReviewProps.

(** ** Properties of the header's copy in local storage *)

Module JsonProps.
Import Json Header.

Local Open Scope N_scope.

Lemma hex_value_hex_digit d : d < 16 -> hex_value (hex_digit d) = Some d.
Proof.
  intros H. unfold hex_digit, hex_value.
  destruct (d <? 10) eqn:Hd.
  - apply N.ltb_lt in Hd.
    replace ((48 <=? 48 + d) && (48 + d <=? 57)) with true
      by (symmetry; apply andb_true_intro; split; apply N.leb_le; lia).
    f_equal. lia.
  - apply N.ltb_ge in Hd.
    replace ((48 <=? 87 + d) && (87 + d <=? 57)) with false
      by (symmetry; apply andb_false_intro2; apply N.leb_gt; lia).
    replace ((97 <=? 87 + d) && (87 + d <=? 102)) with true
      by (symmetry; apply andb_true_intro; split; apply N.leb_le; lia).
    f_equal. lia.
Qed.

Lemma parse_body_raw u rest :
  u <> 34 -> u <> 92 -> 32 <= u ->
  parse_body (u :: rest) = push u (parse_body rest).
Proof.
  intros H1 H2 H3. cbn [parse_body].
  apply N.eqb_neq in H1. apply N.eqb_neq in H2. apply N.ltb_ge in H3.
  rewrite H1, H2, H3. reflexivity.
Qed.

Lemma parse_body_unicode_escape u rest :
  code_unit u ->
  parse_body (unicode_escape u ++ rest) = push u (parse_body rest).
Proof.
  unfold code_unit. intros Hu. unfold unicode_escape.
  cbn [app parse_body N.eqb Pos.eqb].
  rewrite !hex_value_hex_digit by (apply N.mod_lt; discriminate).
  replace (((u / 4096 mod 16 * 16 + u / 256 mod 16) * 16 + u / 16 mod 16) * 16
           + u mod 16) with u
    by (zify; Z.to_euclidean_division_equations; lia).
  reflexivity.
Qed.

Lemma parse_body_quote_unit u rest :
  code_unit u ->
  parse_body (quote_unit u ++ rest) = push u (parse_body rest).
Proof.
  intros Hu. unfold quote_unit.
  repeat match goal with
         | |- context [if ?c =? ?k then _ else _] =>
             destruct (N.eqb_spec c k); [subst; reflexivity|]
         end.
  destruct ((u <? 32) || is_leading_surrogate u || is_trailing_surrogate u) eqn:He.
  - apply parse_body_unicode_escape. assumption.
  - apply orb_false_elim in He as [He _]. apply orb_false_elim in He as [He _].
    apply N.ltb_ge in He. cbn [app]. apply parse_body_raw; assumption.
Qed.

Lemma parse_body_surrogate_pair u v rest :
  is_leading_surrogate u && is_trailing_surrogate v = true ->
  parse_body (u :: v :: rest) = push u (push v (parse_body rest)).
Proof.
  unfold is_leading_surrogate, is_trailing_surrogate.
  intros H. apply andb_prop in H as [Hu Hv].
  apply andb_prop in Hu as [Hu _]. apply andb_prop in Hv as [Hv _].
  apply N.leb_le in Hu. apply N.leb_le in Hv.
  rewrite parse_body_raw by lia. rewrite parse_body_raw by lia. reflexivity.
Qed.

Lemma quote_body_cons_cons u v s :
  quote_body (u :: v :: s) =
    if is_leading_surrogate u && is_trailing_surrogate v
    then u :: v :: quote_body s
    else (quote_unit u ++ quote_body (v :: s))%list.
Proof. reflexivity. Qed.

Lemma parse_body_quote_body_bounded (n : nat) (s rest : jsstring) :
  (length s <= n)%nat -> Forall code_unit s ->
  parse_body (quote_body s ++ 34 :: rest) = Some (s, rest).
Proof.
  revert s. induction n as [|n IH]; intros s Hlen Hs.
  - destruct s; [reflexivity|cbn in Hlen; lia].
  - destruct s as [|u [|v s']]; [reflexivity| |].
    + cbn [quote_body]. apply Forall_cons in Hs as [Hu _].
      rewrite parse_body_quote_unit by assumption. reflexivity.
    + apply Forall_cons in Hs as [Hu Hs]. rewrite quote_body_cons_cons.
      destruct (is_leading_surrogate u && is_trailing_surrogate v) eqn:Hpair.
      * cbn [app]. rewrite parse_body_surrogate_pair by assumption.
        apply Forall_cons in Hs as [_ Hs].
        rewrite (IH s'); [reflexivity| |assumption]. cbn in Hlen. lia.
      * rewrite <- app_assoc, parse_body_quote_unit by assumption.
        rewrite (IH (v :: s')); [reflexivity| |assumption]. cbn in Hlen |- *. lia.
Qed.

(** Reading back a quoted string gives the string. *)
Lemma parse_string_quote (s rest : jsstring) :
  Forall code_unit s -> parse_string (quote s ++ rest) = Some (s, rest).
Proof.
  intros Hs. unfold quote, parse_string. cbn [app N.eqb Pos.eqb].
  rewrite <- app_assoc. apply (parse_body_quote_body_bounded (length s)); auto.
Qed.

Lemma set_property_fresh (acc : jsonobj) k v :
  k ∉ fst <$> acc -> set_property acc k v = (acc ++ [(k, v)])%list.
Proof.
  induction acc as [|[k' v'] acc IH]; intros Hk; [reflexivity|].
  cbn [set_property app]. cbn [fmap list_fmap fst] in Hk.
  apply not_elem_of_cons in Hk as [Hne Hk].
  rewrite bool_decide_eq_false_2 by congruence. rewrite IH by assumption.
  reflexivity.
Qed.

Lemma stringify_members_cons k v (rest : jsonobj) :
  stringify_members ((k, v) :: rest) =
    (quote k ++ 58 :: quote v ++
     match rest with [] => [] | _ :: _ => 44 :: stringify_members rest end)%list.
Proof. reflexivity. Qed.

Lemma parse_members_stringify (o acc : jsonobj) (fuel : nat) :
  o <> [] -> (length o <= fuel)%nat -> object_strings o ->
  NoDup (fst <$> (acc ++ o)%list) ->
  parse_members fuel (stringify_members o ++ [125]) acc = Some (acc ++ o)%list.
Proof.
  revert acc fuel. induction o as [|[k v] rest IH]; intros acc fuel Hne Hfuel Hstr Hnd;
    [congruence|].
  destruct fuel as [|fuel]; [cbn in Hfuel; lia|].
  apply Forall_cons in Hstr as [[Hk Hv] Hstr]. cbn [fst snd] in Hk, Hv.
  assert (Hfresh : k ∉ fst <$> acc).
  { rewrite fmap_app in Hnd. apply NoDup_app in Hnd as (_ & Hdisj & _).
    intros Hin. apply (Hdisj k Hin). cbn. left. }
  rewrite stringify_members_cons. cbn [parse_members].
  rewrite <- app_assoc, parse_string_quote by assumption.
  cbn [app N.eqb Pos.eqb].
  rewrite <- app_assoc, parse_string_quote by assumption.
  rewrite set_property_fresh by assumption.
  destruct rest as [|p rest].
  - reflexivity.
  - cbn [app N.eqb Pos.eqb].
    rewrite IH; [rewrite <- app_assoc; reflexivity|discriminate| |assumption|].
    + cbn in Hfuel |- *. lia.
    + rewrite <- app_assoc. exact Hnd.
Qed.

Lemma stringify_members_length (o : jsonobj) :
  (length o <= length (stringify_members o))%nat.
Proof.
  induction o as [|[k v] rest IH]; [reflexivity|].
  rewrite stringify_members_cons. unfold quote.
  destruct rest as [|p rest].
  - cbn. lia.
  - cbn [length app]. rewrite !length_app. cbn [length app] in *.
    rewrite !length_app. cbn [length]. lia.
Qed.

(** [JSON.parse(JSON.stringify(o))] is [o], for an object of string
    properties with distinct keys. *)
Lemma JSON_parse_stringify (o : jsonobj) :
  object_strings o -> NoDup (fst <$> o) ->
  JSON_parse (JSON_stringify o) = Some o.
Proof.
  intros Hstr Hnd. unfold JSON_stringify, JSON_parse. cbn [N.eqb Pos.eqb].
  destruct o as [|[k v] rest]; [reflexivity|].
  assert (Hshape : exists c1 c2 l,
             (stringify_members ((k, v) :: rest) ++ [125])%list = c1 :: c2 :: l).
  { rewrite stringify_members_cons. unfold quote.
    destruct (quote_body k); cbn; eauto. }
  destruct Hshape as (c1 & c2 & l & Hshape).
  pose proof (parse_members_stringify ((k, v) :: rest) []
                (length (stringify_members ((k, v) :: rest) ++ [125])%list)) as Hparse.
  rewrite Hshape in *.
  apply Hparse; [discriminate| |assumption|exact Hnd].
  rewrite <- Hshape, length_app. pose proof (stringify_members_length ((k, v) :: rest)).
  cbn [length] in *. lia.
Qed.

Lemma lit_code_units (s : string) : Forall code_unit (lit s).
Proof.
  unfold lit. induction (list_ascii_of_string s) as [|a l IH]; cbn; constructor;
    [|assumption].
  unfold code_unit. pose proof (N_ascii_bounded a). lia.
Qed.

Lemma to_object_strings h : well_formed h -> object_strings (to_object h).
Proof.
  unfold well_formed, object_strings, to_object. intros H.
  repeat match goal with
         | H : Forall _ (_ :: _) |- _ => apply Forall_cons in H as [? H]
         end.
  repeat (apply Forall_cons; split;
          [split; [cbn [fst]; apply lit_code_units|assumption]|]).
  constructor.
Qed.

Lemma to_object_keys h : NoDup (fst <$> to_object h).
Proof. unfold to_object. cbn [fmap list_fmap fst]. compute_done. Qed.

(** C8: a header record whose strings are sequences of 16-bit code units
    survives the trip through local storage unchanged:
    [JSON.parse(JSON.stringify(h))] is [h], and the initialiser of the next
    session, reading what the save effect stored, returns [h]. *)
Theorem headerInfo_reloads_verbatim (h : HeaderInfo) (localStorage : Storage) :
  well_formed h ->
  JSON_parse (JSON_stringify (to_object h)) = Some (to_object h) /\
  initialHeaderInfo true (saveHeaderInfo (to_object h) localStorage)
    = Some (to_object h).
Proof.
  intros Hwf.
  assert (Hrt : JSON_parse (JSON_stringify (to_object h)) = Some (to_object h))
    by (apply JSON_parse_stringify; [apply to_object_strings, Hwf|apply to_object_keys]).
  split; [exact Hrt|].
  unfold initialHeaderInfo, saveHeaderInfo. rewrite lookup_insert_eq.
  unfold JSON_stringify at 1. cbn [app]. exact Hrt.
Qed.

(** C8 on a header whose address holds quotes and a line break and whose
    bank name holds an accent, a backslash, a surrogate pair and a lone
    surrogate. *)
Lemma headerInfo_reloads_verbatim_witness :
  well_formed Scenarios.jane /\
  JSON_parse (JSON_stringify (to_object Scenarios.jane))
    = Some (to_object Scenarios.jane) /\
  initialHeaderInfo true (saveHeaderInfo (to_object Scenarios.jane) ∅)
    = Some (to_object Scenarios.jane).
Proof.
  assert (Hwf : well_formed Scenarios.jane).
  { unfold well_formed, code_unit. apply (bool_decide_unpack _). vm_compute. exact I. }
  split; [exact Hwf|].
  exact (headerInfo_reloads_verbatim Scenarios.jane ∅ Hwf).
Defined.

End JsonProps.

(** ** Properties of the transition system *)

Module UiProps.
Import Page Ui PageProps.

Implicit Types (ui : Ui) (c : Call) (l : list Call).

Lemma only_parse_calls_none l :
  forallb is_parse_call l = true -> existsb is_parse_call l = false -> l = [].
Proof.
  destruct l as [|c l]; [reflexivity|]. cbn. intros Hall Hex.
  apply andb_prop in Hall as [Hc _]. rewrite Hc in Hex. discriminate.
Qed.

Lemma existsb_elem l c :
  c ∈ l -> is_parse_call c = true -> existsb is_parse_call l = true.
Proof.
  intros Hin Hc. apply existsb_exists. exists c.
  split; [apply list_elem_of_In; assumption|assumption].
Qed.

Lemma forallb_elem l c :
  forallb is_parse_call l = true -> c ∈ l -> is_parse_call c = true.
Proof.
  intros Hall Hin. rewrite forallb_forall in Hall. apply Hall, list_elem_of_In, Hin.
Qed.

Lemma forallb_sublist l l' :
  l' `sublist_of` l -> forallb is_parse_call l = true -> forallb is_parse_call l' = true.
Proof.
  intros Hsub Hall. apply forallb_forall. intros c Hin.
  apply (forallb_elem l); [assumption|].
  eapply elem_of_sublist; [apply list_elem_of_In; eassumption|assumption].
Qed.

Lemma delete_elem_target l k c0 c :
  NoDup (target <$> l) -> l !! k = Some c0 -> c ∈ delete k l ->
  c ∈ l /\ target c <> target c0.
Proof.
  intros Hnd Hk Hin. apply list_elem_of_lookup in Hin as [j Hj].
  rewrite list_lookup_delete in Hj.
  destruct (decide (j < k)%nat) as [Hlt|Hge].
  - split; [apply list_elem_of_lookup; eauto|]. intros Heq.
    assert (H1 : (target <$> l) !! j = Some (target c))
      by (rewrite list_lookup_fmap, Hj; reflexivity).
    assert (H2 : (target <$> l) !! k = Some (target c))
      by (rewrite list_lookup_fmap, Hk; cbn; congruence).
    pose proof (NoDup_lookup _ _ _ _ Hnd H1 H2). lia.
  - split; [apply list_elem_of_lookup; eauto|]. intros Heq.
    assert (H1 : (target <$> l) !! S j = Some (target c))
      by (rewrite list_lookup_fmap, Hj; reflexivity).
    assert (H2 : (target <$> l) !! k = Some (target c))
      by (rewrite list_lookup_fmap, Hk; cbn; congruence).
    pose proof (NoDup_lookup _ _ _ _ Hnd H1 H2). lia.
Qed.

Lemma finish_batch_in_flight ui : in_flight (finish_batch ui) = in_flight ui.
Proof. unfold finish_batch. destruct (existsb _ _); reflexivity. Qed.

(** A batch that leaves only extraction calls in flight, flagged as running
    on the upload screen, keeps the invariant when it is closed. *)
Lemma finish_batch_inv ui :
  NoDup (target <$> in_flight ui) ->
  forallb is_parse_call (in_flight ui) = true ->
  st_processing (page ui) = true -> appState (page ui) = upload ->
  Inv (finish_batch ui).
Proof.
  intros Hnd Hall Hproc Happ. unfold Inv. rewrite finish_batch_in_flight.
  split; [assumption|]. unfold finish_batch.
  destruct (existsb is_parse_call (in_flight ui)) eqn:Hex.
  - split; [auto|]. rewrite Happ. discriminate.
  - rewrite (only_parse_calls_none _ Hall Hex). cbn. split; [discriminate|].
    intros _ c Hc. inversion Hc.
Qed.

Lemma review_no_parse_call ui :
  Inv ui -> appState (page ui) = review ->
  existsb is_parse_call (in_flight ui) = false.
Proof.
  intros (_ & Hbatch & _) Happ.
  destruct (existsb is_parse_call (in_flight ui)); [|reflexivity].
  destruct (Hbatch eq_refl) as (_ & Hup & _). congruence.
Qed.

Lemma displayed_Some ui receipt :
  displayed ui = Some receipt ->
  appState (page ui) = review /\
  receipts (page ui) !! currentIndex (page ui) = Some receipt.
Proof.
  unfold displayed. destruct (appState (page ui)); [discriminate|]. auto.
Qed.

Lemma existsb_sublist l l' :
  l' `sublist_of` l -> existsb is_parse_call l' = true ->
  existsb is_parse_call l = true.
Proof.
  intros Hsub Hex. apply existsb_exists in Hex as (c & Hin & Hc).
  apply existsb_exists. exists c. split; [|assumption].
  apply list_elem_of_In. eapply elem_of_sublist; [|eassumption].
  apply list_elem_of_In. assumption.
Qed.

Lemma forallb_insert l k c :
  forallb is_parse_call l = true -> is_parse_call c = true ->
  forallb is_parse_call (<[k := c]> l) = true.
Proof.
  revert k. induction l as [|c0 l IH]; intros k Hall Hc; [reflexivity|].
  cbn in Hall. apply andb_prop in Hall as [H0 Hall].
  destruct k as [|k]; cbn; rewrite ?Hc, ?H0; cbn; auto.
Qed.

(** A receipt update that leaves [processing] alone keeps the flags of the
    calls in flight. *)
Lemma flagged_map_at (rs : list (Receipt jsobj)) i f j :
  (forall r, processing (f r) = processing r) ->
  (exists r, rs !! j = Some r /\ processing r = true) ->
  exists r, map_at i f rs !! j = Some r /\ processing r = true.
Proof.
  intros Hf (r & Hr & Hp). rewrite map_at_lookup, Hr.
  destruct (decide (j = i)); cbn; eexists; (split; [reflexivity|]);
    rewrite ?Hf; assumption.
Qed.

Lemma step_inv ui a ui' :
  Inv ui ->
  (a = ProcessAll -> forallb is_parse_call (in_flight ui) = true) ->
  step ui a = Some ui' ->
  Inv ui'.
Proof.
  intros Hinv Hidle Hstep.
  destruct a; cbn [step] in Hstep.
  - (* FilesAdded *)
    destruct (appState (page ui)) eqn:Happ; [|discriminate].
    pose proof Hinv as (Hnd & Hbatch & Hflag).
    inversion Hstep; subst ui'. unfold Inv. cbn.
    split; [assumption|]. split; [assumption|]. rewrite Happ. discriminate.
  - (* ClearAll *)
    destruct (appState (page ui)) eqn:Happ; [|discriminate].
    destruct (receipts (page ui)); [discriminate|].
    pose proof Hinv as (Hnd & Hbatch & Hflag).
    inversion Hstep; subst ui'. unfold Inv. cbn.
    split; [assumption|]. split; [assumption|]. rewrite Happ. discriminate.
  - (* ProcessAll *)
    destruct (appState (page ui)) eqn:Happ; [|discriminate].
    destruct (receipts (page ui)) eqn:Hrs; [discriminate|]. rewrite <- Hrs in *.
    destruct (st_processing (page ui)) eqn:Hproc; [discriminate|].
    pose proof Hinv as (Hnd & Hbatch & Hflag).
    assert (Hnone : in_flight ui = []).
    { apply only_parse_calls_none; [auto|].
      destruct (existsb is_parse_call (in_flight ui)); [|reflexivity].
      destruct (Hbatch eq_refl) as (Ht & _). congruence. }
    inversion Hstep; subst ui'. rewrite Hnone. cbn [app].
    apply finish_batch_inv; cbn [in_flight page st_processing appState
                                 with_receipts with_processing].
    + rewrite <- list_fmap_compose.
      rewrite (list_fmap_ext _ snd (toProcess_of (receipts (page ui))))
        by (intros ? [? ?]; reflexivity).
      apply toProcess_of_NoDup.
    + apply forallb_forall. intros c Hc. apply in_map_iff in Hc as (p & <- & _).
      reflexivity.
    + reflexivity.
    + assumption.
  - (* BackToUpload *)
    destruct (appState (page ui)) eqn:Happ; [discriminate|].
    pose proof Hinv as (Hnd & Hbatch & Hflag).
    inversion Hstep; subst ui'. unfold Inv. cbn.
    split; [assumption|]. split; [|discriminate].
    rewrite (review_no_parse_call ui Hinv Happ). discriminate.
  - (* TypeInput *)
    destruct (displayed ui); [|discriminate]. inversion Hstep; subst ui'. exact Hinv.
  - (* SelectMode *)
    destruct (displayed ui); [|discriminate]. inversion Hstep; subst ui'. exact Hinv.
  - (* ClickReparse *)
    destruct (displayed ui) as [receipt|] eqn:Hdisp; [|discriminate].
    apply displayed_Some in Hdisp as [Happ Hcur].
    destruct (reparse_disabled (userInput ui) receipt) eqn:Hdis; [discriminate|].
    destruct (trim_is_empty (userInput ui)); [discriminate|].
    pose proof Hinv as (Hnd & Hbatch & Hflag).
    apply orb_false_elim in Hdis as [_ Hidlep].
    inversion Hstep; subst ui'. unfold Inv. cbn.
    split; [|split].
    + rewrite fmap_app. apply NoDup_app. split; [assumption|]. split.
      * intros i Hi Hi'. apply list_elem_of_singleton in Hi'. subst i.
        apply list_elem_of_fmap in Hi as (c & Hc & Hin).
        destruct (Hflag Happ c Hin) as (r & Hr & Hp).
        cbn [target] in Hc. rewrite <- Hc, Hcur in Hr. congruence.
      * apply NoDup_singleton.
    + rewrite existsb_app, (review_no_parse_call ui Hinv Happ). discriminate.
    + intros _ c Hc. destruct (decide (target c = currentIndex (page ui))) as [->|Hne].
      * rewrite map_at_lookup_eq, Hcur. eexists. split; reflexivity.
      * rewrite map_at_lookup_ne by assumption. apply (Hflag Happ).
        apply elem_of_app in Hc as [Hc|Hc]; [assumption|].
        apply list_elem_of_singleton in Hc. subst c. contradiction.
  - (* Approve *)
    destruct (displayed ui) as [receipt|] eqn:Hdisp; [|discriminate].
    apply displayed_Some in Hdisp as [Happ Hcur].
    destruct (approve_disabled receipt); [discriminate|].
    pose proof Hinv as (Hnd & Hbatch & Hflag).
    inversion Hstep; subst ui'. unfold Inv.
    assert (Hrs : forall b,
               receipts (if b : bool
                         then with_currentIndex (currentIndex (page ui) + 1)
                                (with_receipts
                                   (map_at (currentIndex (page ui)) mark_approved) (page ui))
                         else with_receipts
                                (map_at (currentIndex (page ui)) mark_approved) (page ui))
               = map_at (currentIndex (page ui)) mark_approved (receipts (page ui)))
      by (intros []; reflexivity).
    cbn [in_flight page with_page].
    split; [assumption|]. split.
    + rewrite (review_no_parse_call ui Hinv Happ). discriminate.
    + intros _ c Hc. rewrite Hrs. apply flagged_map_at; [reflexivity|].
      apply (Hflag Happ c Hc).
  - (* SelectReceipt *)
    destruct (displayed ui); [|discriminate].
    destruct (i <? length (receipts (page ui)))%nat; [|discriminate].
    inversion Hstep; subst ui'. exact Hinv.
  - (* SettleParse *)
    destruct (in_flight ui !! k) as [[idx attempt lastError|]|] eqn:Hk; try discriminate.
    pose proof Hinv as (Hnd & Hbatch & Hflag).
    assert (Hin : ParseCall idx attempt lastError ∈ in_flight ui)
      by (apply list_elem_of_lookup; eauto).
    destruct (Hbatch (existsb_elem _ _ Hin eq_refl)) as (Hproc & Happ & Hall).
    assert (Hdone : forall f,
               Inv (finish_batch
                      (mkUi (with_receipts f (page ui)) (userInput ui) (parseMode ui)
                         (delete k (in_flight ui))))).
    { intros f. apply finish_batch_inv; cbn.
      - rewrite list_fmap_delete. eapply sublist_NoDup; [exact Hnd|apply sublist_delete].
      - eapply forallb_sublist; [apply sublist_delete|exact Hall].
      - exact Hproc.
      - exact Happ. }
    destruct (response_outcome http_message resp) as [data|m].
    + inversion Hstep; subst ui'. apply Hdone.
    + destruct (attempt <? MAX_RETRIES)%nat.
      * inversion Hstep; subst ui'. unfold Inv. cbn.
        split; [|split].
        -- rewrite list_fmap_insert. cbn [target].
           rewrite list_insert_id; [assumption|].
           rewrite list_lookup_fmap, Hk. reflexivity.
        -- intros _. split; [assumption|]. split; [assumption|].
           apply forallb_insert; [assumption|reflexivity].
        -- rewrite Happ. discriminate.
      * inversion Hstep; subst ui'. apply Hdone.
  - (* SettleReparse *)
    destruct (in_flight ui !! k) as [[|index]|] eqn:Hk; try discriminate.
    pose proof Hinv as (Hnd & Hbatch & Hflag).
    assert (Hin : ReparseCall index ∈ in_flight ui)
      by (apply list_elem_of_lookup; eauto).
    assert (Hnone : existsb is_parse_call (in_flight ui) = false).
    { destruct (existsb is_parse_call (in_flight ui)) eqn:Hex; [|reflexivity].
      destruct (Hbatch eq_refl) as (_ & _ & Hall).
      pose proof (forallb_elem _ _ Hall Hin). discriminate. }
    inversion Hstep; subst ui'. unfold Inv. cbn.
    split; [|split].
    + rewrite list_fmap_delete. eapply sublist_NoDup; [exact Hnd|apply sublist_delete].
    + intros Hex. pose proof (existsb_sublist _ _ (sublist_delete _ k) Hex). congruence.
    + intros Happ c Hc.
      destruct (delete_elem_target _ _ _ _ Hnd Hk Hc) as [Hc' Hne]. cbn [target] in Hne.
      rewrite map_at_lookup_ne by assumption. apply (Hflag Happ c Hc').
Qed.

Lemma initial_inv model : Inv (initial model).
Proof.
  unfold Inv, initial. cbn. split; [constructor|]. split; [discriminate|].
  intros _ c Hc. inversion Hc.
Qed.

Lemma run_inv trace ui ui' :
  Inv ui -> batches_start_idle ui trace = true -> run ui trace = Some ui' -> Inv ui'.
Proof.
  revert ui. induction trace as [|a trace IH]; intros ui Hinv Hidle Hrun.
  - inversion Hrun; subst. assumption.
  - cbn [run batches_start_idle] in *.
    apply andb_prop in Hidle as [Ha Hidle].
    destruct (step ui a) as [ui1|] eqn:Hstep; [|discriminate].
    apply (IH ui1); [|assumption|assumption].
    apply (step_inv ui a); [assumption| |assumption].
    intros ->. exact Ha.
Qed.

(** The transition system and the handler agree: a click on Re-parse
    followed by the answer to that call leaves the page as a run of
    [handleReparse] against a server giving that answer. *)
Lemma click_then_settle_is_handleReparse ui ui1 (env : Env jsobj) receipt :
  displayed ui = Some receipt ->
  step ui ClickReparse = Some ui1 ->
  exists ui2,
    step ui1 (SettleReparse (length (in_flight ui))
                (reparse_response env (parseMode ui) (selectedModel (page ui))
                   (userInput ui) (parsed receipt)))
      = Some ui2 /\
    in_flight ui2 = in_flight ui /\
    page ui2 =
      snd (fst (handleReparse env (currentIndex (page ui)) (userInput ui)
                  (parseMode ui) (page ui))).
Proof.
  intros Hdisp Hstep. cbn [step] in Hstep. rewrite Hdisp in Hstep.
  destruct (reparse_disabled (userInput ui) receipt); [discriminate|].
  destruct (trim_is_empty (userInput ui)); [discriminate|].
  inversion Hstep; subst ui1. clear Hstep.
  apply displayed_Some in Hdisp as [_ Hcur].
  cbn [step in_flight page userInput parseMode].
  rewrite list_lookup_middle by reflexivity.
  rewrite (handleReparse_run env (page ui) _ _ _ receipt Hcur).
  eexists. split; [reflexivity|]. cbn [in_flight page snd fst].
  split; [|reflexivity].
  rewrite delete_middle. apply app_nil_r.
Qed.

(** On the session whose server is down, the transition system, fed the
    three failures, leaves the receipts as [processAllReceipts] does. *)
Example batch_agrees_with_processAllReceipts :
  (fun ui => (receipts (page ui), appState (page ui), st_processing (page ui)))
    <$> run (mkUi Scenarios.fresh_upload "" image [])
          [ ProcessAll;
            SettleParse 0 (NetworkFailure "Failed to fetch") "2025-01-10T09:30:00.000Z";
            SettleParse 0 (NetworkFailure "Failed to fetch") "2025-01-10T09:30:00.000Z";
            SettleParse 0 (NetworkFailure "Failed to fetch") "2025-01-10T09:30:00.000Z" ]
  = Some (let st := snd (fst (processAllReceipts Scenarios.server_down
                                Scenarios.fresh_upload)) in
          (receipts st, appState st, st_processing st)).
Proof. vm_compute. reflexivity. Qed.

(** C9: that no two concurrent calls mutate the same receipt's record does
    not hold of the screens.  In the session below a re-parse of the
    unparsed receipt 1 is still in flight when "Process All", which filters
    on [!parsed && file] and not on [processing], submits the same receipt
    for extraction: both calls will write to it. *)
Lemma overlapping_calls_reachable :
  in_flight <$> run (initial "qwen/qwen3-vl-235b-a22b-instruct")
                  Scenarios.overlapping_session
    = Some [ReparseCall 1; ParseCall 1 1 None] /\
  batches_start_idle (initial "qwen/qwen3-vl-235b-a22b-instruct")
    Scenarios.overlapping_session = false.
Proof. split; vm_compute; reflexivity. Qed.

(** The single-flight discipline as far as the screens keep it: a re-parse
    request is issued only for a displayed receipt whose [processing] flag
    is false, whether by the Re-parse button of the flat review or by the
    Apply button or the Enter key of the sectioned one, and issuing it sets
    the flag.  In the sessions where "Process All" is never pressed while a
    re-parse call is in flight, no two calls in flight write to the same
    receipt, and on the review screen the receipt of every call in flight
    has its flag set. *)
Theorem reparse_needs_idle_receipt :
  (forall ui ui',
      step ui ClickReparse = Some ui' ->
      exists receipt,
        displayed ui = Some receipt /\
        processing receipt = false /\
        in_flight ui' = (in_flight ui ++ [ReparseCall (currentIndex (page ui))])%list /\
        displayed ui' = Some (mark_processing receipt)) /\
  (forall (P : Type) (userInput : string) (receipt : Receipt P),
      apply_click_reparses userInput receipt = true \/
      enter_key_reparses userInput receipt = true ->
      processing receipt = false) /\
  (forall model trace ui,
      run (initial model) trace = Some ui ->
      batches_start_idle (initial model) trace = true ->
      single_flight ui /\
      (appState (page ui) = review ->
       forall c, c ∈ in_flight ui ->
         exists r, receipts (page ui) !! target c = Some r /\ processing r = true)).
Proof.
  split; [|split].
  - intros ui ui' Hstep. cbn [step] in Hstep.
    destruct (displayed ui) as [receipt|] eqn:Hdisp; [|discriminate].
    destruct (reparse_disabled (userInput ui) receipt) eqn:Hdis; [discriminate|].
    destruct (trim_is_empty (userInput ui)); [discriminate|].
    apply orb_false_elim in Hdis as [_ Hidle].
    inversion Hstep; subst ui'. exists receipt.
    split; [reflexivity|]. split; [exact Hidle|]. split; [reflexivity|].
    apply displayed_Some in Hdisp as [Happ Hcur].
    unfold displayed. cbn. rewrite Happ, map_at_lookup_eq, Hcur. reflexivity.
  - intros P userInput receipt.
    unfold apply_click_reparses, enter_key_reparses, chat_rendered.
    destruct (processing receipt); [|reflexivity].
    rewrite !andb_false_r. cbn. intros [H|H]; discriminate.
  - intros model trace ui Hrun Hidle.
    destruct (run_inv trace (initial model) ui (initial_inv model) Hidle Hrun)
      as (Hnd & _ & Hflag).
    split; [exact Hnd|exact Hflag].
Qed.

(** The discipline on the session in which the answer to the re-parse is
    awaited before "Process All": one call in flight, for receipt 1. *)
Lemma reparse_needs_idle_receipt_witness :
  exists ui,
    run (initial "qwen/qwen3-vl-235b-a22b-instruct") Scenarios.patient_session = Some ui /\
    in_flight ui = [ParseCall 1 1 None] /\
    single_flight ui.
Proof.
  eexists. split; [vm_compute; reflexivity|]. split; [reflexivity|].
  apply (proj2 (proj2 reparse_needs_idle_receipt)
           "qwen/qwen3-vl-235b-a22b-instruct" Scenarios.patient_session);
    vm_compute; reflexivity.
Defined.

End UiProps.

(** ** More of the orchestrator: how its runs end and compose *)

Module PageMore.
Import Page PageProps Trace.

Section Batch.
Variable env : Env jsobj.
Implicit Types (st : State jsobj) (r : Receipt jsobj) (rs : list (Receipt jsobj)).

Lemma settle_all_cells toProcess model total completed st :
  exists st',
    settle_all env toProcess model total completed st =
      (batch_events env model toProcess, st', Returned (completed + length toProcess)) /\
    receipts st' = settled env toProcess (receipts st) /\
    same_screen st st' /\
    processingProgress st' =
      match toProcess with
      | [] => processingProgress st
      | _ :: _ => (completed + length toProcess, total)
      end.
Proof.
  revert completed st.
  induction toProcess as [|[receipt idx] rest IH]; intros completed st.
  - exists st. cbn. rewrite Nat.add_0_r. repeat split; reflexivity.
  - cbn [settle_all]. unfold mbind, M_bind, bind.
    rewrite processOne_run. cbn [setProcessingProgress].
    match goal with
    | |- context [settle_all env rest model total (S completed) ?s] =>
        destruct (IH (S completed) s) as (st' & Hrun & Hrs & Hscreen & Hprog);
        rewrite Hrun
    end.
    exists st'. split; [|split; [|split]].
    + cbn [Page.batch_events flat_map fst snd length].
      rewrite Nat.add_succ_r. reflexivity.
    + rewrite Hrs. reflexivity.
    + exact Hscreen.
    + rewrite Hprog. clear. destruct rest as [|p rest]; cbn.
      * rewrite Nat.add_1_r. reflexivity.
      * rewrite !Nat.add_succ_r. reflexivity.
Qed.

Lemma processAllReceipts_closed st :
  processAllReceipts env st =
    (Page.batch_events env (selectedModel st) (toProcess_of (receipts st)),
     mkState
       (imap (fun idx r =>
                if to_process r then Page.final_update env idx (mark_processing r) else r)
          (receipts st))
       review (currentIndex st) (selectedModel st) false
       (length (toProcess_of (receipts st)), length (toProcess_of (receipts st))),
     Returned tt).
Proof.
  destruct (processAllReceipts_run env st) as (st0 & Hrun0 & Hrs0 & _ & _).
  rewrite <- Hrs0. revert Hrun0.
  unfold processAllReceipts, mbind, M_bind, bind, getState.
  cbn [setProcessing setProcessingProgress setReceipts].
  match goal with
  | |- context [settle_all env ?L ?m ?t 0 ?s] =>
      destruct (settle_all_cells L m t 0 s)
        as (st1 & Hrun & _ & (Happ & Hcur & Hmodel & _) & Hprog);
      rewrite Hrun
  end.
  cbn [setAppState setProcessing app]. rewrite app_nil_r.
  intros Heq. inversion Heq; subst st0. clear Heq.
  cbn in Hcur, Hmodel, Hprog. unfold with_appState, with_processing.
  cbn [receipts appState currentIndex selectedModel st_processing processingProgress].
  rewrite Hcur, Hmodel, Hprog.
  destruct (toProcess_of (receipts st)); reflexivity.
Qed.

Lemma nothing_to_update (f : nat -> Receipt jsobj -> Receipt jsobj) rs :
  toProcess_of rs = [] ->
  imap (fun idx r => if to_process r then f idx r else r) rs = rs.
Proof.
  intros Hn. apply list_eq. intros i. rewrite list_lookup_imap.
  destruct (rs !! i) as [r|] eqn:Hr; [|reflexivity]. cbn.
  destruct (to_process r) eqn:Hp; [|reflexivity].
  assert (Hin : (r, i) ∈ toProcess_of rs) by (apply toProcess_of_elem; auto).
  rewrite Hn in Hin. inversion Hin.
Qed.

Lemma not_fails_returned {D} (resp : Response D) :
  fails resp = false ->
  exists data, forall bad, response_outcome bad resp = Returned data.
Proof.
  destruct resp as [m|status [m|d]]; cbn; try discriminate.
  - destruct (negb (ok status)); discriminate.
  - destruct (negb (ok status)); [discriminate|]. intros _. exists d. reflexivity.
Qed.

Lemma loop_events_elsewhere r i model attempts idx :
  i <> idx ->
  requested_attempts idx (Page.loop_events env r i model attempts) = [].
Proof.
  intros Hne. apply Nat.eqb_neq in Hne.
  induction attempts as [|a rest IH]; [reflexivity|].
  unfold requested_attempts in *. cbn [Page.loop_events flat_map]. rewrite Hne. cbn [app].
  destruct (Page.attempt_outcome env i a); [reflexivity|].
  cbn [flat_map app]. rewrite flat_map_app, IH, app_nil_r.
  destruct (a <? MAX_RETRIES)%nat; reflexivity.
Qed.

(** The rounds of one call: 1 to [k], where [k] is the first round that
    succeeds, or [MAX_RETRIES]. *)
Lemma loop_events_attempts r idx model :
  exists k,
    1 <= k <= MAX_RETRIES /\
    requested_attempts idx (Page.loop_events env r idx model (seq 1 MAX_RETRIES))
      = seq 1 k /\
    (forall a, 1 <= a < k -> fails (parse_response env idx a) = true) /\
    (k < MAX_RETRIES -> fails (parse_response env idx k) = false).
Proof.
  unfold MAX_RETRIES, requested_attempts. cbn [seq Page.loop_events].
  unfold Page.attempt_outcome.
  destruct (fails (parse_response env idx 1)) eqn:H1.
  - destruct (fails_thrown http_message _ H1) as [m1 ->].
    destruct (fails (parse_response env idx 2)) eqn:H2.
    + destruct (fails_thrown http_message _ H2) as [m2 ->].
      exists 3. split; [lia|]. split.
      * destruct (response_outcome http_message (parse_response env idx 3));
          cbn; rewrite Nat.eqb_refl; reflexivity.
      * split; [|lia]. intros a Ha.
        assert (Hcase : a = 1 \/ a = 2) by lia. destruct Hcase as [-> | ->]; assumption.
    + destruct (not_fails_returned _ H2) as [d2 Hd2]. rewrite Hd2.
      exists 2. split; [lia|]. split; [cbn; rewrite Nat.eqb_refl; reflexivity|].
      split; [|intros _; exact H2]. intros a Ha. assert (a = 1) as -> by lia. exact H1.
  - destruct (not_fails_returned _ H1) as [d1 Hd1]. rewrite Hd1.
    exists 1. split; [lia|]. split; [cbn; rewrite Nat.eqb_refl; reflexivity|].
    split; [intros a Ha; lia|intros _; exact H1].
Qed.

Lemma batch_events_elsewhere model (toProcess : list (Receipt jsobj * nat)) idx :
  idx ∉ snd <$> toProcess ->
  requested_attempts idx (Page.batch_events env model toProcess) = [].
Proof.
  induction toProcess as [|[r i] rest IH]; intros Hnot; [reflexivity|].
  rewrite fmap_cons in Hnot. apply not_elem_of_cons in Hnot as [Hne Hnot].
  unfold Page.batch_events, requested_attempts in *. cbn [flat_map fst snd].
  rewrite flat_map_app, (IH Hnot), app_nil_r.
  apply loop_events_elsewhere. cbn in Hne. congruence.
Qed.

Lemma batch_events_call model (toProcess : list (Receipt jsobj * nat)) r idx :
  NoDup (snd <$> toProcess) -> (r, idx) ∈ toProcess ->
  requested_attempts idx (Page.batch_events env model toProcess) =
    requested_attempts idx (Page.loop_events env r idx model (seq 1 MAX_RETRIES)).
Proof.
  induction toProcess as [|[r' i] rest IH]; intros Hnd Hin; [inversion Hin|].
  rewrite fmap_cons in Hnd. apply NoDup_cons in Hnd as [Hfresh Hnd]. cbn [snd] in Hfresh.
  unfold Page.batch_events. cbn [flat_map fst snd].
  unfold requested_attempts at 1. rewrite flat_map_app.
  apply elem_of_cons in Hin as [Heq|Hin].
  - inversion Heq; subst r' i.
    pose proof (batch_events_elsewhere model rest idx Hfresh) as Hrest.
    unfold Page.batch_events, requested_attempts in Hrest. rewrite Hrest, app_nil_r.
    reflexivity.
  - assert (Hne : i <> idx).
    { intros ->. apply Hfresh. apply list_elem_of_fmap. exists (r, idx). split; [reflexivity|exact Hin]. }
    pose proof (loop_events_elsewhere r' i model (seq 1 MAX_RETRIES) idx Hne) as Hhead.
    unfold requested_attempts in Hhead. rewrite Hhead. cbn [app].
    exact (IH Hnd Hin).
Qed.

(** X1: a run of [processAllReceipts] returns, on the review screen, with
    the batch flag off and the progress counter at n of n, n the number of
    receipts submitted; it leaves the selection and the model alone; each
    submitted receipt carries the update of its call and the others are as
    before.  Each submitted receipt is requested in the rounds 1 to k, in
    this order, where k is the first round whose call succeeds, or
    [MAX_RETRIES]; no other receipt is requested, and with nothing to
    submit nothing is sent.  Nothing is said of the order of the events of
    different calls. *)
Theorem processAllReceipts_final st :
  let n := length (toProcess_of (receipts st)) in
  exists evs,
    processAllReceipts env st =
      (evs,
       mkState
         (imap (fun idx r =>
                  if to_process r then Page.final_update env idx (mark_processing r)
                  else r)
            (receipts st))
         review (currentIndex st) (selectedModel st) false (n, n),
       Returned tt) /\
    (n = 0 ->
     evs = [] /\
     imap (fun idx r =>
             if to_process r then Page.final_update env idx (mark_processing r) else r)
       (receipts st) = receipts st) /\
    (forall idx r,
        receipts st !! idx = Some r -> to_process r = true ->
        exists k,
          1 <= k <= MAX_RETRIES /\
          requested_attempts idx evs = seq 1 k /\
          (forall a, 1 <= a < k -> fails (parse_response env idx a) = true) /\
          (k < MAX_RETRIES -> fails (parse_response env idx k) = false)) /\
    (forall idx,
        (forall r, receipts st !! idx = Some r -> to_process r = false) ->
        requested_attempts idx evs = []).
Proof.
  intros n. eexists. split; [apply processAllReceipts_closed|].
  split; [|split].
  - intros Hn. apply length_zero_iff_nil in Hn.
    split; [rewrite Hn; reflexivity|].
    apply (nothing_to_update (fun idx r => Page.final_update env idx (mark_processing r))).
    exact Hn.
  - intros idx r Hr Hp.
    rewrite (batch_events_call (selectedModel st) _ r idx (toProcess_of_NoDup _))
      by (apply toProcess_of_elem; auto).
    apply loop_events_attempts.
  - intros idx Hidle. apply batch_events_elsewhere.
    intros Hin. apply toProcess_of_indices in Hin as (r & Hr & Hp).
    rewrite (Hidle r Hr) in Hp. discriminate.
Qed.

Lemma loop_result_data idx attempts lastError data :
  Page.loop_result env idx attempts lastError = inl data ->
  exists attempt, attempt ∈ attempts /\
    Page.attempt_outcome env idx attempt = Returned data.
Proof.
  revert lastError. induction attempts as [|a rest IH]; intros lastError; cbn.
  - discriminate.
  - destruct (Page.attempt_outcome env idx a) as [d|m] eqn:Ha.
    + intros Heq. inversion Heq; subst. exists a. split; [left|assumption].
    + intros Heq. destruct (IH _ Heq) as (a' & Hin & Ha').
      exists a'. split; [right; assumption|assumption].
Qed.

(** X2: [processOne] stops at the first attempt that succeeds.  When the
    attempts before the [k]-th fail and the [k]-th succeeds, the receipt is
    given the data of that answer, the requests sent are those of the
    attempts 1 to [k] and no more, with a pause of 1000 ms after each
    failure. *)
Theorem processOne_stops_at_first_success receipt idx model st k data :
  1 <= k <= MAX_RETRIES ->
  (forall attempt, 1 <= attempt < k ->
     fails (parse_response env idx attempt) = true) ->
  Page.attempt_outcome env idx k = Returned data ->
  exists evs,
    processOne env receipt idx model st =
      (evs, with_receipts (map_at idx (parse_succeeded data)) st, Returned tt) /\
    requested_attempts idx evs = seq 1 k /\
    pauses evs = replicate (k - 1) 1000.
Proof.
  intros Hk Hfail Hok. rewrite processOne_run. eexists. split.
  - unfold Page.final_update.
    assert (Hloop : Page.loop_result env idx (seq 1 MAX_RETRIES) None = inl data).
    { unfold MAX_RETRIES in *. cbn [seq Page.loop_result].
      assert (Hcase : k = 1 \/ k = 2 \/ k = 3) by lia.
      destruct Hcase as [-> | [-> | ->]].
      - rewrite Hok. reflexivity.
      - destruct (fails_thrown http_message _ (Hfail 1 ltac:(lia))) as [m1 H1].
        unfold Page.attempt_outcome in *. rewrite H1, Hok. reflexivity.
      - destruct (fails_thrown http_message _ (Hfail 1 ltac:(lia))) as [m1 H1].
        destruct (fails_thrown http_message _ (Hfail 2 ltac:(lia))) as [m2 H2].
        unfold Page.attempt_outcome in *. rewrite H1, H2, Hok. reflexivity. }
    rewrite Hloop. reflexivity.
  - unfold MAX_RETRIES in *. cbn [seq Page.loop_events].
    assert (Hcase : k = 1 \/ k = 2 \/ k = 3) by lia.
    unfold Page.attempt_outcome in *.
    destruct Hcase as [-> | [-> | ->]].
    + rewrite Hok. cbn. rewrite Nat.eqb_refl. split; reflexivity.
    + destruct (fails_thrown http_message _ (Hfail 1 ltac:(lia))) as [m1 H1].
      rewrite H1, Hok. cbn. rewrite Nat.eqb_refl. split; reflexivity.
    + destruct (fails_thrown http_message _ (Hfail 1 ltac:(lia))) as [m1 H1].
      destruct (fails_thrown http_message _ (Hfail 2 ltac:(lia))) as [m2 H2].
      rewrite H1, H2, Hok. cbn. rewrite Nat.eqb_refl. split; reflexivity.
Qed.

End Batch.

(** X2 on the server that answers the second request: two requests, one
    pause, the data of the second answer. *)
Lemma processOne_stops_at_first_success_witness :
  exists evs st',
    processOne Scenarios.flaky_server Scenarios.uploaded_receipt 0
      "qwen/qwen3-vl-235b-a22b-instruct" Scenarios.fresh_upload
      = (evs, st', Returned tt) /\
    (parsed <$> receipts st' !! 0) = Some (Some Scenarios.lunch_flat) /\
    requested_attempts 0 evs = [1; 2] /\
    pauses evs = [1000].
Proof.
  destruct (processOne_stops_at_first_success Scenarios.flaky_server
              Scenarios.uploaded_receipt 0 "qwen/qwen3-vl-235b-a22b-instruct"
              Scenarios.fresh_upload 2
              (mkParseData "aW1n" "dGh1" (Some Scenarios.lunch_flat)))
    as (evs & Hrun & Hreq & Hpause).
  - unfold MAX_RETRIES. lia.
  - intros attempt Ha. assert (attempt = 1) as -> by lia. reflexivity.
  - reflexivity.
  - exists evs. eexists. split; [exact Hrun|]. split; [reflexivity|].
    split; [exact Hreq|exact Hpause].
Defined.

Section Rerun.
Variable env : Env jsobj.
Implicit Types (st : State jsobj) (r : Receipt jsobj) (rs : list (Receipt jsobj)).

Lemma final_update_parsed idx r :
  (forall attempt data,
      Page.attempt_outcome env idx attempt = Returned data ->
      is_Some (data_parsed data)) ->
  is_Some (parsed (Page.final_update env idx r)).
Proof.
  intros Hdata. unfold Page.final_update.
  destruct (Page.loop_result env idx (seq 1 MAX_RETRIES) None) as [data|e] eqn:Hloop.
  - destruct (loop_result_data env _ _ _ _ Hloop) as (a & _ & Ha).
    exact (Hdata a data Ha).
  - eexists. reflexivity.
Qed.

Lemma toProcess_of_nil rs :
  (forall r, r ∈ rs -> to_process r = false) -> toProcess_of rs = [].
Proof.
  intros Hnone. destruct (toProcess_of rs) as [|[r i] l] eqn:Hto; [reflexivity|].
  assert (Hin : (r, i) ∈ toProcess_of rs) by (rewrite Hto; left).
  apply toProcess_of_elem in Hin as [Hr Hp].
  rewrite (Hnone r) in Hp; [discriminate|].
  apply list_elem_of_lookup. eauto.
Qed.

(** X3: when the answers that succeed carry a parsed record, a run of
    [processAllReceipts] leaves nothing to process: a second run, whatever
    the server does then, sends no request and changes no receipt. *)
Theorem second_run_submits_nothing (env' : Env jsobj) st :
  (forall idx attempt data,
      Page.attempt_outcome env idx attempt = Returned data ->
      is_Some (data_parsed data)) ->
  let st1 := snd (fst (processAllReceipts env st)) in
  toProcess_of (receipts st1) = [] /\
  processAllReceipts env' st1 =
    ([], mkState (receipts st1) review (currentIndex st) (selectedModel st) false (0, 0),
     Returned tt).
Proof.
  intros Hdata st1.
  assert (Hnone : toProcess_of (receipts st1) = []).
  { apply toProcess_of_nil. intros r1 Hin. subst st1.
    rewrite (processAllReceipts_closed env st) in Hin. cbn [fst snd receipts] in Hin.
    apply elem_of_lookup_imap in Hin as (i & r & -> & Hr).
    destruct (to_process r) eqn:Hp; [|exact Hp].
    destruct (final_update_parsed i (mark_processing r) (Hdata i)) as [p Hparsed].
    unfold to_process. rewrite Hparsed. reflexivity. }
  split; [exact Hnone|].
  rewrite (processAllReceipts_closed env' st1), Hnone. cbn [length].
  rewrite (nothing_to_update
             (fun idx r => Page.final_update env' idx (mark_processing r)) _ Hnone).
  subst st1. rewrite (processAllReceipts_closed env st). reflexivity.
Qed.

End Rerun.

(** X3 on the server that answers the second request. *)
Lemma second_run_submits_nothing_witness :
  fst (fst (processAllReceipts Scenarios.server_down
              (snd (fst (processAllReceipts Scenarios.flaky_server
                           Scenarios.fresh_upload))))) = [].
Proof.
  destruct (second_run_submits_nothing Scenarios.flaky_server Scenarios.server_down
              Scenarios.fresh_upload) as [_ Hrun].
  - intros idx attempt data. unfold Page.attempt_outcome. cbn.
    destruct (Nat.eqb attempt 1); cbn; [discriminate|].
    intros Heq. inversion Heq; subst. eexists. reflexivity.
  - rewrite Hrun. reflexivity.
Defined.

(** X16: the receipts a batch leaves do not depend on the order in which
    its calls settle: applying the calls' updates to the flagged list in
    any order of the submitted receipts gives the receipts
    [processAllReceipts] ends with. *)
Theorem batch_settles_in_any_order (env : Env jsobj) (st : State jsobj) order :
  order ≡ₚ toProcess_of (receipts st) ->
  settled env order
    (imap (fun idx r =>
             if existsb (fun p => Nat.eqb (snd p) idx) (toProcess_of (receipts st))
             then mark_processing r else r) (receipts st))
  = receipts (snd (fst (processAllReceipts env st))).
Proof.
  intros Hperm.
  rewrite (settled_order_irrelevant env _ _ _ (Permutation_sym Hperm)
             (toProcess_of_NoDup (receipts st))).
  pose proof (processAllReceipts_closed env st) as Hclosed.
  rewrite Hclosed. cbn [fst snd receipts]. revert Hclosed.
  unfold processAllReceipts, mbind, M_bind, bind, getState.
  cbn [setProcessing setProcessingProgress setReceipts].
  match goal with
  | |- context [settle_all env ?L ?m ?t 0 ?s] =>
      destruct (settle_all_cells env L m t 0 s) as (st1 & Hrun & Hrs & _);
      rewrite Hrun
  end.
  cbn [setAppState setProcessing app].
  intros Heq. apply (f_equal (fun x => receipts (snd (fst x)))) in Heq.
  cbn [fst snd receipts with_appState with_processing] in Heq.
  cbn [receipts with_receipts with_processing with_processingProgress] in Hrs.
  rewrite <- Hrs. exact Heq.
Qed.

(** X16 on two uploads whose calls settle in reverse order. *)
Lemma batch_settles_in_any_order_witness :
  settled Scenarios.flaky_server
    (reverse (toProcess_of (receipts Scenarios.two_uploads)))
    (imap (fun idx r =>
             if existsb (fun p => Nat.eqb (snd p) idx)
                  (toProcess_of (receipts Scenarios.two_uploads))
             then mark_processing r else r) (receipts Scenarios.two_uploads))
  = receipts (snd (fst (processAllReceipts Scenarios.flaky_server Scenarios.two_uploads))).
Proof.
  apply (batch_settles_in_any_order Scenarios.flaky_server Scenarios.two_uploads).
  apply reverse_Permutation.
Defined.

(** *** The first variant: one request per receipt, in turn *)

Section V1.
Context {P : Type}.
Variable env : Env P.
Implicit Types (st : State P) (r : Receipt P) (rs : list (Receipt P)).

Lemma process_each_cells snapshot model st :
  PageV1.process_each env snapshot model st =
    (PageV1.sequential_events model snapshot,
     with_receipts (PageV1.sequential_receipts env snapshot) st, Returned tt).
Proof.
  revert st. induction snapshot as [|[receipt i] rest IH]; intros st.
  - destruct st. reflexivity.
  - cbn [PageV1.process_each PageV1.sequential_events PageV1.sequential_receipts
           flat_map foldl fst snd].
    assert (Hcond : truthy (parsed receipt) || negb (truthy (file receipt))
                    = negb (to_process receipt))
      by (unfold to_process; destruct (truthy (parsed receipt)), (truthy (file receipt));
          reflexivity).
    unfold mbind, M_bind, bind, try_. rewrite Hcond.
    destruct (to_process receipt) eqn:Htp; cbn [negb].
    2:{ cbn. rewrite IH. unfold with_receipts, PageV1.sequential_receipts.
        cbn [foldl fst snd]. rewrite Htp. reflexivity. }
    unfold with_receipts, PageV1.sequential_receipts.
    cbn [foldl fst snd]. rewrite Htp.
    unfold PageV1.sequential_update, response_outcome.
    destruct (parse_response env i 1) as [m|status [m|data]]; cbn;
      try destruct (negb (ok status)); cbn;
      rewrite IH; unfold with_receipts, PageV1.sequential_receipts;
      cbn [receipts appState currentIndex selectedModel st_processing
             processingProgress];
      rewrite map_at_compose; reflexivity.
Qed.

Lemma indexed_elem rs r i :
  (r, i) ∈ imap (fun i r => (r, i)) rs <-> rs !! i = Some r.
Proof.
  rewrite list_elem_of_lookup. split.
  - intros [k Hk]. rewrite list_lookup_imap in Hk.
    destruct (rs !! k) as [r'|] eqn:Hr; [|discriminate].
    cbn in Hk. inversion Hk; subst. exact Hr.
  - intros Hr. exists i. rewrite list_lookup_imap, Hr. reflexivity.
Qed.

Lemma indexed_before rs r j :
  (r, j) ∈ take j (imap (fun i r => (r, i)) rs) -> False.
Proof.
  rewrite list_elem_of_lookup. intros [k Hk].
  apply lookup_take_Some in Hk as [Hk Hlt].
  rewrite list_lookup_imap in Hk.
  destruct (rs !! k); [|discriminate]. cbn in Hk. inversion Hk. lia.
Qed.

Lemma indexed_after rs r j :
  (r, j) ∈ drop (S j) (imap (fun i r => (r, i)) rs) -> False.
Proof.
  rewrite list_elem_of_lookup. intros [k Hk].
  rewrite lookup_drop, list_lookup_imap in Hk.
  destruct (rs !! (S j + k)); [|discriminate]. cbn in Hk. inversion Hk. lia.
Qed.

Lemma indexed_middle rs r j :
  rs !! j = Some r ->
  imap (fun i r => (r, i)) rs =
    (take j (imap (fun i r => (r, i)) rs) ++
       (r, j) :: drop (S j) (imap (fun i r => (r, i)) rs))%list.
Proof.
  intros Hr. symmetry. apply take_drop_middle.
  rewrite list_lookup_imap, Hr. reflexivity.
Qed.

(** Each receipt is visited once, so the list after the loop is the list
    before it with each submitted receipt updated in place. *)
Lemma sequential_receipts_indexed rs0 rs :
  length rs0 = length rs ->
  PageV1.sequential_receipts env (imap (fun i r => (r, i)) rs) rs0 =
    imap (fun i r0 =>
            match rs !! i with
            | Some r => if to_process r then PageV1.sequential_update env i r0 else r0
            | None => r0
            end) rs0.
Proof.
  intros Hlen. apply list_eq. intros j. rewrite list_lookup_imap.
  destruct (rs !! j) as [r|] eqn:Hr.
  - rewrite (indexed_middle rs r j Hr) at 1.
    unfold PageV1.sequential_receipts. rewrite foldl_app. cbn [foldl fst snd].
    match goal with
    | |- foldl ?f ?acc (drop _ _) !! _ = _ =>
        change (PageV1.sequential_receipts env
                  (drop (S j) (imap (fun i r => (r, i)) rs)) acc !! j
                = (fun r0 => if to_process r then PageV1.sequential_update env j r0 else r0)
                    <$> rs0 !! j)
    end.
    rewrite sequential_receipts_frame
      by (intros r' Hin; destruct (indexed_after rs r' j Hin)).
    assert (Hbefore :
              PageV1.sequential_receipts env (take j (imap (fun i r => (r, i)) rs)) rs0 !! j
              = rs0 !! j).
    { apply sequential_receipts_frame.
      intros r' Hin. destruct (indexed_before rs r' j Hin). }
    destruct (to_process r).
    + rewrite map_at_lookup_eq. unfold PageV1.sequential_receipts in Hbefore.
      rewrite Hbefore. reflexivity.
    + unfold PageV1.sequential_receipts in Hbefore. rewrite Hbefore.
      destruct (rs0 !! j); reflexivity.
  - rewrite sequential_receipts_frame.
    + destruct (rs0 !! j); reflexivity.
    + intros r' Hin. apply indexed_elem in Hin. congruence.
Qed.

Lemma sequential_receipts_closed rs :
  PageV1.sequential_receipts env (imap (fun i r => (r, i)) rs) rs =
    imap (fun i r => if to_process r then PageV1.sequential_update env i r else r) rs.
Proof.
  rewrite sequential_receipts_indexed by reflexivity.
  apply list_eq. intros j. rewrite !list_lookup_imap.
  destruct (rs !! j) as [r|] eqn:Hr; reflexivity.
Qed.

Lemma sequential_events_pauses model (snapshot : list (Receipt P * nat)) :
  pauses (PageV1.sequential_events model snapshot) = [].
Proof.
  induction snapshot as [|[r i] rest IH]; [reflexivity|].
  unfold PageV1.sequential_events, pauses in *. cbn [flat_map fst snd].
  rewrite flat_map_app, IH, app_nil_r.
  destruct (to_process r); reflexivity.
Qed.

Lemma sequential_events_elsewhere model (snapshot : list (Receipt P * nat)) idx :
  (forall r, (r, idx) ∈ snapshot -> False) ->
  requested_attempts idx (PageV1.sequential_events model snapshot) = [].
Proof.
  induction snapshot as [|[r i] rest IH]; intros Hno; [reflexivity|].
  unfold PageV1.sequential_events, requested_attempts in *. cbn [flat_map fst snd].
  rewrite flat_map_app, IH, app_nil_r
    by (intros r' Hin; apply (Hno r'); right; exact Hin).
  destruct (to_process r); [|reflexivity]. cbn.
  destruct (Nat.eqb i idx) eqn:Hi; [|reflexivity].
  apply Nat.eqb_eq in Hi. subst. destruct (Hno r). left.
Qed.

Lemma sequential_events_attempts model rs idx :
  requested_attempts idx
    (PageV1.sequential_events model (imap (fun i r => (r, i)) rs)) =
    match rs !! idx with
    | Some r => if to_process r then [1] else []
    | None => []
    end.
Proof.
  destruct (rs !! idx) as [r|] eqn:Hr.
  - rewrite (indexed_middle rs r idx Hr).
    unfold PageV1.sequential_events, requested_attempts.
    rewrite !flat_map_app. cbn [flat_map fst snd]. rewrite !flat_map_app.
    pose proof (sequential_events_elsewhere model
                  (take idx (imap (fun i r => (r, i)) rs)) idx
                  (fun r' => indexed_before rs r' idx)) as Hb.
    pose proof (sequential_events_elsewhere model
                  (drop (S idx) (imap (fun i r => (r, i)) rs)) idx
                  (fun r' => indexed_after rs r' idx)) as Ha.
    unfold PageV1.sequential_events, requested_attempts in Hb, Ha.
    rewrite Hb, Ha, app_nil_r. cbn [app].
    destruct (to_process r); [|reflexivity]. cbn. rewrite Nat.eqb_refl. reflexivity.
  - apply sequential_events_elsewhere. intros r' Hin.
    apply indexed_elem in Hin. congruence.
Qed.

Lemma processAllReceipts_v1_closed st :
  PageV1.processAllReceipts env st =
    (PageV1.sequential_events (selectedModel st) (imap (fun i r => (r, i)) (receipts st)),
     mkState
       (imap (fun i r => if to_process r then PageV1.sequential_update env i r else r)
          (receipts st))
       review (currentIndex st) (selectedModel st) false (processingProgress st),
     Returned tt).
Proof.
  unfold PageV1.processAllReceipts, mbind, M_bind, bind, getState.
  cbn [setProcessing]. rewrite process_each_cells.
  cbn [setAppState setProcessing app]. rewrite app_nil_r.
  unfold with_appState, with_processing, with_receipts.
  cbn [receipts appState currentIndex selectedModel st_processing processingProgress].
  rewrite sequential_receipts_closed. reflexivity.
Qed.

(** X4: the first variant of [processAllReceipts] sends one request, the
    first attempt, for each receipt that has a file and no parsed record,
    none for the others, and never pauses; it ends on the review screen
    with the batch flag off, each submitted receipt carrying the update of
    its single call and every other cell as before. *)
Theorem processAllReceipts_v1_final st :
  exists evs,
    PageV1.processAllReceipts env st =
      (evs,
       mkState
         (imap (fun i r => if to_process r then PageV1.sequential_update env i r else r)
            (receipts st))
         review (currentIndex st) (selectedModel st) false (processingProgress st),
       Returned tt) /\
    pauses evs = [] /\
    forall idx,
      requested_attempts idx evs =
        match receipts st !! idx with
        | Some r => if to_process r then [1] else []
        | None => []
        end.
Proof.
  eexists. split; [apply processAllReceipts_v1_closed|].
  split; [apply sequential_events_pauses|].
  intros idx. apply sequential_events_attempts.
Qed.

End V1.

(** X5: in the first variant a receipt whose call fails keeps no parsed
    record: it carries the error, is no longer processing, and a later run
    of [processAllReceipts] submits it again, whatever the server does
    then. *)
Theorem v1_failed_receipt_is_resubmitted {P} (env env' : Env P) (st : State P) idx r :
  receipts st !! idx = Some r ->
  to_process r = true ->
  fails (parse_response env idx 1) = true ->
  let st1 := snd (fst (PageV1.processAllReceipts env st)) in
  (exists r1 message,
     receipts st1 !! idx = Some r1 /\
     parsed r1 = None /\ file r1 = file r /\
     error r1 = Some message /\ processing r1 = false) /\
  requested_attempts idx (fst (fst (PageV1.processAllReceipts env' st1))) = [1].
Proof.
  intros Hr Hp Hfail st1.
  destruct (fails_thrown (fun _ => "Failed to process receipt") _ Hfail) as [m Hm].
  assert (Hr1 : receipts st1 !! idx = Some (call_failed m (mark_processing r))).
  { subst st1. rewrite processAllReceipts_v1_closed. cbn [fst snd receipts].
    rewrite list_lookup_imap, Hr. cbn. rewrite Hp.
    unfold PageV1.sequential_update. rewrite Hm. reflexivity. }
  apply to_process_spec in Hp as [Hparsed Hfile].
  split.
  - exists (call_failed m (mark_processing r)), m.
    split; [exact Hr1|]. cbn. rewrite Hparsed. repeat split.
  - rewrite processAllReceipts_v1_closed. cbn [fst snd].
    rewrite sequential_events_attempts, Hr1.
    assert (Hagain : to_process (call_failed m (mark_processing r)) = true).
    { apply to_process_spec. cbn. split; assumption. }
    rewrite Hagain. reflexivity.
Qed.

(** X5 on a server that is down: the upload is submitted again. *)
Lemma v1_failed_receipt_is_resubmitted_witness :
  requested_attempts 0
    (fst (fst (PageV1.processAllReceipts Scenarios.flaky_server
                 (snd (fst (PageV1.processAllReceipts Scenarios.server_down
                              Scenarios.fresh_upload)))))) = [1].
Proof.
  apply (v1_failed_receipt_is_resubmitted Scenarios.server_down Scenarios.flaky_server
           Scenarios.fresh_upload 0 Scenarios.uploaded_receipt); reflexivity.
Defined.

(** *** The two variants side by side *)

Section Variants.
Variable env : Env jsobj.
Implicit Types (st : State jsobj) (r : Receipt jsobj) (rs : list (Receipt jsobj)).

(** X6: when no first attempt fails, the two variants of
    [processAllReceipts] send the same requests and end with the same
    receipts, on the same screen, with the batch flag off. *)
Theorem variants_agree_without_failures st :
  (forall idx r, receipts st !! idx = Some r -> to_process r = true ->
                 fails (parse_response env idx 1) = false) ->
  let v1 := PageV1.processAllReceipts env st in
  let v2 := Page.processAllReceipts env st in
  fst (fst v1) = fst (fst v2) /\
  receipts (snd (fst v1)) = receipts (snd (fst v2)) /\
  appState (snd (fst v1)) = appState (snd (fst v2)) /\
  st_processing (snd (fst v1)) = st_processing (snd (fst v2)) /\
  currentIndex (snd (fst v1)) = currentIndex (snd (fst v2)).
Proof.
  intros Hok v1 v2. subst v1 v2.
  rewrite processAllReceipts_v1_closed, processAllReceipts_closed.
  cbn [fst snd receipts appState st_processing currentIndex].
  split; [|split; [|repeat split]].
  - unfold PageV1.sequential_events, Page.batch_events, toProcess_of.
    assert (Hall : forall p, p ∈ imap (fun i r => (r, i)) (receipts st) ->
                     to_process (fst p) = true ->
                     fails (parse_response env (snd p) 1) = false).
    { intros [r i] Hin Hp. apply indexed_elem in Hin. exact (Hok i r Hin Hp). }
    induction (imap (fun i r => (r, i)) (receipts st)) as [|[r i] l IH];
      [reflexivity|].
    cbn [flat_map List.filter fst snd].
    assert (Hl : forall p, p ∈ l -> to_process (fst p) = true ->
                   fails (parse_response env (snd p) 1) = false)
      by (intros p Hin; apply Hall; right; exact Hin).
    destruct (to_process r) eqn:Hp.
    + cbn [flat_map fst snd]. rewrite <- (IH Hl). f_equal.
      destruct (not_fails_returned _ (Hall (r, i) ltac:(left) Hp)) as [d Hd].
      unfold MAX_RETRIES. cbn [seq Page.loop_events]. unfold Page.attempt_outcome.
      rewrite Hd. reflexivity.
    + cbn [app]. exact (IH Hl).
  - apply list_eq. intros i. rewrite !list_lookup_imap.
    destruct (receipts st !! i) as [r|] eqn:Hr; [|reflexivity]. cbn.
    destruct (to_process r) eqn:Hp; [|reflexivity].
    destruct (not_fails_returned _ (Hok i r Hr Hp)) as [d Hd].
    unfold PageV1.sequential_update, Page.final_update, MAX_RETRIES.
    cbn [seq Page.loop_result]. unfold Page.attempt_outcome. rewrite !Hd. reflexivity.
Qed.

End Variants.

(** X6 on the server that answers every request. *)
Lemma variants_agree_without_failures_witness :
  fst (fst (PageV1.processAllReceipts Scenarios.steady_server Scenarios.fresh_upload))
  = fst (fst (Page.processAllReceipts Scenarios.steady_server Scenarios.fresh_upload)).
Proof.
  apply (variants_agree_without_failures Scenarios.steady_server Scenarios.fresh_upload).
  intros idx r _ _. reflexivity.
Defined.

(** *** Handlers on one receipt *)

Section One.
Context {P : Type}.
Implicit Types (st : State P) (r : Receipt P) (rs : list (Receipt P)).

Lemma map_at_missing idx (f : Receipt P -> Receipt P) rs :
  rs !! idx = None -> map_at idx f rs = rs.
Proof.
  intros Hnone. apply list_eq. intros i. rewrite map_at_lookup.
  destruct (decide (i = idx)) as [->|]; [rewrite Hnone|]; reflexivity.
Qed.

Lemma map_at_insert idx (f : Receipt P -> Receipt P) rs r :
  rs !! idx = Some r -> map_at idx f rs = <[idx := f r]> rs.
Proof.
  intros Hr. apply list_eq. intros i. rewrite map_at_lookup.
  destruct (decide (i = idx)) as [->|Hne].
  - rewrite Hr, list_lookup_insert_eq by (eapply lookup_lt_Some; eassumption).
    reflexivity.
  - rewrite list_lookup_insert_ne by congruence. reflexivity.
Qed.

Lemma approvedCount_insert idx rs r r' :
  rs !! idx = Some r ->
  (Generate.approvedCount (<[idx := r']> rs) + (if approved r then 1 else 0) =
   Generate.approvedCount rs + (if approved r' then 1 else 0))%nat.
Proof.
  intros Hr. pose proof (lookup_lt_Some _ _ _ Hr) as Hlt.
  rewrite insert_take_drop by assumption.
  rewrite <- (take_drop_middle rs idx r Hr) at 3.
  unfold Generate.approvedCount. rewrite !List.filter_app, !length_app. cbn [List.filter].
  destruct (approved r), (approved r'); cbn [length]; lia.
Qed.

(** X7: [handleReparse] for an index with no receipt sends no request and
    leaves every cell as it was: the error raised on reading the missing
    receipt is caught, and the update that would record it finds no
    receipt to write to. *)
Theorem handleReparse_missing_receipt (env : Env P) st index userText mode :
  receipts st !! index = None ->
  handleReparse env index userText mode st = ([], st, Returned tt).
Proof.
  intros Hnone. unfold handleReparse, mbind, M_bind, bind, getState, try_.
  rewrite Hnone. cbn [setReceipts throw app]. unfold with_receipts.
  cbn [receipts appState currentIndex selectedModel st_processing processingProgress].
  rewrite (map_at_missing index mark_processing) by assumption.
  rewrite map_at_missing by assumption.
  destruct st. reflexivity.
Qed.

(** X8: [handleApprove] on an existing receipt sends nothing, marks that
    receipt approved and changes nothing else of it or of the other
    receipts; the count of approved receipts grows by one unless the
    receipt was approved already; the selection moves to the next receipt
    unless this was the last, and stays inside the list. *)
Theorem handleApprove_next st index r :
  receipts st !! index = Some r ->
  exists st',
    handleApprove index st = ([], st', Returned tt) /\
    receipts st' !! index =
      Some (mkReceipt (id r) (filename r) (image_base64 r) (thumbnail_base64 r)
              (parsed r) true (processing r) (error r) (file r)) /\
    (forall j, j <> index -> receipts st' !! j = receipts st !! j) /\
    length (receipts st') = length (receipts st) /\
    Generate.approvedCount (receipts st') =
      (Generate.approvedCount (receipts st) + (if approved r then 0 else 1))%nat /\
    currentIndex st' =
      (if decide (index + 1 < length (receipts st)) then index + 1
       else currentIndex st) /\
    (currentIndex st < length (receipts st) ->
     currentIndex st' < length (receipts st')).
Proof.
  intros Hr. unfold handleApprove, mbind, M_bind, bind, getState. cbn [setReceipts].
  assert (Hrs : forall b : bool,
             receipts (snd (fst ((if b then setCurrentIndex (index + 1) else mret tt)
                                   (with_receipts (map_at index mark_approved) st))))
             = map_at index mark_approved (receipts st)) by (intros []; reflexivity).
  destruct (index <? length (receipts st) - 1)%nat eqn:Hlast.
  - apply Nat.ltb_lt in Hlast. eexists. split; [reflexivity|].
    cbn [receipts currentIndex with_currentIndex with_receipts].
    split; [rewrite map_at_lookup_eq, Hr; reflexivity|].
    split; [intros j Hj; apply map_at_lookup_ne; assumption|].
    split; [apply map_at_length|].
    split.
    + rewrite (map_at_insert _ _ _ _ Hr).
      pose proof (approvedCount_insert index (receipts st) r (mark_approved r) Hr) as Hc.
      cbn [mark_approved approved] in Hc. destruct (approved r); lia.
    + split.
      * destruct (decide (index + 1 < length (receipts st))); [reflexivity|lia].
      * intros _. rewrite map_at_length. lia.
  - apply Nat.ltb_ge in Hlast. eexists. split; [reflexivity|].
    cbn [receipts currentIndex with_currentIndex with_receipts].
    split; [rewrite map_at_lookup_eq, Hr; reflexivity|].
    split; [intros j Hj; apply map_at_lookup_ne; assumption|].
    split; [apply map_at_length|].
    split.
    + rewrite (map_at_insert _ _ _ _ Hr).
      pose proof (approvedCount_insert index (receipts st) r (mark_approved r) Hr) as Hc.
      cbn [mark_approved approved] in Hc. destruct (approved r); lia.
    + split.
      * destruct (decide (index + 1 < length (receipts st))); [lia|reflexivity].
      * intros Hcur. rewrite map_at_length. exact Hcur.
Qed.

End One.

(** X7 on a screen with one receipt. *)
Lemma handleReparse_missing_receipt_witness :
  handleReparse Scenarios.server_down 1 "my share is 12.50" image Scenarios.fresh_upload
  = ([], Scenarios.fresh_upload, Returned tt).
Proof.
  apply (handleReparse_missing_receipt Scenarios.server_down Scenarios.fresh_upload).
  reflexivity.
Defined.

(** X8 on a screen with one receipt: it is approved and stays selected. *)
Lemma handleApprove_next_witness :
  exists st',
    handleApprove 0 Scenarios.fresh_upload = ([], st', Returned tt) /\
    Generate.approvedCount (receipts st') = 1 /\ currentIndex st' = 0.
Proof.
  destruct (handleApprove_next Scenarios.fresh_upload 0 Scenarios.uploaded_receipt)
    as (st' & Hrun & _ & _ & _ & Hcount & Hcur & _); [reflexivity|].
  exists st'. split; [exact Hrun|]. split; [exact Hcount|exact Hcur].
Defined.

(** *** The placeholder's date *)

Lemma split_T_0_prefix (day rest : string) :
  (forall c, In c (list_ascii_of_string day) -> c <> "T"%char) ->
  split_T_0 (day +:+ String "T" rest) = day.
Proof.
  induction day as [|c day IH]; intros Hno.
  - cbn. reflexivity.
  - cbn [String.app split_T_0].
    assert (Hc : Ascii.eqb c "T" = false).
    { apply Ascii.eqb_neq. apply Hno. left. reflexivity. }
    change (String c day +:+ String "T" rest) with (String c (day +:+ String "T" rest)).
    cbn [split_T_0]. rewrite Hc. f_equal. apply IH.
    intros c' Hin. apply Hno. right. exact Hin.
Qed.

(** X23: the date of the placeholder that [processOne] stores once every
    attempt has failed is the part of the ISO time stamp before its [T]:
    the day alone, without the time. *)
Theorem placeholder_date_is_the_day (day time : string) :
  (forall c, In c (list_ascii_of_string day) -> c <> "T"%char) ->
  emptyParsed (day +:+ String "T" time) !! "date" = Some (VStr day).
Proof.
  intros Hno. unfold emptyParsed.
  rewrite !lookup_insert_ne by discriminate.
  rewrite lookup_insert_eq, (split_T_0_prefix day time Hno). reflexivity.
Qed.

(** X23 on a morning in January. *)
Lemma placeholder_date_is_the_day_witness :
  emptyParsed "2025-01-10T09:30:00.000Z" !! "date" = Some (VStr "2025-01-10").
Proof.
  apply (placeholder_date_is_the_day "2025-01-10" "09:30:00.000Z").
  intros c Hin. cbn in Hin.
  repeat (destruct Hin as [<-|Hin]; [discriminate|]). destruct Hin.
Defined.

End PageMore.

(** ** Generating the claim: the payload, the counter and the file name *)

Module GenerateProps.
Import Page Json Generate Ui PageProps.

Section Payload.
Context {P : Type}.
Implicit Types (r : Receipt P) (rs : list (Receipt P)).

(** X9: the payload of [handleGenerate] holds only approved receipts that
    have a parsed record, while [approvedCount] counts every approved
    receipt: the counter is the length of the payload plus the number of
    approved receipts without a parsed record.  The generate button is
    enabled, when no generation is running, exactly if some receipt is
    approved. *)
Theorem request_receipts_counted rs :
  Forall (fun e => entry_approved e = true /\ is_Some (entry_parsed e))
    (request_receipts rs) /\
  approvedCount rs =
    (length (request_receipts rs) +
     length (List.filter (fun r => approved r && negb (truthy (parsed r))) rs))%nat /\
  (generate_disabled false rs = false <-> exists r, r ∈ rs /\ approved r = true).
Proof.
  unfold generate_disabled, request_receipts, approvedCount. cbn [orb].
  split; [|split].
  - induction rs as [|r rs IH]; cbn [List.filter List.map]; [constructor|].
    destruct (approved r) eqn:Ha, (parsed r) eqn:Hp; cbn [andb truthy List.map];
      try exact IH.
    constructor; [|exact IH]. cbn. rewrite Ha, Hp. split; [reflexivity|eauto].
  - induction rs as [|r rs IH]; cbn [List.filter List.map length]; [reflexivity|].
    destruct (approved r), (parsed r); cbn [andb negb truthy List.map length]; lia.
  - rewrite Nat.eqb_neq. split.
    + intros Hne. destruct (List.filter approved rs) as [|r l] eqn:Hf;
        [destruct Hne; reflexivity|].
      assert (Hin : In r (List.filter approved rs)) by (rewrite Hf; left; reflexivity).
      apply filter_In in Hin as [Hin Ha]. exists r.
      split; [apply list_elem_of_In; exact Hin|exact Ha].
    + intros (r & Hin & Ha) Hlen. apply length_zero_iff_nil in Hlen.
      assert (Hr : In r (List.filter approved rs))
        by (apply filter_In; split; [apply list_elem_of_In; exact Hin|exact Ha]).
      rewrite Hlen in Hr. destruct Hr.
Qed.

End Payload.

Lemma split_no_separator sep (word : jsstring) :
  sep ∉ word -> split sep word = [word].
Proof.
  induction word as [|u word IH]; intros Hno; [reflexivity|]. cbn [split].
  destruct (N.eqb u sep) eqn:Hu.
  - apply N.eqb_eq in Hu. subst. destruct Hno. left.
  - rewrite IH; [reflexivity|]. intros Hin. apply Hno. right. exact Hin.
Qed.

Lemma split_last_piece sep (pre word : jsstring) :
  sep ∉ word ->
  exists piece pieces,
    split sep (pre ++ sep :: word) = ((piece :: pieces) ++ [word])%list.
Proof.
  intros Hno. induction pre as [|u pre (piece & pieces & IH)].
  - cbn [app split]. rewrite N.eqb_refl, (split_no_separator _ _ Hno).
    exists [], []. reflexivity.
  - cbn [app split] in *. rewrite IH. destruct (N.eqb u sep).
    + exists [], (piece :: pieces). reflexivity.
    + exists (u :: piece), pieces. reflexivity.
Qed.

(** X10: the archive is named after the last word of the name: what
    follows the last space, or the whole name when it has no space,
    followed by [_expenses.zip]; when that word is empty (an empty name, or
    a name that ends in a space) the stem is [Expense]. *)
Theorem download_last_word (pre word : jsstring) :
  32%N ∉ word ->
  let stem_of := match word with [] => lit "Expense" | _ :: _ => word end in
  download word = (stem_of ++ lit "_expenses.zip")%list /\
  download (pre ++ 32%N :: word) = (stem_of ++ lit "_expenses.zip")%list.
Proof.
  intros Hno stem_of. unfold download, stem. split.
  - rewrite (split_no_separator _ _ Hno). cbn [last]. destruct word; reflexivity.
  - destruct (split_last_piece 32%N pre word Hno) as (piece & pieces & ->).
    rewrite last_snoc. destruct word; reflexivity.
Qed.

(** X10 on a name of two words. *)
Lemma download_last_word_witness :
  download (lit "Jane Doe") = lit "Doe_expenses.zip".
Proof.
  apply (download_last_word (lit "Jane") (lit "Doe")).
  compute_done.
Defined.

Lemma new_receipts_eligible (files : list (string * File)) n :
  List.filter (fun p : Receipt jsobj * nat => to_process (fst p))
    (imap (fun i r => (r, n + i)) (List.map new_receipt files)) =
  imap (fun k f => (new_receipt f, n + k)) files.
Proof.
  revert n. induction files as [|f files IH]; intros n; [reflexivity|].
  cbn [List.map imap List.filter fst]. cbn [new_receipt to_process parsed file truthy negb andb].
  f_equal.
  rewrite (imap_ext _ (fun i r => (r, S n + i))) by (intros; cbn; f_equal; lia).
  rewrite IH. apply imap_ext. intros; cbn; f_equal; lia.
Qed.

(** X11: [handleFilesAdded] keeps every receipt at its index and appends
    one receipt per file; each new receipt is submitted by the next
    [processAllReceipts], after those that were waiting already, under the
    index that follows the list; the count of approved receipts is as
    before. *)
Theorem handleFilesAdded_appends files prev :
  (forall i r, prev !! i = Some r -> handleFilesAdded files prev !! i = Some r) /\
  length (handleFilesAdded files prev) = (length prev + length files)%nat /\
  toProcess_of (handleFilesAdded files prev) =
    (toProcess_of prev ++
       imap (fun k f => (new_receipt f, length prev + k)) files)%list /\
  approvedCount (handleFilesAdded files prev) = approvedCount prev.
Proof.
  unfold handleFilesAdded. split; [|split; [|split]].
  - intros i r Hr. apply lookup_app_l_Some. exact Hr.
  - rewrite length_app, length_map. reflexivity.
  - unfold toProcess_of. rewrite imap_app, List.filter_app. f_equal.
    apply new_receipts_eligible.
  - unfold approvedCount. rewrite List.filter_app, length_app.
    assert (Hnone : List.filter approved (List.map new_receipt files) = []).
    { induction files as [|f files IH]; [reflexivity|]. cbn. exact IH. }
    rewrite Hnone. cbn. lia.
Qed.

End GenerateProps.

(** ** Properties every screen keeps *)

Module UiMore.
Import Page Ui UiInv PageProps UiProps.

Lemma filter_mono {A} (p : A -> bool) (l' l : list A) :
  l' `sublist_of` l -> List.filter p l' `sublist_of` List.filter p l.
Proof.
  induction 1 as [|x l1 l2 _ IH|x l1 l2 _ IH]; cbn.
  - constructor.
  - destruct (p x); [apply sublist_skip|]; exact IH.
  - destruct (p x); [apply sublist_cons|]; exact IH.
Qed.

Lemma parse_calls_none l : existsb is_parse_call l = false -> parse_calls l = [].
Proof.
  unfold parse_calls. induction l as [|c l IH]; cbn; [reflexivity|].
  destruct (is_parse_call c); cbn; [discriminate|exact IH].
Qed.

Lemma parse_targets_insert l k idx a e a' e' :
  l !! k = Some (ParseCall idx a e) ->
  target <$> parse_calls (<[k := ParseCall idx a' e']> l) = target <$> parse_calls l.
Proof.
  unfold parse_calls. revert k. induction l as [|c l IH]; intros k Hk; [discriminate|].
  destruct k as [|k]; cbn in *.
  - inversion Hk; subst. reflexivity.
  - destruct (is_parse_call c); [rewrite !fmap_cons; f_equal|]; exact (IH k Hk).
Qed.

Lemma existsb_insert_parse l k c idx a e :
  l !! k = Some c -> existsb is_parse_call (<[k := ParseCall idx a e]> l) = true.
Proof.
  revert k. induction l as [|c0 l IH]; intros k Hk; [discriminate|].
  destruct k as [|k]; cbn in *; [reflexivity|].
  apply orb_true_iff. right. exact (IH k Hk).
Qed.

Lemma existsb_delete_reparse l k i :
  l !! k = Some (ReparseCall i) ->
  existsb is_parse_call (delete k l) = existsb is_parse_call l.
Proof.
  revert k. induction l as [|c0 l IH]; intros k Hk; [discriminate|].
  destruct k as [|k]; cbn in *.
  - inversion Hk; subst. reflexivity.
  - f_equal. exact (IH k Hk).
Qed.

Lemma parse_calls_delete_reparse l k i :
  l !! k = Some (ReparseCall i) -> parse_calls (delete k l) = parse_calls l.
Proof.
  unfold parse_calls. revert k. induction l as [|c0 l IH]; intros k Hk; [discriminate|].
  destruct k as [|k]; cbn in *.
  - inversion Hk; subst. reflexivity.
  - destruct (is_parse_call c0); [f_equal|]; exact (IH k Hk).
Qed.

Lemma finish_batch_batch ui :
  (existsb is_parse_call (in_flight ui) = true ->
     st_processing (page ui) = true /\ appState (page ui) = upload) ->
  NoDup (target <$> parse_calls (in_flight ui)) ->
  Forall (fun c => 1 <= attempt_of c <= MAX_RETRIES) (in_flight ui) ->
  BatchInv (finish_batch ui).
Proof.
  intros Hbatch Hnd Hall. unfold BatchInv, finish_batch.
  destruct (existsb is_parse_call (in_flight ui)) eqn:Hex.
  - destruct (Hbatch eq_refl) as [Hp Ha]. rewrite Hex.
    split; [exact Hp|]. split; [intros _; exact Ha|]. split; assumption.
  - cbn. rewrite Hex. split; [reflexivity|]. split; [discriminate|].
    split; assumption.
Qed.

Lemma step_batch ui a ui' : BatchInv ui -> step ui a = Some ui' -> BatchInv ui'.
Proof.
  intros Hinv Hstep. destruct a; cbn [step] in Hstep.
  - (* FilesAdded *)
    destruct (appState (page ui)) eqn:Happ; [|discriminate].
    pose proof Hinv as (H1 & H2 & H3 & H4).
    inversion Hstep; subst ui'. unfold BatchInv. cbn. rewrite Happ. auto.
  - (* ClearAll *)
    destruct (appState (page ui)) eqn:Happ; [|discriminate].
    destruct (receipts (page ui)); [discriminate|].
    pose proof Hinv as (H1 & H2 & H3 & H4).
    inversion Hstep; subst ui'. unfold BatchInv. cbn. rewrite Happ. auto.
  - (* ProcessAll *)
    destruct (appState (page ui)) eqn:Happ; [|discriminate].
    destruct (receipts (page ui)) eqn:Hrs; [discriminate|]. rewrite <- Hrs in *.
    destruct (st_processing (page ui)) eqn:Hproc; [discriminate|].
    pose proof Hinv as (H1 & H2 & H3 & H4).
    inversion Hstep; subst ui'.
    apply finish_batch_batch;
      cbn [in_flight page st_processing appState with_receipts with_processing].
    + intros _. split; [reflexivity|exact Happ].
    + unfold parse_calls. rewrite List.filter_app.
      change (List.filter is_parse_call (in_flight ui)) with (parse_calls (in_flight ui)).
      rewrite (parse_calls_none _ (eq_trans (eq_sym H1) Hproc)). cbn [app].
      assert (Hnew : forall ps : list (Receipt jsobj * nat),
                 target <$> List.filter is_parse_call
                              (List.map (fun p => ParseCall (snd p) 1 None) ps)
                 = snd <$> ps).
      { intros ps. induction ps as [|p ps IH]; [reflexivity|].
        cbn [List.map List.filter is_parse_call]. rewrite !fmap_cons. f_equal. exact IH. }
      rewrite Hnew. apply toProcess_of_NoDup.
    + apply Forall_app. split; [exact H4|].
      apply Forall_forall. intros c Hc. apply list_elem_of_In, in_map_iff in Hc as (p & <- & _).
      cbn. unfold MAX_RETRIES. lia.
  - (* BackToUpload *)
    destruct (appState (page ui)) eqn:Happ; [discriminate|].
    pose proof Hinv as (H1 & H2 & H3 & H4).
    inversion Hstep; subst ui'. unfold BatchInv. cbn. auto.
  - (* TypeInput *)
    destruct (displayed ui); [|discriminate]. inversion Hstep; subst ui'. exact Hinv.
  - (* SelectMode *)
    destruct (displayed ui); [|discriminate]. inversion Hstep; subst ui'. exact Hinv.
  - (* ClickReparse *)
    destruct (displayed ui) as [receipt|]; [|discriminate].
    destruct (reparse_disabled (userInput ui) receipt); [discriminate|].
    destruct (trim_is_empty (userInput ui)); [discriminate|].
    pose proof Hinv as (H1 & H2 & H3 & H4).
    inversion Hstep; subst ui'. unfold BatchInv. cbn.
    rewrite existsb_app. cbn. rewrite orb_false_r.
    split; [exact H1|]. split; [exact H2|]. split.
    + unfold parse_calls. rewrite List.filter_app. cbn. rewrite app_nil_r. exact H3.
    + apply Forall_app. split; [exact H4|]. constructor; [|constructor].
      cbn. unfold MAX_RETRIES. lia.
  - (* Approve *)
    destruct (displayed ui) as [receipt|]; [|discriminate].
    destruct (approve_disabled receipt); [discriminate|].
    pose proof Hinv as (H1 & H2 & H3 & H4).
    inversion Hstep; subst ui'. unfold BatchInv.
    destruct (currentIndex (page ui) <? length (receipts (page ui)) - 1)%nat;
      cbn; auto.
  - (* SelectReceipt *)
    destruct (displayed ui); [|discriminate].
    destruct (i <? length (receipts (page ui)))%nat; [|discriminate].
    inversion Hstep; subst ui'. exact Hinv.
  - (* SettleParse *)
    destruct (in_flight ui !! k) as [[idx attempt lastError|]|] eqn:Hk; try discriminate.
    pose proof Hinv as (H1 & H2 & H3 & H4).
    assert (Hex : existsb is_parse_call (in_flight ui) = true).
    { apply (existsb_elem _ (ParseCall idx attempt lastError)); [|reflexivity].
      apply list_elem_of_lookup. eauto. }
    assert (Hdone : forall f,
               BatchInv (finish_batch
                           (mkUi (with_receipts f (page ui)) (userInput ui) (parseMode ui)
                              (delete k (in_flight ui))))).
    { intros f. apply finish_batch_batch; cbn.
      - intros _. split; [rewrite H1; exact Hex|exact (H2 Hex)].
      - eapply sublist_NoDup; [exact H3|].
        apply fmap_sublist, filter_mono, sublist_delete.
      - apply Forall_delete. exact H4. }
    destruct (response_outcome http_message resp) as [data|m].
    + inversion Hstep; subst ui'. apply Hdone.
    + destruct (attempt <? MAX_RETRIES)%nat eqn:Hlt.
      * inversion Hstep; subst ui'. unfold BatchInv.
        cbn [page in_flight st_processing appState].
        rewrite (existsb_insert_parse _ _ _ _ _ _ Hk).
        split; [rewrite H1; exact Hex|]. split; [intros _; exact (H2 Hex)|]. split.
        -- rewrite (parse_targets_insert _ _ _ _ _ _ _ Hk). exact H3.
        -- apply Forall_insert; [exact H4|]. cbn. apply Nat.ltb_lt in Hlt. lia.
      * inversion Hstep; subst ui'. apply Hdone.
  - (* SettleReparse *)
    destruct (in_flight ui !! k) as [[|index]|] eqn:Hk; try discriminate.
    pose proof Hinv as (H1 & H2 & H3 & H4).
    inversion Hstep; subst ui'. unfold BatchInv.
    cbn [page in_flight st_processing appState with_receipts].
    rewrite (existsb_delete_reparse _ _ _ Hk), (parse_calls_delete_reparse _ _ _ Hk).
    split; [exact H1|]. split; [exact H2|]. split; [exact H3|].
    apply Forall_delete. exact H4.
Qed.

Lemma run_batch ui trace ui' : BatchInv ui -> run ui trace = Some ui' -> BatchInv ui'.
Proof.
  revert ui. induction trace as [|a rest IH]; intros ui Hinv Hrun; cbn in Hrun.
  - inversion Hrun; subst. exact Hinv.
  - destruct (step ui a) as [ui1|] eqn:Hstep; [|discriminate].
    exact (IH ui1 (step_batch _ _ _ Hinv Hstep) Hrun).
Qed.

(** X12: on every screen a session can reach, the batch flag is set
    exactly while an extraction call is in flight; the upload screen is up
    as long as one is; the extraction calls in flight are for different
    receipts; and every call in flight is in a round from 1 to
    [MAX_RETRIES]. *)
Theorem batch_invariant_reachable model trace ui :
  run (initial model) trace = Some ui -> BatchInv ui.
Proof.
  apply run_batch. unfold BatchInv, initial. cbn.
  split; [reflexivity|]. split; [discriminate|]. split; constructor.
Qed.

(** X12 on a session with a batch, a re-parse and a second batch. *)
Lemma batch_invariant_reachable_witness :
  exists ui,
    run (initial "qwen/qwen3-vl-235b-a22b-instruct") Scenarios.overlapping_session = Some ui /\
    BatchInv ui.
Proof.
  eexists. split; [reflexivity|].
  apply (batch_invariant_reachable "qwen/qwen3-vl-235b-a22b-instruct"
           Scenarios.overlapping_session).
  reflexivity.
Defined.

(** *** Uploads and approvals persist *)

Lemma same_upload_refl rs i : same_upload rs rs i.
Proof. intros r Hr. exists r. auto. Qed.

Lemma same_upload_trans rs1 rs2 rs3 i :
  same_upload rs1 rs2 i -> same_upload rs2 rs3 i -> same_upload rs1 rs3 i.
Proof.
  intros H12 H23 r Hr.
  destruct (H12 r Hr) as (r2 & Hr2 & Hid & Hname & Hfile & Happ).
  destruct (H23 r2 Hr2) as (r3 & Hr3 & Hid' & Hname' & Hfile' & Happ').
  exists r3. split; [exact Hr3|]. repeat split; try congruence. auto.
Qed.

Lemma same_upload_map_at rs idx f i :
  (forall r, id (f r) = id r /\ filename (f r) = filename r /\ file (f r) = file r /\
             (approved r = true -> approved (f r) = true)) ->
  same_upload rs (map_at idx f rs) i.
Proof.
  intros Hf r Hr. rewrite map_at_lookup, Hr.
  destruct (decide (i = idx)); cbn; eexists; (split; [reflexivity|]); [apply Hf|auto].
Qed.

Lemma same_upload_flagged rs (c : nat -> bool) i :
  same_upload rs (imap (fun idx r => if c idx then mark_processing r else r) rs) i.
Proof.
  intros r Hr. rewrite list_lookup_imap, Hr. cbn.
  destruct (c i); eexists; (split; [reflexivity|]); cbn; auto.
Qed.

Lemma finish_batch_receipts ui :
  receipts (page (finish_batch ui)) = receipts (page ui).
Proof. unfold finish_batch. destruct (existsb _ _); reflexivity. Qed.

Lemma step_same_upload ui a ui' i :
  a <> ClearAll -> step ui a = Some ui' ->
  same_upload (receipts (page ui)) (receipts (page ui')) i.
Proof.
  intros Hclear Hstep. destruct a; cbn [step] in Hstep; try (destruct Hclear; reflexivity).
  - destruct (appState (page ui)); [|discriminate].
    inversion Hstep; subst ui'. cbn. intros r Hr. exists r.
    split; [apply lookup_app_l_Some; exact Hr|auto].
  - destruct (appState (page ui)); [|discriminate].
    destruct (receipts (page ui)) eqn:Hrs; [discriminate|]. rewrite <- Hrs in *.
    destruct (st_processing (page ui)); [discriminate|].
    inversion Hstep; subst ui'. rewrite finish_batch_receipts. cbn.
    apply same_upload_flagged.
  - destruct (appState (page ui)); [discriminate|].
    inversion Hstep; subst ui'. apply same_upload_refl.
  - destruct (displayed ui); [|discriminate]. inversion Hstep; subst ui'.
    apply same_upload_refl.
  - destruct (displayed ui); [|discriminate]. inversion Hstep; subst ui'.
    apply same_upload_refl.
  - destruct (displayed ui) as [receipt|]; [|discriminate].
    destruct (reparse_disabled (userInput ui) receipt); [discriminate|].
    destruct (trim_is_empty (userInput ui)); [discriminate|].
    inversion Hstep; subst ui'. cbn. apply same_upload_map_at. intros r. cbn. auto.
  - destruct (displayed ui) as [receipt|]; [|discriminate].
    destruct (approve_disabled receipt); [discriminate|].
    inversion Hstep; subst ui'.
    destruct (currentIndex (page ui) <? length (receipts (page ui)) - 1)%nat; cbn;
      apply same_upload_map_at; intros r; cbn; auto.
  - destruct (displayed ui); [|discriminate].
    destruct (i0 <? length (receipts (page ui)))%nat; [|discriminate].
    inversion Hstep; subst ui'. apply same_upload_refl.
  - destruct (in_flight ui !! k) as [[idx attempt lastError|]|]; try discriminate.
    destruct (response_outcome http_message resp) as [data|m].
    + inversion Hstep; subst ui'. rewrite finish_batch_receipts. cbn.
      apply same_upload_map_at. intros r. cbn. auto.
    + destruct (attempt <? MAX_RETRIES)%nat.
      * inversion Hstep; subst ui'. apply same_upload_refl.
      * inversion Hstep; subst ui'. rewrite finish_batch_receipts. cbn.
        apply same_upload_map_at. intros r. cbn. auto.
  - destruct (in_flight ui !! k) as [[|index]|]; try discriminate.
    inversion Hstep; subst ui'. cbn. apply same_upload_map_at. intros r.
    destruct (response_outcome _ resp); cbn; auto.
Qed.

(** X13: as long as Clear All is not pressed, a receipt stays at its index
    with its identifier, file name and file, and an approved receipt stays
    approved: no upload, batch, re-parse, approval or answer of the server
    removes a receipt or takes an approval back. *)
Theorem uploads_and_approvals_persist ui trace ui' i :
  run ui trace = Some ui' ->
  keeps_uploads trace = true ->
  same_upload (receipts (page ui)) (receipts (page ui')) i.
Proof.
  revert ui. induction trace as [|a rest IH]; intros ui Hrun Hkeep; cbn in Hrun.
  - inversion Hrun; subst. apply same_upload_refl.
  - destruct (step ui a) as [ui1|] eqn:Hstep; [|discriminate].
    cbn in Hkeep. apply andb_prop in Hkeep as [Ha Hrest].
    eapply same_upload_trans; [|exact (IH ui1 Hrun Hrest)].
    apply (step_same_upload ui a ui1 i); [|exact Hstep].
    intros ->. discriminate.
Qed.

(** X13 on an approved receipt that is re-parsed: the answer carries no
    record, and the receipt is still approved. *)
Lemma uploads_and_approvals_persist_witness :
  exists ui,
    run Scenarios.approved_review Scenarios.empty_reparse = Some ui /\
    same_upload (receipts Scenarios.reviewed_upload) (receipts (page ui)) 0.
Proof.
  eexists. split; [reflexivity|].
  apply (uploads_and_approvals_persist Scenarios.approved_review
           Scenarios.empty_reparse); reflexivity.
Defined.

(** *** The review screen *)

Lemma displayed_review (st : State jsobj) userInput parseMode in_flight :
  appState st = review ->
  displayed (mkUi st userInput parseMode in_flight) = receipts st !! currentIndex st.
Proof. intros Happ. unfold displayed. cbn. rewrite Happ. reflexivity. Qed.

Lemma displayed_finish_batch ui :
  appState (page ui) = review -> displayed (finish_batch ui) = displayed ui.
Proof.
  intros Happ. unfold finish_batch. destruct (existsb _ _); [reflexivity|].
  unfold displayed. cbn. rewrite Happ. reflexivity.
Qed.

Lemma map_at_is_Some (rs : list (Receipt jsobj)) idx f j :
  is_Some (rs !! j) -> is_Some (map_at idx f rs !! j).
Proof.
  intros [r Hr]. rewrite map_at_lookup, Hr. destruct (decide (j = idx)); eexists; reflexivity.
Qed.

(** X14: once the review screen shows a receipt it keeps showing one,
    whatever the user does there and whatever answers arrive, until the
    user goes back to the upload screen. *)
Theorem review_keeps_a_receipt ui a ui' r :
  displayed ui = Some r ->
  step ui a = Some ui' ->
  a <> BackToUpload ->
  is_Some (displayed ui').
Proof.
  intros Hdisp Hstep Hback.
  pose proof (displayed_Some _ _ Hdisp) as [Happ Hcur].
  assert (Hsome : is_Some (receipts (page ui) !! currentIndex (page ui))) by eauto.
  destruct a; cbn [step] in Hstep; try rewrite Happ in Hstep; try discriminate.
  - destruct Hback. reflexivity.
  - rewrite Hdisp in Hstep. inversion Hstep; subst ui'.
    rewrite displayed_review by assumption. exact Hsome.
  - rewrite Hdisp in Hstep. inversion Hstep; subst ui'.
    rewrite displayed_review by assumption. exact Hsome.
  - rewrite Hdisp in Hstep.
    destruct (reparse_disabled (userInput ui) r); [discriminate|].
    destruct (trim_is_empty (userInput ui)); [discriminate|].
    inversion Hstep; subst ui'. rewrite displayed_review by assumption.
    cbn. apply map_at_is_Some. exact Hsome.
  - rewrite Hdisp in Hstep. destruct (approve_disabled r); [discriminate|].
    inversion Hstep; subst ui'. unfold displayed, with_page. cbn [page].
    destruct (currentIndex (page ui) <? length (receipts (page ui)) - 1)%nat eqn:Hlast;
      cbn; rewrite Happ.
    + apply Nat.ltb_lt in Hlast. apply lookup_lt_is_Some. rewrite map_at_length. lia.
    + apply map_at_is_Some. exact Hsome.
  - rewrite Hdisp in Hstep.
    destruct (i <? length (receipts (page ui)))%nat eqn:Hi; [|discriminate].
    inversion Hstep; subst ui'. unfold displayed. cbn. rewrite Happ.
    apply lookup_lt_is_Some. apply Nat.ltb_lt. exact Hi.
  - destruct (in_flight ui !! k) as [[idx attempt lastError|]|]; try discriminate.
    destruct (response_outcome http_message resp) as [data|m].
    + inversion Hstep; subst ui'. rewrite displayed_finish_batch by assumption.
      rewrite displayed_review by assumption. cbn. apply map_at_is_Some. exact Hsome.
    + destruct (attempt <? MAX_RETRIES)%nat.
      * inversion Hstep; subst ui'. rewrite displayed_review by assumption. exact Hsome.
      * inversion Hstep; subst ui'. rewrite displayed_finish_batch by assumption.
        rewrite displayed_review by assumption. cbn. apply map_at_is_Some. exact Hsome.
  - destruct (in_flight ui !! k) as [[|index]|]; try discriminate.
    inversion Hstep; subst ui'. rewrite displayed_review by assumption.
    cbn. apply map_at_is_Some. exact Hsome.
Qed.

(** X14 on an approved receipt whose re-parse is started. *)
Lemma review_keeps_a_receipt_witness :
  exists ui',
    step Scenarios.approved_review ClickReparse = Some ui' /\ is_Some (displayed ui').
Proof.
  eexists. split; [reflexivity|].
  eapply (review_keeps_a_receipt Scenarios.approved_review ClickReparse);
    [reflexivity|reflexivity|discriminate].
Defined.

(** X15: below a displayed receipt the Previous and Next buttons always
    ask for an index inside the list: Previous for the one before, or the
    first; Next for the one after, or the last. *)
Theorem navigation_in_range ui r :
  displayed ui = Some r ->
  let st := page ui in
  step ui (SelectReceipt (previous_index (currentIndex st))) =
    Some (with_page (with_currentIndex (currentIndex st - 1)) ui) /\
  step ui (SelectReceipt (next_index (length (receipts st)) (currentIndex st))) =
    Some (with_page
            (with_currentIndex
               (if decide (currentIndex st + 1 < length (receipts st))
                then currentIndex st + 1 else currentIndex st)) ui).
Proof.
  intros Hdisp st. pose proof (displayed_Some _ _ Hdisp) as [Happ Hcur].
  pose proof (lookup_lt_Some _ _ _ Hcur) as Hlt. subst st.
  cbn [step]. rewrite Hdisp. unfold previous_index, next_index.
  split.
  - rewrite Nat.max_0_l.
    assert (Hin : (currentIndex (page ui) - 1 <? length (receipts (page ui)))%nat = true)
      by (apply Nat.ltb_lt; lia).
    rewrite Hin. reflexivity.
  - assert (Hnext : Nat.min (length (receipts (page ui)) - 1) (currentIndex (page ui) + 1)
                    = if decide (currentIndex (page ui) + 1 < length (receipts (page ui)))
                      then currentIndex (page ui) + 1 else currentIndex (page ui))
      by (destruct (decide _); lia).
    rewrite Hnext.
    assert (Hin : ((if decide (currentIndex (page ui) + 1 < length (receipts (page ui)))
                    then currentIndex (page ui) + 1 else currentIndex (page ui))
                   <? length (receipts (page ui)))%nat = true)
      by (apply Nat.ltb_lt; destruct (decide _); lia).
    rewrite Hin. reflexivity.
Qed.

(** X15 on a screen with one receipt: both buttons stay on it. *)
Lemma navigation_in_range_witness :
  step Scenarios.approved_review (SelectReceipt (next_index 1 0)) =
    Some Scenarios.approved_review.
Proof.
  destruct (navigation_in_range Scenarios.approved_review
              (mark_approved (parse_succeeded
                 (mkParseData "aW1n" "dGh1" (Some Scenarios.lunch_flat))
                 Scenarios.uploaded_receipt))) as [_ Hnext]; [reflexivity|].
  exact Hnext.
Defined.

Lemma trim_white_space (piece s : string) :
  piece ∈ white_space -> trim_is_empty (piece +:+ s) = trim_is_empty s.
Proof.
  unfold white_space. intros Hin.
  repeat (apply elem_of_cons in Hin as [->|Hin]; [reflexivity|]).
  inversion Hin.
Qed.

Lemma trim_white_spaces (pieces : list string) :
  Forall (fun piece => piece ∈ white_space) pieces ->
  trim_is_empty (foldr String.app "" pieces) = true.
Proof.
  induction 1 as [|piece pieces Hpiece _ IH]; [reflexivity|].
  cbn [foldr]. rewrite (trim_white_space _ _ Hpiece). exact IH.
Qed.

(** X22: in the sectioned review the Enter key in the chat input and a
    click on Apply start a re-parse in exactly the same cases: when the
    receipt has a parsed record, is not processing, and the input holds
    more than white space.  A receipt without a parsed record cannot be
    re-parsed from there, and an input made of white space only (spaces,
    tabs, line breaks, no-break spaces and the other spaces [trim] strips)
    starts nothing. *)
Theorem chat_reparse_conditions {P} (userInput : string) (receipt : Receipt P) :
  apply_click_reparses userInput receipt = enter_key_reparses userInput receipt /\
  (enter_key_reparses userInput receipt = true <->
   is_Some (parsed receipt) /\ processing receipt = false /\
   trim_is_empty userInput = false) /\
  (parsed receipt = None -> enter_key_reparses userInput receipt = false) /\
  (forall pieces,
      Forall (fun piece => piece ∈ white_space) pieces ->
      enter_key_reparses (foldr String.app "" pieces) receipt = false /\
      apply_click_reparses (foldr String.app "" pieces) receipt = false).
Proof.
  assert (Hkeys :
            apply_click_reparses userInput receipt = enter_key_reparses userInput receipt /\
            (enter_key_reparses userInput receipt = true <->
             is_Some (parsed receipt) /\ processing receipt = false /\
             trim_is_empty userInput = false) /\
            (parsed receipt = None -> enter_key_reparses userInput receipt = false)).
  { unfold apply_click_reparses, enter_key_reparses, chat_rendered, reparse_disabled.
    destruct (parsed receipt) as [p|], (processing receipt), (trim_is_empty userInput);
      cbn; (split; [reflexivity|]);
      (split; [|first [discriminate | reflexivity]]);
      (split; [first [discriminate | intros _; eauto]|]);
      intros (H1 & H2 & H3);
      first [reflexivity | discriminate | destruct H1; discriminate]. }
  destruct Hkeys as (Hsame & Hwhen & Hnone).
  split; [exact Hsame|]. split; [exact Hwhen|]. split; [exact Hnone|].
  intros pieces Hpieces. unfold apply_click_reparses, enter_key_reparses.
  rewrite (trim_white_spaces pieces Hpieces). cbn [negb].
  rewrite !andb_false_r. split; reflexivity.
Qed.

End UiMore.

(** ** The header: editing, saving and reloading *)

Module HeaderMore.
Import Json Header HeaderForm JsonProps.

Lemma reload_object (o : jsonobj) (localStorage : Storage) :
  object_strings o -> NoDup (fst <$> o) ->
  initialHeaderInfo true (saveHeaderInfo o localStorage) = Some o.
Proof.
  intros Hstr Hnd. unfold initialHeaderInfo, saveHeaderInfo. rewrite lookup_insert_eq.
  pose proof (JSON_parse_stringify o Hstr Hnd) as Hrt.
  unfold JSON_stringify at 1. cbn [app]. exact Hrt.
Qed.

Lemma get_set_property_eq (o : jsonobj) k v :
  get_property (set_property o k v) k = Some v.
Proof.
  induction o as [|[k' v'] o IH]; cbn [set_property get_property].
  - rewrite bool_decide_eq_true_2 by reflexivity. reflexivity.
  - case_bool_decide as Hk; cbn [get_property].
    + rewrite bool_decide_eq_true_2 by reflexivity. reflexivity.
    + rewrite bool_decide_eq_false_2 by exact Hk. exact IH.
Qed.

Lemma get_set_property_ne (o : jsonobj) k v k0 :
  k0 <> k -> get_property (set_property o k v) k0 = get_property o k0.
Proof.
  intros Hne. induction o as [|[k' v'] o IH]; cbn [set_property get_property].
  - rewrite bool_decide_eq_false_2 by congruence. reflexivity.
  - case_bool_decide as Hk; cbn [get_property].
    + subst k'. rewrite !bool_decide_eq_false_2 by congruence. reflexivity.
    + rewrite IH. reflexivity.
Qed.

Lemma set_property_keys (o : jsonobj) k v :
  k ∈ fst <$> o -> fst <$> set_property o k v = fst <$> o.
Proof.
  induction o as [|[k' v'] o IH]; intros Hin; [inversion Hin|].
  cbn [set_property]. case_bool_decide as Hk.
  - subst k'. reflexivity.
  - rewrite !fmap_cons. f_equal. apply IH.
    rewrite fmap_cons in Hin. apply elem_of_cons in Hin as [Heq|Hin]; [|exact Hin].
    cbn in Heq. congruence.
Qed.

Lemma set_property_elem (o : jsonobj) k v k0 :
  k0 ∈ fst <$> set_property o k v -> k0 = k \/ k0 ∈ fst <$> o.
Proof.
  induction o as [|[k' v'] o IH]; cbn [set_property].
  - rewrite fmap_cons. intros Hin. apply elem_of_cons in Hin as [Heq|Hin];
      [left; exact Heq|inversion Hin].
  - case_bool_decide as Hk; rewrite !fmap_cons; intros Hin;
      apply elem_of_cons in Hin as [Heq|Hin].
    + left. exact Heq.
    + right. apply elem_of_cons. right. exact Hin.
    + right. apply elem_of_cons. left. exact Heq.
    + destruct (IH Hin) as [?|?]; [left; assumption|].
      right. apply elem_of_cons. right. assumption.
Qed.

Lemma set_property_NoDup (o : jsonobj) k v :
  NoDup (fst <$> o) -> NoDup (fst <$> set_property o k v).
Proof.
  induction o as [|[k' v'] o IH]; cbn [set_property]; intros Hnd.
  - rewrite fmap_cons. apply NoDup_singleton.
  - rewrite fmap_cons in Hnd. apply NoDup_cons in Hnd as [Hnotin Hnd]. cbn [fst] in Hnotin.
    case_bool_decide as Hk; rewrite fmap_cons; apply NoDup_cons; cbn [fst].
    + subst k'. split; assumption.
    + split; [|apply IH; exact Hnd].
      intros Hin. destruct (set_property_elem _ _ _ _ Hin) as [Heq|Hin'];
        [congruence|contradiction].
Qed.

Lemma set_property_strings (o : jsonobj) k v :
  object_strings o -> Forall code_unit k -> Forall code_unit v ->
  object_strings (set_property o k v).
Proof.
  unfold object_strings. intros Ho Hk Hv.
  induction o as [|[k' v'] o IH]; cbn [set_property].
  - constructor; [split; assumption|constructor].
  - apply Forall_cons in Ho as [Hkv Ho]. case_bool_decide.
    + constructor; [split; assumption|exact Ho].
    + constructor; [exact Hkv|apply IH; exact Ho].
Qed.

(** X17: an edit of the header form sets the edited property to the typed
    value and leaves every other property as it was; when the property is
    one the header has, the properties keep their order; and the edited
    header, once saved, is read back unchanged by the next session. *)
Theorem update_then_reload (o : jsonobj) (field value : jsstring)
    (localStorage : Storage) :
  object_strings o -> NoDup (fst <$> o) ->
  Forall code_unit field -> Forall code_unit value ->
  let o' := update o field value in
  get_property o' field = Some value /\
  (forall k, k <> field -> get_property o' k = get_property o k) /\
  (field ∈ fst <$> o -> fst <$> o' = fst <$> o) /\
  initialHeaderInfo true (saveHeaderInfo o' localStorage) = Some o'.
Proof.
  intros Hstr Hnd Hfield Hvalue o'. subst o'. unfold update.
  split; [apply get_set_property_eq|].
  split; [intros k Hk; apply get_set_property_ne; exact Hk|].
  split; [apply set_property_keys|].
  apply reload_object; [apply set_property_strings|apply set_property_NoDup]; assumption.
Qed.

(** X17 on a change of name. *)
Lemma update_then_reload_witness :
  initialHeaderInfo true
    (saveHeaderInfo (update (to_object Scenarios.jane) (lit "name") (lit "Jane Roe")) ∅)
  = Some (update (to_object Scenarios.jane) (lit "name") (lit "Jane Roe")).
Proof.
  apply (update_then_reload (to_object Scenarios.jane) (lit "name") (lit "Jane Roe") ∅).
  - apply to_object_strings. unfold well_formed, code_unit.
    apply (bool_decide_unpack _). vm_compute. exact I.
  - apply to_object_keys.
  - apply lit_code_units.
  - apply lit_code_units.
Defined.

Lemma v1_object_strings (h : HeaderV1.HeaderInfo) :
  HeaderV1.well_formed h -> object_strings (HeaderV1.to_object h).
Proof.
  unfold HeaderV1.well_formed, object_strings, HeaderV1.to_object. intros H.
  repeat match goal with
         | H : Forall _ (_ :: _) |- _ => apply Forall_cons in H as [? H]
         end.
  repeat (apply Forall_cons; split;
          [split; [apply lit_code_units|assumption]|]).
  constructor.
Qed.

(** X18: a header saved by the first variant of the page is read back by
    the second as it was saved, with no [foreign_currency] and no
    [exchange_rate]: the defaults of these two properties are given to a
    fresh header only. *)
Theorem v1_header_reloads_without_defaults (h : HeaderV1.HeaderInfo)
    (localStorage : Storage) :
  HeaderV1.well_formed h ->
  initialHeaderInfo true (saveHeaderInfo (HeaderV1.to_object h) localStorage)
    = Some (HeaderV1.to_object h) /\
  get_property (HeaderV1.to_object h) (lit "foreign_currency") = None /\
  get_property (HeaderV1.to_object h) (lit "exchange_rate") = None /\
  get_property (to_object defaultHeaderInfo) (lit "foreign_currency") = Some (lit "USD") /\
  get_property (to_object defaultHeaderInfo) (lit "exchange_rate") = Some (lit "0.79").
Proof.
  intros Hwf. split.
  - apply reload_object; [apply v1_object_strings; exact Hwf|].
    unfold HeaderV1.to_object. cbn [fmap list_fmap fst]. compute_done.
  - repeat split; vm_compute; reflexivity.
Qed.

(** X18 on a header of the first variant. *)
Lemma v1_header_reloads_without_defaults_witness :
  initialHeaderInfo true (saveHeaderInfo (HeaderV1.to_object Scenarios.jane_v1) ∅)
    = Some (HeaderV1.to_object Scenarios.jane_v1).
Proof.
  apply (v1_header_reloads_without_defaults Scenarios.jane_v1 ∅).
  unfold HeaderV1.well_formed, code_unit. apply (bool_decide_unpack _). vm_compute. exact I.
Defined.

End HeaderMore.

(** ** Editing fields: inputs and repeated edits *)

Module ReviewMore.
Import Types Review ReviewProps.

Lemma updateField_fields (parsed : ParsedReceipt) section field value :
  fields <$> updateField (Some parsed) section field value =
    Some (set_section (fields parsed) section
            (<[field := value]> (get_section (fields parsed) section))).
Proof.
  unfold updateField.
  destruct (bool_decide (section <> active_section parsed) && strict_ne value VNull
            && strict_ne value (VStr "") && strict_ne value (VBool false));
    reflexivity.
Qed.

(** X19: whatever is typed into a number input, the edit stores a number
    that is not NaN (an entry that does not parse, and a cleared input,
    store 0) and the edited section is the active one afterwards. *)
Theorem number_edit_activates_section
    (parsed : ParsedReceipt) (section : ActiveSection) (field : string)
    (parseFloat_value : float) :
  exists newParsed y,
    updateField (Some parsed) section field (Field.number_value parseFloat_value)
      = Some newParsed /\
    active_section newParsed = section /\
    get_section (fields newParsed) section !! field = Some (VNum y) /\
    PrimFloat.is_nan y = false /\
    (PrimFloat.is_nan parseFloat_value = true -> y = 0%float).
Proof.
  unfold updateField, Field.number_value.
  set (y := if PrimFloat.is_nan parseFloat_value || PrimFloat.eqb parseFloat_value 0
            then 0%float else parseFloat_value).
  assert (Hy : PrimFloat.is_nan y = false).
  { subst y. destruct (PrimFloat.is_nan parseFloat_value) eqn:Hnan; cbn [orb];
      [reflexivity|].
    destruct (PrimFloat.eqb parseFloat_value 0); [reflexivity|exact Hnan]. }
  assert (Hzero : PrimFloat.is_nan parseFloat_value = true -> y = 0%float)
    by (intros Hnan; subst y; rewrite Hnan; reflexivity).
  change (strict_ne (VNum y) VNull) with true.
  change (strict_ne (VNum y) (VStr "")) with true.
  change (strict_ne (VNum y) (VBool false)) with true.
  rewrite !andb_true_r.
  case_bool_decide as Hs; eexists _, y; (split; [reflexivity|]); cbn [active_section fields].
  - split; [reflexivity|]. rewrite get_set_section_eq, lookup_insert_eq. auto.
  - split; [symmetry; destruct (decide (section = active_section parsed)); [assumption|contradiction]|].
    rewrite get_set_section_eq, lookup_insert_eq. auto.
Qed.

Lemma updateField_twice_fields (parsed : ParsedReceipt) s f v s' f' v' :
  fields <$> (p ← updateField (Some parsed) s f v; updateField (Some p) s' f' v')
  = Some (set_section
            (set_section (fields parsed) s (<[f := v]> (get_section (fields parsed) s))) s'
            (<[f' := v']>
               (get_section
                  (set_section (fields parsed) s
                     (<[f := v]> (get_section (fields parsed) s))) s'))).
Proof.
  pose proof (updateField_fields parsed s f v) as H0.
  destruct (updateField (Some parsed) s f v) as [p|] eqn:Hp; [|discriminate].
  cbn [mbind option_bind]. rewrite updateField_fields.
  cbn in H0. inversion H0 as [Hf]. rewrite Hf. reflexivity.
Qed.

(** X20: repeating an edit changes nothing more, and a second edit of the
    same field leaves the field sets a single edit with the second value
    leaves. *)
Theorem updateField_idempotent
    (parsed : ParsedReceipt) (section : ActiveSection) (field : string)
    (value value' : jsval) :
  (p ← updateField (Some parsed) section field value;
   updateField (Some p) section field value)
  = updateField (Some parsed) section field value /\
  fields <$> (p ← updateField (Some parsed) section field value;
              updateField (Some p) section field value')
  = fields <$> updateField (Some parsed) section field value'.
Proof.
  split.
  - unfold updateField.
    destruct (bool_decide (section <> active_section parsed) && strict_ne value VNull
              && strict_ne value (VStr "") && strict_ne value (VBool false)) eqn:Hc;
      cbn [mbind option_bind active_section fields confidence raw_description].
    + rewrite bool_decide_eq_false_2 by (intros H; apply H; reflexivity).
      cbn [andb]. rewrite get_set_section_eq, insert_insert_eq.
      destruct section, (fields parsed); reflexivity.
    + rewrite Hc. rewrite get_set_section_eq, insert_insert_eq.
      destruct section, (fields parsed); reflexivity.
  - rewrite updateField_twice_fields, updateField_fields.
    rewrite get_set_section_eq, insert_insert_eq.
    destruct section, (fields parsed); reflexivity.
Qed.

(** X21: two edits of different fields leave the same field sets in either
    order. *)
Theorem updateField_fields_commute
    (parsed : ParsedReceipt) s f v s' f' v' :
  (s, f) <> (s', f') ->
  fields <$> (p ← updateField (Some parsed) s f v; updateField (Some p) s' f' v')
  = fields <$> (p ← updateField (Some parsed) s' f' v'; updateField (Some p) s f v).
Proof.
  intros Hne. rewrite !updateField_twice_fields. f_equal.
  destruct (fields parsed) as [a b c d].
  destruct s, s'; cbn [set_section get_section travel_general_fields
                         travel_mileage_fields hospitality_fields other_fields];
    try reflexivity;
    rewrite insert_insert_ne by congruence; reflexivity.
Qed.

(** X21 on the empty record: a date typed under hospitality and a guest
    typed there. *)
Lemma updateField_fields_commute_witness :
  fields <$> (p ← updateField (Some createEmptyParsedReceipt) hospitality "date"
                    (VStr "2025-01-09");
              updateField (Some p) hospitality "principal_guest" (VStr "A. Guest"))
  = fields <$> (p ← updateField (Some createEmptyParsedReceipt) hospitality
                      "principal_guest" (VStr "A. Guest");
                updateField (Some p) hospitality "date" (VStr "2025-01-09")).
Proof.
  apply (updateField_fields_commute createEmptyParsedReceipt).
  discriminate.
Defined.

End ReviewMore.
